(** * CacheMir: a shallow embedding of the store, the dispatcher, the wire
      codec and the hash ring, with the properties of its specification.

    Conventions of the embedding.
    - Go [string] is a Rocq [string] (a sequence of 8-bit characters);
      [[]byte] is [list byte].
    - [int64], [uint64], [uint32] are [Z] with the wrap-around written out;
      slice lengths and offsets (Go [int], never negative here) are [nat].
    - [map[K]V] is stdpp's [gmap K V]; a missing key reads as Go's zero value
      where the source relies on that.
    - [interface{}] is the sum [any] of the dynamic types the program stores.
    - a finite [float64] is the rational it stands for, and each operation
      rounds its exact result to the nearest float64, ties to even.
    - every operation that reads the clock takes the instant [now] it reads;
      an operation runs under the store lock and is modelled at one instant.
    - a Go panic and a returned [error] are explicit results. *)

From Stdlib Require Import ZArith List String Ascii Strings.Byte Lia Bool Sorted Permutation.
From stdpp Require Import base gmap strings list sorting.

Local Open Scope string_scope.
Local Open Scope Z_scope.

(** ** Machine integers *)

Definition wrap64 (z : Z) : Z := (z + 2 ^ 63) mod 2 ^ 64 - 2 ^ 63.
Definition wrapU64 (z : Z) : Z := z mod 2 ^ 64.
Definition wrapU32 (z : Z) : Z := z mod 2 ^ 32.

Definition maxInt64 : Z := 9223372036854775807.
Definition minInt64 : Z := -9223372036854775808.
Definition maxUint64 : Z := 18446744073709551615.

Definition is_int64 (z : Z) : Prop := minInt64 <= z <= maxInt64.
Definition is_uint64 (z : Z) : Prop := 0 <= z <= maxUint64.

(** ** Dynamic values: Go's [interface{}] *)

Inductive any : Type :=
  | a_nil
  | a_string (s : string)
  | a_int64 (n : Z)
  | a_strings (l : list string)
  | a_map_string (m : gmap string string)
  | a_map_bool (m : gmap string bool).

(** ** float64, as far as [Duration.Seconds] uses it *)

Module float64.

(** A finite float64 is the rational number it stands for, [num / den]
    with [den] a power of two.  Infinities and NaN are left out: the
    numbers of seconds of a [Duration] stay below 2^34. *)
Definition Float := (Z * Z)%type.

(** [2^e] as the fraction [up e / down e]. *)
Definition up (e : Z) : Z := 2 ^ Z.max e 0.
Definition down (e : Z) : Z := 2 ^ Z.max (- e) 0.

(** The binary exponent of the positive rational [p / q]: the [k] with
    [2^k <= p / q < 2^(k+1)]. *)
Definition floor_log2 (p q : Z) : Z :=
  let k := Z.log2 p - Z.log2 q in
  if p * down k <? q * up k then k - 1 else k.

(** The integer nearest to [n / d], the even one of two that are equally
    near. *)
Definition round_half_even (n d : Z) : Z :=
  let a := n / d in
  let r := n mod d in
  if 2 * r <? d then a
  else if d <? 2 * r then a + 1
  else if Z.even a then a else a + 1.

(** IEEE 754 rounding to nearest, ties to even, of the positive rational
    [p / q]: a significand of 53 bits at the exponent of the number, or at
    the least exponent -1074 of the format. *)
Definition round_pos (p q : Z) : Float :=
  let e := Z.max (floor_log2 p q - 52) (-1074) in
  (round_half_even (p * down e) (q * up e) * up e, down e).

Definition round (p q : Z) : Float :=
  match p with
  | 0 => (0, 1)
  | Zpos _ => round_pos p q
  | Zneg _ => let '(n, d) := round_pos (- p) q in (- n, d)
  end.

(** [float64(z)] *)
Definition of_int (z : Z) : Float := round z 1.
(** [x + y] *)
Definition add (x y : Float) : Float :=
  round (x.1 * y.2 + y.1 * x.2) (x.2 * y.2).
(** [x / y] for a positive [y] *)
Definition div (x y : Float) : Float := round (x.1 * y.2) (x.2 * y.1).
(** [int64(x)]: the fraction is discarded. *)
Definition to_int64 (x : Float) : Z := Z.quot x.1 x.2.

End float64.

(** ** package time *)

Module time.

(** An instant, in nanoseconds since the zero [time.Time]. *)
Definition Time := Z.
(** A [time.Duration]: an int64 count of nanoseconds. *)
Definition Duration := Z.

Definition Second : Duration := 1000000000.

Definition zero : Time := 0.
Definition IsZero (t : Time) : bool := t =? 0.
(** [t.After(u)]: strictly later. *)
Definition After (t u : Time) : bool := u <? t.
Definition Add (t : Time) (d : Duration) : Time := t + d.
(** [t.Sub(u)] saturates at the largest and smallest [Duration]. *)
Definition Sub (t u : Time) : Duration :=
  Z.max minInt64 (Z.min maxInt64 (t - u)).
(** [time.Until(t)] read at the instant [now]. *)
Definition Until (now t : Time) : Duration := Sub t now.

(** [d.Seconds()]:
    [sec := d / Second; nsec := d % Second;
     return float64(sec) + float64(nsec)/1e9] *)
Definition Seconds (d : Duration) : float64.Float :=
  let sec := Z.quot d Second in
  let nsec := Z.rem d Second in
  float64.add (float64.of_int sec)
    (float64.div (float64.of_int nsec) (float64.of_int 1000000000)).

(** [int64(d.Seconds())] *)
Definition Seconds_int64 (d : Duration) : Z := float64.to_int64 (Seconds d).
(** [uint64(d.Seconds())], for the encoder.  For [d < 0] Go leaves the
    conversion to the platform; amd64 wraps. *)
Definition Seconds_uint64 (d : Duration) : Z :=
  wrapU64 (float64.to_int64 (Seconds d)).

End time.

(** ** package strconv *)

Module strconv.

Definition is_digit (c : ascii) : bool :=
  (48 <=? Z.of_N (N_of_ascii c)) && (Z.of_N (N_of_ascii c) <=? 57).
Definition digit_val (c : ascii) : Z := Z.of_N (N_of_ascii c) - 48.
Definition digit_char (d : Z) : ascii := ascii_of_N (Z.to_N (48 + d)).

(** The digit loop of [ParseUint(s, 10, 64)]; [None] is any error. *)
Fixpoint parse_digits (n : Z) (s : string) : option Z :=
  match s with
  | EmptyString => Some n
  | String c rest =>
      if negb (is_digit c) then None
      else if maxUint64 / 10 + 1 <=? n then None
      else
        let n1 := n * 10 + digit_val c in
        if maxUint64 <? n1 then None else parse_digits n1 rest
  end.

Definition ParseUint (s : string) : option Z :=
  match s with
  | EmptyString => None
  | _ => parse_digits 0 s
  end.

(** [ParseInt(s, 10, 64)]; the callers only test [err == nil]. *)
Definition ParseInt (s : string) : option Z :=
  match s with
  | EmptyString => None
  | String c rest =>
      let neg := Ascii.eqb c "-" in
      let s' := if Ascii.eqb c "+" || neg then rest else s in
      match ParseUint s' with
      | None => None
      | Some un =>
          let cutoff := 2 ^ 63 in
          if negb neg && (cutoff <=? un) then None
          else if neg && (cutoff <? un) then None
          else
            let n := wrap64 un in
            Some (if neg then wrap64 (- n) else n)
      end
  end.

(** Decimal digits of [u], most significant first, in front of [acc]. *)
Fixpoint formatBits (fuel : nat) (u : Z) (acc : string) : string :=
  match fuel with
  | O => acc
  | S fuel' =>
      if u <? 10 then String (digit_char u) acc
      else formatBits fuel' (u / 10) (String (digit_char (u mod 10)) acc)
  end.

(** [FormatInt(i, 10)]; a uint64 has at most 20 digits. *)
Definition FormatInt (i : Z) : string :=
  if i <? 0 then String "-" (formatBits 20 (wrapU64 (- i)) "")
  else formatBits 20 (wrapU64 i) "".

End strconv.

(** ** package cache: the store engine *)

Module cache.
Import time.

Inductive ValueType := TypeString | TypeHash | TypeList | TypeSet.

Definition ValueType_eqb (a b : ValueType) : bool :=
  match a, b with
  | TypeString, TypeString | TypeHash, TypeHash
  | TypeList, TypeList | TypeSet, TypeSet => true
  | _, _ => false
  end.

Record Value := mkValue {
  Data : any;
  ExpiresAt : Time;
  Type_ : ValueType
}.

Record Cache := mkCache { data : gmap string Value }.

Definition set_Data (v : Value) (d : any) : Value :=
  mkValue d (ExpiresAt v) (Type_ v).
Definition set_ExpiresAt (v : Value) (t : Time) : Value :=
  mkValue (Data v) t (Type_ v).

(** [c.data[key] = value] *)
Definition store (c : Cache) (key : string) (v : Value) : Cache :=
  mkCache (<[key := v]> (data c)).

Definition New : Cache := mkCache ∅.

Definition isExpired (now : Time) (value : Value) : bool :=
  negb (IsZero (ExpiresAt value)) && After now (ExpiresAt value).

(** One pass of the reaper [cleanupExpired]. *)
Definition cleanupExpired (c : Cache) (now : Time) : Cache :=
  mkCache (filter (fun kv => isExpired now kv.2 = false) (data c)).

(** [value, exists := c.data[key]; if !exists || c.isExpired(value)]:
    [None] when that guard fires. *)
Definition live (c : Cache) (now : Time) (key : string) : option Value :=
  match data c !! key with
  | Some value => if isExpired now value then None else Some value
  | None => None
  end.

Definition Get (c : Cache) (now : Time) (key : string) : string * bool :=
  match live c now key with
  | None => ("", false)
  | Some value =>
      if negb (ValueType_eqb (Type_ value) TypeString) then ("", false)
      else match Data value with
           | a_string str => (str, true)
           | _ => ("", false)
           end
  end.

Definition Set_ (c : Cache) (now : Time) (key val : string) (ttl : Duration)
  : Cache :=
  let value := mkValue (a_string val) zero TypeString in
  let value := if 0 <? ttl then set_ExpiresAt value (Add now ttl) else value in
  store c key value.

Definition Del (c : Cache) (key : string) : Cache * bool :=
  match data c !! key with
  | Some _ => (mkCache (delete key (data c)), true)
  | None => (c, false)
  end.

Definition Exists (c : Cache) (now : Time) (key : string) : bool :=
  match live c now key with
  | None => false
  | Some _ => true
  end.

(** [(int64, error)]: the error is [None] for [nil]. *)
Definition IncrBy (c : Cache) (now : Time) (key : string) (delta : Z)
  : Cache * (Z * option string) :=
  match live c now key with
  | None =>
      let newValue := mkValue (a_string (strconv.FormatInt delta)) zero TypeString in
      (store c key newValue, (delta, None))
  | Some value =>
      if negb (ValueType_eqb (Type_ value) TypeString)
      then (c, (0, Some "value is not a string"))
      else match Data value with
           | a_string str =>
               match strconv.ParseInt str with
               | None => (c, (0, Some "value is not an integer"))
               | Some current =>
                   let newVal := wrap64 (current + delta) in
                   (store c key (set_Data value (a_string (strconv.FormatInt newVal))),
                    (newVal, None))
               end
           | _ => (c, (0, Some "value is not a string"))
           end
  end.

Definition Incr (c : Cache) (now : Time) (key : string) :=
  IncrBy c now key 1.
Definition Decr (c : Cache) (now : Time) (key : string) :=
  IncrBy c now key (-1).

Definition Expire (c : Cache) (now : Time) (key : string) (ttl : Duration)
  : Cache * bool :=
  match live c now key with
  | None => (c, false)
  | Some value => (store c key (set_ExpiresAt value (Add now ttl)), true)
  end.

Definition TTL (c : Cache) (now : Time) (key : string) : Duration :=
  match live c now key with
  | None => -2 * Second
  | Some value =>
      if IsZero (ExpiresAt value) then -1 * Second
      else
        let remaining := Until now (ExpiresAt value) in
        if remaining <=? 0 then -2 * Second else remaining
  end.

Definition Persist (c : Cache) (now : Time) (key : string) : Cache * bool :=
  match live c now key with
  | None => (c, false)
  | Some value => (store c key (set_ExpiresAt value zero), true)
  end.

(** The guard shared by the read and pop operations:
    [!exists || c.isExpired(value) || value.Type != t]. *)
Definition live_of (c : Cache) (now : Time) (key : string) (t : ValueType)
  : option Value :=
  match live c now key with
  | None => None
  | Some value =>
      if negb (ValueType_eqb (Type_ value) t) then None else Some value
  end.

(** The preamble shared by [HSet], [LPush], [RPush] and [SAdd]: a missing or
    expired entry is replaced by an empty one of type [t], stored at once;
    a live entry of another type makes the operation return ([None]). *)
Definition open_or_create (c : Cache) (now : Time) (key : string)
    (t : ValueType) (empty : any) : option (Cache * Value) :=
  match live c now key with
  | None =>
      let value := mkValue empty zero t in
      Some (store c key value, value)
  | Some value =>
      if negb (ValueType_eqb (Type_ value) t) then None else Some (c, value)
  end.

Definition HGet (c : Cache) (now : Time) (key field : string) : string * bool :=
  match live_of c now key TypeHash with
  | None => ("", false)
  | Some value =>
      match Data value with
      | a_map_string hash =>
          match hash !! field with
          | Some val => (val, true)
          | None => ("", false)
          end
      | _ => ("", false)
      end
  end.

Definition HSet (c : Cache) (now : Time) (key field val : string) : Cache :=
  match open_or_create c now key TypeHash (a_map_string ∅) with
  | None => c
  | Some (c1, value) =>
      match Data value with
      | a_map_string hash =>
          store c1 key (set_Data value (a_map_string (<[field := val]> hash)))
      | _ => c1
      end
  end.

Definition HDel (c : Cache) (now : Time) (key field : string) : Cache * bool :=
  match live_of c now key TypeHash with
  | None => (c, false)
  | Some value =>
      match Data value with
      | a_map_string hash =>
          match hash !! field with
          | Some _ =>
              (store c key (set_Data value (a_map_string (delete field hash))), true)
          | None => (c, false)
          end
      | _ => (c, false)
      end
  end.

Definition HExists (c : Cache) (now : Time) (key field : string) : bool :=
  match live_of c now key TypeHash with
  | None => false
  | Some value =>
      match Data value with
      | a_map_string hash =>
          match hash !! field with Some _ => true | None => false end
      | _ => false
      end
  end.

Definition HGetAll (c : Cache) (now : Time) (key : string) : gmap string string :=
  match live_of c now key TypeHash with
  | None => ∅
  | Some value =>
      match Data value with
      | a_map_string hash => hash
      | _ => ∅
      end
  end.

(** [for i := len(values) - 1; i >= 0; i-- { list = append([]string{values[i]}, list...) }] *)
Definition lpush_loop (values list_ : list string) : list string :=
  fold_left (fun acc v => ([v] ++ acc)%list) (rev values) list_.

Definition LPush (c : Cache) (now : Time) (key : string) (values : list string)
  : Cache * nat :=
  match open_or_create c now key TypeList (a_strings []) with
  | None => (c, 0%nat)
  | Some (c1, value) =>
      match Data value with
      | a_strings list_ =>
          let list_ := lpush_loop values list_ in
          (store c1 key (set_Data value (a_strings list_)), length list_)
      | _ => (c1, 0%nat)
      end
  end.

Definition RPush (c : Cache) (now : Time) (key : string) (values : list string)
  : Cache * nat :=
  match open_or_create c now key TypeList (a_strings []) with
  | None => (c, 0%nat)
  | Some (c1, value) =>
      match Data value with
      | a_strings list_ =>
          let list_ := (list_ ++ values)%list in
          (store c1 key (set_Data value (a_strings list_)), length list_)
      | _ => (c1, 0%nat)
      end
  end.

Definition LPop (c : Cache) (now : Time) (key : string) : Cache * (string * bool) :=
  match live_of c now key TypeList with
  | None => (c, ("", false))
  | Some value =>
      match Data value with
      | a_strings list_ =>
          match list_ with
          | [] => (c, ("", false))
          | result :: rest =>
              (store c key (set_Data value (a_strings rest)), (result, true))
          end
      | _ => (c, ("", false))
      end
  end.

Definition RPop (c : Cache) (now : Time) (key : string) : Cache * (string * bool) :=
  match live_of c now key TypeList with
  | None => (c, ("", false))
  | Some value =>
      match Data value with
      | a_strings list_ =>
          match last list_ with
          | None => (c, ("", false))
          | Some result =>
              (store c key
                 (set_Data value (a_strings (take (length list_ - 1) list_))),
               (result, true))
          end
      | _ => (c, ("", false))
      end
  end.

Definition LLen (c : Cache) (now : Time) (key : string) : nat :=
  match live_of c now key TypeList with
  | None => 0%nat
  | Some value =>
      match Data value with
      | a_strings list_ => length list_
      | _ => 0%nat
      end
  end.

(** [set[member]] on a [map[string]bool]: [false] when missing. *)
Definition set_get (set : gmap string bool) (member : string) : bool :=
  default false (set !! member).

Definition sadd_loop (members : list string) (set : gmap string bool)
  : gmap string bool * nat :=
  fold_left
    (fun '(set, added) member =>
       if negb (set_get set member)
       then (<[member := true]> set, S added)
       else (set, added))
    members (set, 0%nat).

Definition SAdd (c : Cache) (now : Time) (key : string) (members : list string)
  : Cache * nat :=
  match open_or_create c now key TypeSet (a_map_bool ∅) with
  | None => (c, 0%nat)
  | Some (c1, value) =>
      match Data value with
      | a_map_bool set =>
          let '(set, added) := sadd_loop members set in
          (store c1 key (set_Data value (a_map_bool set)), added)
      | _ => (c1, 0%nat)
      end
  end.

Definition srem_loop (members : list string) (set : gmap string bool)
  : gmap string bool * nat :=
  fold_left
    (fun '(set, removed) member =>
       if set_get set member
       then (delete member set, S removed)
       else (set, removed))
    members (set, 0%nat).

Definition SRem (c : Cache) (now : Time) (key : string) (members : list string)
  : Cache * nat :=
  match live_of c now key TypeSet with
  | None => (c, 0%nat)
  | Some value =>
      match Data value with
      | a_map_bool set =>
          let '(set, removed) := srem_loop members set in
          (store c key (set_Data value (a_map_bool set)), removed)
      | _ => (c, 0%nat)
      end
  end.

(** The members in the map's iteration order, which Go leaves unspecified. *)
Definition SMembers (c : Cache) (now : Time) (key : string) : list string :=
  match live_of c now key TypeSet with
  | None => []
  | Some value =>
      match Data value with
      | a_map_bool set => (map_to_list set).*1
      | _ => []
      end
  end.

Definition SIsMember (c : Cache) (now : Time) (key member : string) : bool :=
  match live_of c now key TypeSet with
  | None => false
  | Some value =>
      match Data value with
      | a_map_bool set => set_get set member
      | _ => false
      end
  end.

End cache.

(** ** package encoding/binary: varints *)

Module binary.

Definition Z_of_byte (b : byte) : Z := Z.of_N (Byte.to_N b).
(** [byte(x)]: the low eight bits. *)
Definition byte_of_Z (x : Z) : byte :=
  match Byte.of_N (Z.to_N (x mod 256)) with
  | Some b => b
  | None => x00
  end.

Definition MaxVarintLen64 : nat := 10.

(** [for x >= 0x80 { buf = append(buf, byte(x)|0x80); x >>= 7 }
     return append(buf, byte(x))]; a uint64 leaves the loop within nine
    rounds. *)
Fixpoint uvarint_bytes (fuel : nat) (x : Z) : list byte :=
  match fuel with
  | O => [byte_of_Z x]
  | S fuel' =>
      if 128 <=? x
      then byte_of_Z (Z.lor (x mod 256) 128) :: uvarint_bytes fuel' (Z.shiftr x 7)
      else [byte_of_Z x]
  end.

Definition AppendUvarint (buf : list byte) (x : Z) : list byte :=
  buf ++ uvarint_bytes MaxVarintLen64 (wrapU64 x).

Definition AppendVarint (buf : list byte) (x : Z) : list byte :=
  let ux := wrapU64 (Z.shiftl (wrapU64 x) 1) in
  let ux := if x <? 0 then wrapU64 (Z.lnot ux) else ux in
  AppendUvarint buf ux.

(** The loop of [Uvarint]: [i] is the index of the byte read, [x] the value
    gathered so far and [s] the shift. *)
Fixpoint uvarint_loop (buf : list byte) (i : nat) (x s : Z) : Z * Z :=
  match buf with
  | [] => (0, 0)
  | b :: rest =>
      let b := Z_of_byte b in
      if (i =? MaxVarintLen64)%nat then (0, - (Z.of_nat i + 1))
      else if b <? 128 then
        if (i =? MaxVarintLen64 - 1)%nat && (1 <? b)
        then (0, - (Z.of_nat i + 1))
        else (Z.lor x (wrapU64 (Z.shiftl b s)), Z.of_nat i + 1)
      else
        uvarint_loop rest (S i)
          (Z.lor x (wrapU64 (Z.shiftl (Z.land b 127) s))) (s + 7)
  end.

(** [Uvarint(buf)]: the value and the number of bytes read; that number is
    zero when the buffer is too small and negative on overflow. *)
Definition Uvarint (buf : list byte) : Z * Z := uvarint_loop buf 0 0 0.

Definition Varint (buf : list byte) : Z * Z :=
  let '(ux, n) := Uvarint buf in
  let x := wrap64 (Z.shiftr ux 1) in
  let x := if negb (Z.land ux 1 =? 0) then wrap64 (Z.lnot x) else x in
  (x, n).

End binary.

(** A call that returns [(T, error)]. *)
Inductive result (A : Type) : Type :=
  | Ok (a : A)
  | Err (msg : string).
Arguments Ok {A} a.
Arguments Err {A} msg.

(** ** package protocol: commands, responses and their encoding *)

Module protocol.
Import time binary.

Definition maxInt64Value : Z := 9223372036854775807.

(** [type CommandType uint8] *)
Definition CommandType := Z.
Definition CmdGet : CommandType := 0.
Definition CmdSet : CommandType := 1.
Definition CmdDel : CommandType := 2.
Definition CmdExists : CommandType := 3.
Definition CmdIncr : CommandType := 4.
Definition CmdDecr : CommandType := 5.
Definition CmdIncrBy : CommandType := 6.
Definition CmdDecrBy : CommandType := 7.
Definition CmdExpire : CommandType := 8.
Definition CmdTTL : CommandType := 9.
Definition CmdPersist : CommandType := 10.
Definition CmdHGet : CommandType := 11.
Definition CmdHSet : CommandType := 12.
Definition CmdHDel : CommandType := 13.
Definition CmdHGetAll : CommandType := 14.
Definition CmdHExists : CommandType := 15.
Definition CmdLPush : CommandType := 16.
Definition CmdRPush : CommandType := 17.
Definition CmdLPop : CommandType := 18.
Definition CmdRPop : CommandType := 19.
Definition CmdLLen : CommandType := 20.
Definition CmdSAdd : CommandType := 21.
Definition CmdSRem : CommandType := 22.
Definition CmdSMembers : CommandType := 23.
Definition CmdSIsMember : CommandType := 24.
Definition CmdPing : CommandType := 25.

(** [type ResponseType uint8] *)
Definition ResponseType := Z.
Definition RespOK : ResponseType := 0.
Definition RespError : ResponseType := 1.
Definition RespString : ResponseType := 2.
Definition RespInt : ResponseType := 3.
Definition RespArray : ResponseType := 4.
Definition RespNil : ResponseType := 5.

Record Command := mkCommand {
  Key : string;
  TTL : Duration;
  CmdType : CommandType;
  Args : list string
}.

Record Response := mkResponse {
  Data : any;
  Error : string;
  RespType : ResponseType
}.

Definition put_string (buf : list byte) (s : string) : list byte :=
  let bytes := list_byte_of_string s in
  AppendUvarint buf (Z.of_nat (length bytes)) ++ bytes.

Definition put_strings (buf : list byte) (l : list string) : list byte :=
  fold_left put_string l (AppendUvarint buf (Z.of_nat (length l))).

(** [Command.Serialize]; its error is always [nil]. *)
Definition Command_Serialize (c : Command) : list byte :=
  let buf := [byte_of_Z (CmdType c)] in
  let buf := put_string buf (Key c) in
  let buf := put_strings buf (Args c) in
  AppendUvarint buf (Seconds_uint64 (TTL c)).

Definition deserializeString (data : list byte) (offset : nat)
    (fieldName : string) : result (string * nat) :=
  let '(strLen, n) := Uvarint (drop offset data) in
  if n <=? 0 then Err ("invalid " ++ fieldName ++ " length")
  else if (Z.of_nat (length data) <? strLen) || (maxInt64 <? strLen)
  then Err (fieldName ++ " length too large")
  else
    let offset := (offset + Z.to_nat n)%nat in
    let strLenInt := Z.to_nat strLen in
    if (length data <? offset + strLenInt)%nat
    then Err (fieldName ++ " data truncated")
    else Ok (string_of_list_byte (take strLenInt (drop offset data)),
             (offset + strLenInt)%nat).

(** The loop of [deserializeStringSlice], [count] strings to go. *)
Fixpoint deserializeStrings (count : nat) (data : list byte) (offset : nat)
  : result (list string * nat) :=
  match count with
  | O => Ok ([], offset)
  | S count' =>
      match deserializeString data offset "arg" with
      | Err e => Err e
      | Ok (arg, offset) =>
          match deserializeStrings count' data offset with
          | Err e => Err e
          | Ok (args, offset) => Ok (arg :: args, offset)
          end
      end
  end.

(** [deserializeStringSlice].  The allocation [make([]string, argsCount)]
    is taken to succeed: a count beyond what the machine can allocate ends
    the Go program before the loop starts, which no value of this type
    describes. *)
Definition deserializeStringSlice (data : list byte) (offset : nat)
  : result (list string * nat) :=
  let '(argsCount, n) := Uvarint (drop offset data) in
  if n <=? 0 then Err "invalid args count"
  else deserializeStrings (Z.to_nat argsCount) data (offset + Z.to_nat n)%nat.

Definition deserializeTTL (data : list byte) (offset : nat) : result Duration :=
  let '(ttlSeconds, n) := Uvarint (drop offset data) in
  if n <=? 0 then Err "invalid TTL"
  else if maxInt64Value <? ttlSeconds then Err "TTL too large"
  else Ok (wrap64 (wrap64 ttlSeconds * Second)).

Definition DeserializeCommand (data : list byte) : result Command :=
  match data with
  | [] => Err "empty command data"
  | b :: _ =>
      let type := Z_of_byte b in
      let offset := 1%nat in
      match deserializeString data offset "key" with
      | Err e => Err e
      | Ok (key, offset) =>
          match deserializeStringSlice data offset with
          | Err e => Err e
          | Ok (args, offset) =>
              match deserializeTTL data offset with
              | Err e => Err e
              | Ok ttl => Ok (mkCommand key ttl type args)
              end
          end
      end
  end.

(** [Response.Serialize]; its error is always [nil]. *)
Definition Response_Serialize (r : Response) : list byte :=
  let buf := [byte_of_Z (RespType r)] in
  match RespType r with
  | 0 => buf
  | 1 => put_string buf (Error r)
  | 2 => match Data r with
         | a_string str => put_string buf str
         | _ => buf
         end
  | 3 => match Data r with
         | a_int64 num => AppendVarint buf num
         | _ => buf
         end
  | 4 => match Data r with
         | a_strings arr => put_strings buf arr
         | _ => buf
         end
  | _ => buf
  end.

Definition deserializeErrorResponse (resp : Response) (data : list byte)
    (offset : nat) : result Response :=
  match deserializeString data offset "error" with
  | Err e => Err e
  | Ok (errorStr, _) => Ok (mkResponse (Data resp) errorStr (RespType resp))
  end.

Definition deserializeStringResponse (resp : Response) (data : list byte)
    (offset : nat) : result Response :=
  match deserializeString data offset "string" with
  | Err e => Err e
  | Ok (str, _) => Ok (mkResponse (a_string str) (Error resp) (RespType resp))
  end.

Definition deserializeIntResponse (resp : Response) (data : list byte)
    (offset : nat) : result Response :=
  let '(num, n) := Varint (drop offset data) in
  if n <=? 0 then Err "invalid integer"
  else Ok (mkResponse (a_int64 num) (Error resp) (RespType resp)).

Definition deserializeArrayResponse (resp : Response) (data : list byte)
    (offset : nat) : result Response :=
  match deserializeStringSlice data offset with
  | Err e => Err e
  | Ok (arr, _) => Ok (mkResponse (a_strings arr) (Error resp) (RespType resp))
  end.

Definition DeserializeResponse (data : list byte) : result Response :=
  match data with
  | [] => Err "empty response data"
  | b :: _ =>
      let resp := mkResponse a_nil "" (Z_of_byte b) in
      let offset := 1%nat in
      match RespType resp with
      | 0 | 5 => Ok resp
      | 1 => deserializeErrorResponse resp data offset
      | 2 => deserializeStringResponse resp data offset
      | 3 => deserializeIntResponse resp data offset
      | 4 => deserializeArrayResponse resp data offset
      | _ => Ok resp
      end
  end.

End protocol.

(** ** package server: the command dispatcher *)

Module server.
Import time protocol.

Definition minHashFields : nat := 2.

(** The dispatcher's state is the store it owns. *)
Record Server := mkServer { cache : cache.Cache }.

Definition reply (t : ResponseType) (d : any) : Response := mkResponse d "" t.
Definition reply_error (msg : string) : Response := mkResponse a_nil msg RespError.
Definition reply_bool (b : bool) : Response :=
  reply RespInt (a_int64 (if b then 1 else 0)).

Definition parseIntArg (arg : string) : option Z := strconv.ParseInt arg.

Definition handlePing (s : Server) (cmd : Command) : Server * Response :=
  (s, reply RespString (a_string "PONG")).

Definition handleGet (s : Server) (now : Time) (cmd : Command) : Server * Response :=
  let '(value, exists_) := cache.Get (cache s) now (Key cmd) in
  if negb exists_ then (s, reply RespNil a_nil)
  else (s, reply RespString (a_string value)).

Definition handleSet (s : Server) (now : Time) (cmd : Command) : Server * Response :=
  match Args cmd with
  | [] => (s, reply_error "SET requires a value")
  | arg0 :: _ =>
      (mkServer (cache.Set_ (cache s) now (Key cmd) arg0 (TTL cmd)),
       reply RespOK a_nil)
  end.

Definition handleDel (s : Server) (cmd : Command) : Server * Response :=
  let '(c, deleted) := cache.Del (cache s) (Key cmd) in
  (mkServer c, reply_bool deleted).

Definition handleExists (s : Server) (now : Time) (cmd : Command) : Server * Response :=
  (s, reply_bool (cache.Exists (cache s) now (Key cmd))).

(** The shared tail of the four counter handlers. *)
Definition reply_counter (r : cache.Cache * (Z * option string)) : Server * Response :=
  let '(c, (value, err)) := r in
  match err with
  | Some msg => (mkServer c, reply_error msg)
  | None => (mkServer c, reply RespInt (a_int64 value))
  end.

Definition handleIncr (s : Server) (now : Time) (cmd : Command) : Server * Response :=
  reply_counter (cache.Incr (cache s) now (Key cmd)).

Definition handleDecr (s : Server) (now : Time) (cmd : Command) : Server * Response :=
  reply_counter (cache.Decr (cache s) now (Key cmd)).

Definition handleIncrBy (s : Server) (now : Time) (cmd : Command) : Server * Response :=
  match Args cmd with
  | [] => (s, reply_error "INCRBY requires a delta value")
  | arg0 :: _ =>
      let delta := 1 in
      let delta := match parseIntArg arg0 with Some d => d | None => delta end in
      reply_counter (cache.IncrBy (cache s) now (Key cmd) delta)
  end.

Definition handleDecrBy (s : Server) (now : Time) (cmd : Command) : Server * Response :=
  match Args cmd with
  | [] => (s, reply_error "DECRBY requires a delta value")
  | arg0 :: _ =>
      let delta := 1 in
      let delta := match parseIntArg arg0 with Some d => wrap64 (- d) | None => delta end in
      reply_counter (cache.IncrBy (cache s) now (Key cmd) delta)
  end.

Definition handleExpire (s : Server) (now : Time) (cmd : Command) : Server * Response :=
  let '(c, success) := cache.Expire (cache s) now (Key cmd) (TTL cmd) in
  (mkServer c, reply_bool success).

Definition handleTTL (s : Server) (now : Time) (cmd : Command) : Server * Response :=
  let ttl := cache.TTL (cache s) now (Key cmd) in
  (s, reply RespInt (a_int64 (Seconds_int64 ttl))).

Definition handlePersist (s : Server) (now : Time) (cmd : Command) : Server * Response :=
  let '(c, success) := cache.Persist (cache s) now (Key cmd) in
  (mkServer c, reply_bool success).

Definition handleHGet (s : Server) (now : Time) (cmd : Command) : Server * Response :=
  match Args cmd with
  | [] => (s, reply_error "HGET requires a field")
  | arg0 :: _ =>
      let '(value, exists_) := cache.HGet (cache s) now (Key cmd) arg0 in
      if negb exists_ then (s, reply RespNil a_nil)
      else (s, reply RespString (a_string value))
  end.

Definition handleHSet (s : Server) (now : Time) (cmd : Command) : Server * Response :=
  match Args cmd with
  | arg0 :: arg1 :: _ =>
      (mkServer (cache.HSet (cache s) now (Key cmd) arg0 arg1), reply RespOK a_nil)
  | _ => (s, reply_error "HSET requires field and value")
  end.

Definition handleHDel (s : Server) (now : Time) (cmd : Command) : Server * Response :=
  match Args cmd with
  | [] => (s, reply_error "HDEL requires a field")
  | arg0 :: _ =>
      let '(c, deleted) := cache.HDel (cache s) now (Key cmd) arg0 in
      (mkServer c, reply_bool deleted)
  end.

Definition handleHExists (s : Server) (now : Time) (cmd : Command) : Server * Response :=
  match Args cmd with
  | [] => (s, reply_error "HEXISTS requires a field")
  | arg0 :: _ => (s, reply_bool (cache.HExists (cache s) now (Key cmd) arg0))
  end.

(** [for k, v := range hash { result = append(result, k, v) }], in the
    map's iteration order. *)
Definition handleHGetAll (s : Server) (now : Time) (cmd : Command) : Server * Response :=
  let hash := cache.HGetAll (cache s) now (Key cmd) in
  let result := flat_map (fun kv => [kv.1; kv.2]) (map_to_list hash) in
  (s, reply RespArray (a_strings result)).

Definition handleLPush (s : Server) (now : Time) (cmd : Command) : Server * Response :=
  match Args cmd with
  | [] => (s, reply_error "LPUSH requires at least one value")
  | _ =>
      let '(c, length_) := cache.LPush (cache s) now (Key cmd) (Args cmd) in
      (mkServer c, reply RespInt (a_int64 (Z.of_nat length_)))
  end.

Definition handleRPush (s : Server) (now : Time) (cmd : Command) : Server * Response :=
  match Args cmd with
  | [] => (s, reply_error "RPUSH requires at least one value")
  | _ =>
      let '(c, length_) := cache.RPush (cache s) now (Key cmd) (Args cmd) in
      (mkServer c, reply RespInt (a_int64 (Z.of_nat length_)))
  end.

Definition reply_pop (r : cache.Cache * (string * bool)) : Server * Response :=
  let '(c, (value, exists_)) := r in
  if negb exists_ then (mkServer c, reply RespNil a_nil)
  else (mkServer c, reply RespString (a_string value)).

Definition handleLPop (s : Server) (now : Time) (cmd : Command) : Server * Response :=
  reply_pop (cache.LPop (cache s) now (Key cmd)).

Definition handleRPop (s : Server) (now : Time) (cmd : Command) : Server * Response :=
  reply_pop (cache.RPop (cache s) now (Key cmd)).

Definition handleLLen (s : Server) (now : Time) (cmd : Command) : Server * Response :=
  (s, reply RespInt (a_int64 (Z.of_nat (cache.LLen (cache s) now (Key cmd))))).

Definition handleSAdd (s : Server) (now : Time) (cmd : Command) : Server * Response :=
  match Args cmd with
  | [] => (s, reply_error "SADD requires at least one member")
  | _ =>
      let '(c, added) := cache.SAdd (cache s) now (Key cmd) (Args cmd) in
      (mkServer c, reply RespInt (a_int64 (Z.of_nat added)))
  end.

Definition handleSRem (s : Server) (now : Time) (cmd : Command) : Server * Response :=
  match Args cmd with
  | [] => (s, reply_error "SREM requires at least one member")
  | _ =>
      let '(c, removed) := cache.SRem (cache s) now (Key cmd) (Args cmd) in
      (mkServer c, reply RespInt (a_int64 (Z.of_nat removed)))
  end.

Definition handleSMembers (s : Server) (now : Time) (cmd : Command) : Server * Response :=
  (s, reply RespArray (a_strings (cache.SMembers (cache s) now (Key cmd)))).

Definition handleSIsMember (s : Server) (now : Time) (cmd : Command) : Server * Response :=
  match Args cmd with
  | [] => (s, reply_error "SISMEMBER requires a member")
  | arg0 :: _ => (s, reply_bool (cache.SIsMember (cache s) now (Key cmd) arg0))
  end.

(** [executeCommand]: the handler table of [getCommandHandler], and the
    error reply for an opcode outside it. *)
Definition executeCommand (s : Server) (now : Time) (cmd : Command)
  : Server * Response :=
  match CmdType cmd with
  | 0 => handleGet s now cmd
  | 1 => handleSet s now cmd
  | 2 => handleDel s cmd
  | 3 => handleExists s now cmd
  | 4 => handleIncr s now cmd
  | 5 => handleDecr s now cmd
  | 6 => handleIncrBy s now cmd
  | 7 => handleDecrBy s now cmd
  | 8 => handleExpire s now cmd
  | 9 => handleTTL s now cmd
  | 10 => handlePersist s now cmd
  | 11 => handleHGet s now cmd
  | 12 => handleHSet s now cmd
  | 13 => handleHDel s now cmd
  | 14 => handleHGetAll s now cmd
  | 15 => handleHExists s now cmd
  | 16 => handleLPush s now cmd
  | 17 => handleRPush s now cmd
  | 18 => handleLPop s now cmd
  | 19 => handleRPop s now cmd
  | 20 => handleLLen s now cmd
  | 21 => handleSAdd s now cmd
  | 22 => handleSRem s now cmd
  | 23 => handleSMembers s now cmd
  | 24 => handleSIsMember s now cmd
  | 25 => handlePing s cmd
  | n => (s, reply_error ("unknown command: " ++ strconv.FormatInt n))
  end.

Definition New : Server := mkServer cache.New.

End server.

(** ** package crypto/sha256 *)

Module sha256.

Definition add32 (a b : Z) : Z := wrapU32 (a + b).
Definition rotr (n x : Z) : Z :=
  Z.lor (Z.shiftr x n) (wrapU32 (Z.shiftl x (32 - n))).
Definition not32 (x : Z) : Z := Z.lxor x 0xffffffff.

Definition Ch (x y z : Z) : Z := Z.lxor (Z.land x y) (Z.land (not32 x) z).
Definition Maj (x y z : Z) : Z :=
  Z.lxor (Z.lxor (Z.land x y) (Z.land x z)) (Z.land y z).
Definition bsig0 (x : Z) : Z := Z.lxor (Z.lxor (rotr 2 x) (rotr 13 x)) (rotr 22 x).
Definition bsig1 (x : Z) : Z := Z.lxor (Z.lxor (rotr 6 x) (rotr 11 x)) (rotr 25 x).
Definition ssig0 (x : Z) : Z := Z.lxor (Z.lxor (rotr 7 x) (rotr 18 x)) (Z.shiftr x 3).
Definition ssig1 (x : Z) : Z := Z.lxor (Z.lxor (rotr 17 x) (rotr 19 x)) (Z.shiftr x 10).

(** The round constants are the first 32 bits of the fractional parts of
    the cube roots of the first 64 primes, the initial state those of the
    square roots of the first 8 primes. *)
Definition is_prime (n : Z) : bool :=
  forallb (fun d => negb (n mod d =? 0)) (seqZ 2 (n - 2)).

Definition primes : list Z := List.filter is_prime (seqZ 2 310).

(** The largest [r] in [lo, hi) with [r ^ k <= n], by bisection. *)
Fixpoint root_bisect (fuel : nat) (k n lo hi : Z) : Z :=
  match fuel with
  | O => lo
  | S fuel' =>
      if hi - lo <=? 1 then lo
      else
        let mid := (lo + hi) / 2 in
        if mid ^ k <=? n then root_bisect fuel' k n mid hi
        else root_bisect fuel' k n lo mid
  end.

Definition fractional_root_bits (k p : Z) : Z :=
  wrapU32 (root_bisect 256 k (p * 2 ^ (32 * k)) 0 (p * 2 ^ 32)).

Definition K : list Z :=
  Eval vm_compute in fractional_root_bits 3 <$> primes.

Definition init : list Z :=
  Eval vm_compute in fractional_root_bits 2 <$> take 8 primes.

(** The bytes of [x], most significant first, [n] of them. *)
Fixpoint be_bytes (n : nat) (x : Z) : list Z :=
  match n with
  | O => []
  | S n' => (Z.shiftr x (8 * Z.of_nat n')) mod 256 :: be_bytes n' x
  end.

Definition pad (msg : list Z) : list Z :=
  let len := Z.of_nat (length msg) in
  let zeros := Z.to_nat ((55 - len) mod 64) in
  (msg ++ [0x80] ++ replicate zeros 0 ++ be_bytes 8 (8 * len))%list.

(** Big-endian 32-bit words of a byte sequence. *)
Fixpoint words (fuel : nat) (bytes : list Z) : list Z :=
  match fuel, bytes with
  | S fuel', b0 :: b1 :: b2 :: b3 :: rest =>
      (b0 * 2 ^ 24 + b1 * 2 ^ 16 + b2 * 2 ^ 8 + b3) :: words fuel' rest
  | _, _ => []
  end.

(** The message schedule: [n] more words after the ones in [w]. *)
Fixpoint schedule (n : nat) (w : list Z) : list Z :=
  match n with
  | O => w
  | S n' =>
      let t := length w in
      let at_ (k : nat) := nth (t - k) w 0 in
      schedule n'
        (w ++ [add32 (add32 (ssig1 (at_ 2%nat)) (at_ 7%nat))
                     (add32 (ssig0 (at_ 15%nat)) (at_ 16%nat))])%list
  end.

Definition round (st : list Z) (kw : Z * Z) : list Z :=
  match st with
  | [a; b; c; d; e; f; g; h] =>
      let t1 := add32 (add32 (add32 h (bsig1 e)) (add32 (Ch e f g) kw.1)) kw.2 in
      let t2 := add32 (bsig0 a) (Maj a b c) in
      [add32 t1 t2; a; b; c; add32 d t1; e; f; g]
  | _ => st
  end.

Definition compress (h : list Z) (block : list Z) : list Z :=
  let w := schedule 48 (words 16 block) in
  zip_with add32 h (fold_left round (zip K w) h).

Fixpoint blocks (fuel : nat) (h : list Z) (bytes : list Z) : list Z :=
  match fuel with
  | O => h
  | S fuel' =>
      match bytes with
      | [] => h
      | _ => blocks fuel' (compress h (take 64 bytes)) (drop 64 bytes)
      end
  end.

(** [sha256.Sum256(data)]: the 32 bytes of the digest. *)
Definition Sum256 (data : list byte) : list Z :=
  let bytes := pad (binary.Z_of_byte <$> data) in
  flat_map (be_bytes 4) (blocks (length bytes) init bytes).

End sha256.

(** ** package sort *)

Module sort.

(** The loop of [sort.Search]: [for i < j { h := (i+j)/2; if !f(h) { i = h+1 }
    else { j = h } }]; every round narrows [j - i], [None] is fuel run out. *)
Fixpoint Search_loop (fuel : nat) (f : nat -> bool) (i j : nat) : option nat :=
  if (i <? j)%nat then
    match fuel with
    | O => None
    | S fuel' =>
        let h := ((i + j) / 2)%nat in
        if negb (f h) then Search_loop fuel' f (h + 1)%nat j
        else Search_loop fuel' f i h
    end
  else Some i.

Definition Search (n : nat) (f : nat -> bool) : option nat :=
  Search_loop n f 0%nat n.

(** [sort.Slice(s, func(i, j) bool { return s[i] < s[j] })] on a slice of
    numbers: whichever algorithm runs, the result is the one ascending
    arrangement of the elements. *)
Definition Slice (s : list Z) : list Z := merge_sort Z.le s.

End sort.

(** ** package hash: the consistent-hash ring *)

Module hash.

Definition DefaultVirtualNodes : Z := 150.

Record ConsistentHash := mkConsistentHash {
  ring : gmap Z string;
  sortedHashes : list Z;
  nodes : gmap string bool;
  virtualNodes : Z
}.

Definition New (virtualNodes : Z) : ConsistentHash :=
  let virtualNodes :=
    if virtualNodes <=? 0 then DefaultVirtualNodes else virtualNodes in
  mkConsistentHash ∅ [] ∅ virtualNodes.

Definition hashKey (key : string) : Z :=
  match sha256.Sum256 (list_byte_of_string key) with
  | h0 :: h1 :: h2 :: h3 :: _ =>
      Z.lor (Z.lor (Z.lor (wrapU32 (Z.shiftl h0 24)) (wrapU32 (Z.shiftl h1 16)))
               (wrapU32 (Z.shiftl h2 8))) h3
  | _ => 0
  end.

(** [fmt.Sprintf("%s:%d", node, i)] *)
Definition virtualKey (node : string) (i : Z) : string :=
  node ++ ":" ++ strconv.FormatInt i.

(** [c.nodes[node]] on a [map[string]bool]. *)
Definition has_node (c : ConsistentHash) (node : string) : bool :=
  default false (nodes c !! node).

Definition add_virtual (node : string) (st : gmap Z string * list Z) (i : Z)
  : gmap Z string * list Z :=
  let hash := hashKey (virtualKey node i) in
  (<[hash := node]> st.1, (st.2 ++ [hash])%list).

Definition AddNode (c : ConsistentHash) (node : string) : ConsistentHash :=
  if has_node c node then c
  else
    let st := fold_left (add_virtual node) (seqZ 0 (virtualNodes c))
                (ring c, sortedHashes c) in
    mkConsistentHash st.1 (sort.Slice st.2) (<[node := true]> (nodes c))
      (virtualNodes c).

Definition del_virtual (node : string) (r : gmap Z string) (i : Z)
  : gmap Z string :=
  delete (hashKey (virtualKey node i)) r.

Definition RemoveNode (c : ConsistentHash) (node : string) : ConsistentHash :=
  if negb (has_node c node) then c
  else
    let ring' := fold_left (del_virtual node) (seqZ 0 (virtualNodes c)) (ring c) in
    let newSortedHashes :=
      filter (fun hash => is_Some (ring' !! hash)) (sortedHashes c) in
    mkConsistentHash ring' newSortedHashes (delete node (nodes c))
      (virtualNodes c).

(** [search]: the probes [c.sortedHashes[i]] of the binary search stay below
    the length. *)
Definition search (c : ConsistentHash) (hash : Z) : option nat :=
  let n := length (sortedHashes c) in
  match sort.Search n (fun i => hash <=? nth i (sortedHashes c) 0) with
  | None => None
  | Some idx => Some (if (idx =? n)%nat then 0%nat else idx)
  end.

(** [GetNode]; [None] stands for a run that does not return a node: the
    index expression [c.sortedHashes[idx]] out of range, or the search out
    of fuel. *)
Definition GetNode (c : ConsistentHash) (key : string) : option string :=
  if (size (ring c) =? 0)%nat then Some ""
  else
    let hash := hashKey key in
    match search c hash with
    | None => None
    | Some idx =>
        match sortedHashes c !! idx with
        | None => None
        | Some h => Some (default "" (ring c !! h))
        end
    end.

Definition GetNodes (c : ConsistentHash) : list string :=
  (map_to_list (nodes c)).*1.

End hash.

(** * Notions used to state the properties *)

(** ** Histories of the store *)

Module history.
Import time cache.

(** The calls that can change a store; [OpCleanup] is one pass of the
    reaper.  Read-only calls leave the store as it is. *)
Inductive Op :=
  | OpSet (key val : string) (ttl : Duration)
  | OpDel (key : string)
  | OpIncrBy (key : string) (delta : Z)
  | OpExpire (key : string) (ttl : Duration)
  | OpPersist (key : string)
  | OpHSet (key field val : string)
  | OpHDel (key field : string)
  | OpLPush (key : string) (values : list string)
  | OpRPush (key : string) (values : list string)
  | OpLPop (key : string)
  | OpRPop (key : string)
  | OpSAdd (key : string) (members : list string)
  | OpSRem (key : string) (members : list string)
  | OpCleanup.

Definition apply (c : Cache) (now : Time) (op : Op) : Cache :=
  match op with
  | OpSet key val ttl => Set_ c now key val ttl
  | OpDel key => (Del c key).1
  | OpIncrBy key delta => (IncrBy c now key delta).1
  | OpExpire key ttl => (Expire c now key ttl).1
  | OpPersist key => (Persist c now key).1
  | OpHSet key field val => HSet c now key field val
  | OpHDel key field => (HDel c now key field).1
  | OpLPush key values => (LPush c now key values).1
  | OpRPush key values => (RPush c now key values).1
  | OpLPop key => (LPop c now key).1
  | OpRPop key => (RPop c now key).1
  | OpSAdd key members => (SAdd c now key members).1
  | OpSRem key members => (SRem c now key members).1
  | OpCleanup => cleanupExpired c now
  end.

(** The stores that some sequence of calls, at any instants, builds from
    the empty one. *)
Inductive reachable : Cache -> Prop :=
  | reachable_New : reachable New
  | reachable_apply (c : Cache) (now : Time) (op : Op) :
      reachable c -> reachable (apply c now op).

(** The tag of an entry names the dynamic type of its payload. *)
Definition well_typed (v : Value) : Prop :=
  match Type_ v with
  | TypeString => exists s, Data v = a_string s
  | TypeHash => exists m, Data v = a_map_string m
  | TypeList => exists l, Data v = a_strings l
  | TypeSet => exists m, Data v = a_map_bool m
  end.

Definition all_well_typed (c : Cache) : Prop :=
  forall (key : string) (v : Value), data c !! key = Some v -> well_typed v.

(** What [ttl] answers, read off an entry: the amended reading of the
    specification, with the instant of expiry itself counted as expired. *)
Definition ttl_of_entry (entry : option Value) (now : Time) : Duration :=
  match entry with
  | None => -2 * Second
  | Some v =>
      if ExpiresAt v =? 0 then -1 * Second
      else if now <? ExpiresAt v then Z.min (ExpiresAt v - now) maxInt64
      else -2 * Second
  end.

End history.

(** ** Commands and the variant they work on *)

Module typing.
Import cache protocol server.

(** The variant an opcode is defined on; [None] for the opcodes that work
    on every variant ([SET], [DEL], [EXISTS], [EXPIRE], [TTL], [PERSIST],
    [PING]) and for unknown ones. *)
Definition variant_of (t : CommandType) : option ValueType :=
  match t with
  | 0 | 4 | 5 | 6 | 7 => Some TypeString
  | 11 | 12 | 13 | 14 | 15 => Some TypeHash
  | 16 | 17 | 18 | 19 | 20 => Some TypeList
  | 21 | 22 | 23 | 24 => Some TypeSet
  | _ => None
  end.

(** The arguments the dispatcher insists on. *)
Definition min_args (t : CommandType) : nat :=
  match t with
  | 12 => 2
  | 6 | 7 | 11 | 13 | 15 | 16 | 17 | 21 | 22 | 24 => 1
  | _ => 0
  end.

(** What the dispatcher answers when the key holds a live value of another
    variant. *)
Definition wrong_type_reply (t : CommandType) : Response :=
  match t with
  | 4 | 5 | 6 | 7 => reply_error "value is not a string"
  | 0 | 11 | 18 | 19 => reply RespNil a_nil
  | 12 => reply RespOK a_nil
  | 14 | 23 => reply RespArray (a_strings [])
  | _ => reply RespInt (a_int64 0)
  end.

End typing.

(** ** Sessions: commands dispatched one after the other *)

Module session.
Import time protocol server.

(** Each command is dispatched at the instant paired with it; the replies
    come back in order. *)
Definition run (s : Server) (steps : list (Time * Command))
  : Server * list Response :=
  fold_left
    (fun '(s, replies) '(now, cmd) =>
       let '(s', r) := executeCommand s now cmd in
       (s', (replies ++ [r])%list))
    steps (s, []).

Definition Int (n : Z) : Response := reply RespInt (a_int64 n).
Definition Str (v : string) : Response := reply RespString (a_string v).
Definition Nil : Response := reply RespNil a_nil.
Definition OK : Response := reply RespOK a_nil.

End session.

(** ** Well-formed messages *)

Module wire.
Import time protocol.

(** A Go string or slice has an [int] length. *)
Definition representable (s : string) : Prop :=
  Z.of_nat (length (list_byte_of_string s)) <= maxInt64.

(** A command as the specification has it: an opcode byte, a key,
    arguments, and a TTL that is a whole, non-negative number of seconds. *)
Record WellFormedCommand (c : Command) : Prop := {
  wf_opcode : 0 <= CmdType c < 256;
  wf_key : representable (Key c);
  wf_args : Forall representable (Args c);
  wf_argc : Z.of_nat (length (Args c)) <= maxInt64;
  wf_ttl_range : 0 <= TTL c <= maxInt64;
  wf_ttl_seconds : TTL c mod Second = 0
}.

(** A response as the specification has it: one of OK, Nil,
    Error(message), Str(bytes), Int(i64), Array(list of bytes), and no
    field set beyond the ones of its variant. *)
Inductive WellFormedResponse : Response -> Prop :=
  | wf_OK : WellFormedResponse (mkResponse a_nil "" RespOK)
  | wf_Nil : WellFormedResponse (mkResponse a_nil "" RespNil)
  | wf_Error (msg : string) :
      representable msg -> WellFormedResponse (mkResponse a_nil msg RespError)
  | wf_Str (v : string) :
      representable v -> WellFormedResponse (mkResponse (a_string v) "" RespString)
  | wf_Int (n : Z) :
      is_int64 n -> WellFormedResponse (mkResponse (a_int64 n) "" RespInt)
  | wf_Array (l : list string) :
      Forall representable l -> Z.of_nat (length l) <= maxInt64 ->
      WellFormedResponse (mkResponse (a_strings l) "" RespArray).

End wire.

(** ** Routing on the ring, as the specification words it *)

Module routing.
Import hash.

(** The first position of the sorted sequence whose hash is at least [h];
    index 0 when there is none; nothing on an empty sequence. *)
Definition first_position (hashes : list Z) (h : Z) : option Z :=
  match List.find (fun x => h <=? x) hashes with
  | Some x => Some x
  | None => head hashes
  end.

(** The server stored at that position, or the empty result. *)
Definition lookup (c : ConsistentHash) (key : string) : string :=
  match first_position (sortedHashes c) (hashKey key) with
  | None => ""
  | Some position => default "" (ring c !! position)
  end.

(** Four bytes read as a big-endian number. *)
Definition big_endian_prefix (digest : list Z) : Z :=
  match digest with
  | h0 :: h1 :: h2 :: h3 :: _ => h0 * 2 ^ 24 + h1 * 2 ^ 16 + h2 * 2 ^ 8 + h3
  | _ => 0
  end.

(** The rings that calls of [AddNode] and [RemoveNode] build from a new
    one. *)
Inductive reachable : ConsistentHash -> Prop :=
  | reachable_New (virtualNodes : Z) : reachable (New virtualNodes)
  | reachable_AddNode (c : ConsistentHash) (node : string) :
      reachable c -> reachable (AddNode c node)
  | reachable_RemoveNode (c : ConsistentHash) (node : string) :
      reachable c -> reachable (RemoveNode c node).

(** The sorted array is ascending and lists exactly the hashes of the map. *)
Definition consistent (c : ConsistentHash) : Prop :=
  StronglySorted Z.le (sortedHashes c)
  /\ forall h : Z, h ∈ sortedHashes c <-> is_Some (ring c !! h).

(** [p] is the position a key of hash [h] belongs to among [hashes]: the
    least hash that is at least [h], or the least hash of all when every
    hash is below [h]. *)
Definition owner_position (hashes : list Z) (h p : Z) : Prop :=
  p ∈ hashes
  /\ ((h <= p /\ forall y, y ∈ hashes -> h <= y -> p <= y)
      \/ ((forall y, y ∈ hashes -> y < h) /\ forall y, y ∈ hashes -> p <= y)).

End routing.

(** ** package protocol: the text grammar *)

Module text.
Import time protocol.

Definition minArgsForSet : nat := 3.
Definition exactArgsForGet : nat := 2.
Definition maxArgsForSet : nat := 4.

(** [strconv.Atoi]: base 10, the size of [int]; [None] is any error. *)
Definition Atoi (s : string) : option Z := strconv.ParseInt s.

(** The body shared by [parseGetCommand], [parseDelCommand],
    [parseExistsCommand], [parseIncrCommand] and [parseDecrCommand]:
    [if len(parts) != 2 { error }; &Command{Type: t, Key: parts[1]}]. *)
Definition parseKeyCommand (name : string) (t : CommandType)
    (parts : list string) : result Command :=
  if negb (length parts =? exactArgsForGet)%nat
  then Err (name ++ " requires exactly 1 argument")
  else Ok (mkCommand (nth 1 parts "") 0 t []).

Definition parseGetCommand := parseKeyCommand "GET" CmdGet.
Definition parseDelCommand := parseKeyCommand "DEL" CmdDel.
Definition parseExistsCommand := parseKeyCommand "EXISTS" CmdExists.
Definition parseIncrCommand := parseKeyCommand "INCR" CmdIncr.
Definition parseDecrCommand := parseKeyCommand "DECR" CmdDecr.

Definition parseSetCommand (parts : list string) : result Command :=
  if (length parts <? minArgsForSet)%nat
  then Err "SET requires at least 2 arguments"
  else
    let cmd := mkCommand (nth 1 parts "") 0 CmdSet [nth 2 parts ""] in
    if (maxArgsForSet <? length parts)%nat then
      match Atoi (nth 3 parts "") with
      | Some ttl => Ok (mkCommand (Key cmd) (wrap64 (ttl * Second)) CmdSet (Args cmd))
      | None => Ok cmd
      end
    else Ok cmd.

Definition parsePingCommand : result Command := Ok (mkCommand "" 0 CmdPing []).

Section tokenizer.

(** [strings.Fields], [strings.TrimSpace] and [strings.ToUpper], which work
    on Unicode text, are taken as they come. *)
Variable Fields : string -> list string.
Variable TrimSpace : string -> string.
Variable ToUpper : string -> string.

Definition ParseTextCommand (line : string) : result Command :=
  let parts := Fields (TrimSpace line) in
  match parts with
  | [] => Err "empty command"
  | part0 :: _ =>
      let cmdStr := ToUpper part0 in
      if String.eqb cmdStr "GET" then parseGetCommand parts
      else if String.eqb cmdStr "SET" then parseSetCommand parts
      else if String.eqb cmdStr "DEL" then parseDelCommand parts
      else if String.eqb cmdStr "EXISTS" then parseExistsCommand parts
      else if String.eqb cmdStr "INCR" then parseIncrCommand parts
      else if String.eqb cmdStr "DECR" then parseDecrCommand parts
      else if String.eqb cmdStr "PING" then parsePingCommand
      else Err ("unknown command: " ++ cmdStr)
  end.

End tokenizer.

End text.

(** ** package protocol: frames on a byte stream *)

Module framing.
Import binary protocol.

Definition protocolHeaderSize : nat := 4.
Definition maxUint32Value : Z := 4294967295.
(** [1024*1024], the largest payload a reader accepts. *)
Definition maxPayload : Z := 1024 * 1024.

(** [binary.BigEndian.PutUint32] into a fresh 4-byte slice. *)
Definition PutUint32 (v : Z) : list byte :=
  [byte_of_Z (Z.shiftr v 24); byte_of_Z (Z.shiftr v 16);
   byte_of_Z (Z.shiftr v 8); byte_of_Z v].

(** [binary.BigEndian.Uint32] of a 4-byte slice. *)
Definition Uint32 (b : list byte) : Z :=
  match b with
  | [b0; b1; b2; b3] =>
      Z.lor (Z.lor (Z.lor (Z_of_byte b3) (Z.shiftl (Z_of_byte b2) 8))
               (Z.shiftl (Z_of_byte b1) 16))
        (Z.shiftl (Z_of_byte b0) 24)
  | _ => 0
  end.

(** The [io.Reader] is a finite byte stream, the bytes still to come; the
    [io.Writer] is the sequence of bytes written so far, and its [Write]
    does not fail. *)
Definition Reader := list byte.
Definition Writer := list byte.

(** [io.ReadFull(r, buf)] with [len(buf) = n]: the next [n] bytes;
    [io.EOF] when [n > 0] and nothing is left, [io.ErrUnexpectedEOF] when
    fewer than [n] bytes are left (they are consumed). *)
Definition ReadFull (r : Reader) (n : nat) : result (list byte) * Reader :=
  if (n <=? length r)%nat then (Ok (take n r), drop n r)
  else match r with
       | [] => (Err "EOF", [])
       | _ => (Err "unexpected EOF", [])
       end.

(** The body shared by [WriteCommand] and [WriteResponse], after
    [Serialize]: the writer afterwards and the error, [None] for [nil]. *)
Definition writeFrame (w : Writer) (data : list byte) : Writer * option string :=
  let dataLen := Z.of_nat (length data) in
  if maxUint32Value <? dataLen then (w, Some "data too large")
  else ((w ++ PutUint32 (wrapU32 dataLen)) ++ data, None)%list.

Definition WriteCommand (w : Writer) (cmd : Command) : Writer * option string :=
  writeFrame w (Command_Serialize cmd).

Definition WriteResponse (w : Writer) (resp : Response) : Writer * option string :=
  writeFrame w (Response_Serialize resp).

(** The body shared by [ReadCommand] and [ReadResponse] up to the call of
    the decoder; [what] is "command" or "response". *)
Definition readFrame (what : string) (r : Reader) : result (list byte) * Reader :=
  match ReadFull r protocolHeaderSize with
  | (Err e, r) => (Err e, r)
  | (Ok lengthBuf, r) =>
      let length_ := Uint32 lengthBuf in
      if maxPayload <? length_
      then (Err (what ++ " too large: " ++ strconv.FormatInt length_ ++ " bytes"), r)
      else ReadFull r (Z.to_nat length_)
  end.

Definition ReadCommand (r : Reader) : result Command * Reader :=
  match readFrame "command" r with
  | (Err e, r) => (Err e, r)
  | (Ok data, r) => (DeserializeCommand data, r)
  end.

Definition ReadResponse (r : Reader) : result Response * Reader :=
  match readFrame "response" r with
  | (Err e, r) => (Err e, r)
  | (Ok data, r) => (DeserializeResponse data, r)
  end.

(** Reading [n] commands one after the other; the first error ends it. *)
Fixpoint ReadCommands (n : nat) (r : Reader) : result (list Command) * Reader :=
  match n with
  | O => (Ok [], r)
  | S n' =>
      match ReadCommand r with
      | (Err e, r) => (Err e, r)
      | (Ok cmd, r) =>
          match ReadCommands n' r with
          | (Err e, r) => (Err e, r)
          | (Ok cmds, r) => (Ok (cmd :: cmds), r)
          end
      end
  end.

(** Writing commands one after the other; the first error ends it. *)
Definition WriteCommands (w : Writer) (cmds : list Command) : Writer * option string :=
  fold_left
    (fun '(w, err) cmd =>
       match err with
       | Some e => (w, Some e)
       | None => WriteCommand w cmd
       end)
    cmds (w, None).

End framing.

(** ** What a store holds under a key *)

Module observe.
Import time cache.

(** The list a key holds at an instant; empty when the key is missing,
    expired or holds another variant. *)
Definition list_at (c : Cache) (now : Time) (key : string) : list string :=
  match live_of c now key TypeList with
  | Some value =>
      match Data value with
      | a_strings l => l
      | _ => []
      end
  | None => []
  end.

(** The members for which [set[member]] reads [true]. *)
Definition present (set : gmap string bool) : gset string :=
  dom (filter (fun kv => kv.2 = true) set).

(** The members of the set a key holds at an instant; none when the key
    is missing, expired or holds another variant. *)
Definition members_at (c : Cache) (now : Time) (key : string) : gset string :=
  match live_of c now key TypeSet with
  | Some value =>
      match Data value with
      | a_map_bool set => present set
      | _ => ∅
      end
  | None => ∅
  end.

(** A key that an operation on the variant [t] can work on: missing or
    expired, or holding a live value of that variant. *)
Definition usable_as (c : Cache) (now : Time) (key : string) (t : ValueType)
  : Prop :=
  live c now key = None
  \/ exists value, live c now key = Some value /\ Type_ value = t.

End observe.

(** ** The shape of a response *)

Module shape.
Import protocol.

(** A response that carries the payload of its variant and nothing else. *)
Inductive ResponseShape : Response -> Prop :=
  | shape_OK : ResponseShape (mkResponse a_nil "" RespOK)
  | shape_Nil : ResponseShape (mkResponse a_nil "" RespNil)
  | shape_Error (msg : string) : ResponseShape (mkResponse a_nil msg RespError)
  | shape_Str (v : string) : ResponseShape (mkResponse (a_string v) "" RespString)
  | shape_Int (n : Z) : ResponseShape (mkResponse (a_int64 n) "" RespInt)
  | shape_Array (l : list string) :
      ResponseShape (mkResponse (a_strings l) "" RespArray).

End shape.

(** ** What the dispatcher asks of a command *)

Module arity.
Import protocol.

(** The arguments a handler reads: it answers an error when the command
    carries fewer. *)
Definition required_args (t : CommandType) : nat :=
  match t with
  | 12 => 2
  | 1 | 6 | 7 | 11 | 13 | 15 | 16 | 17 | 21 | 22 | 24 => 1
  | _ => 0
  end.

(** The opcodes of the handler table. *)
Definition known (t : CommandType) : bool := (0 <=? t) && (t <=? 25).

(** The opcodes whose handler only reads the store. *)
Definition read_only (t : CommandType) : bool :=
  match t with
  | 0 | 3 | 9 | 11 | 14 | 15 | 20 | 23 | 24 | 25 => true
  | _ => false
  end.

(** The four counter opcodes. *)
Definition counter (t : CommandType) : bool :=
  match t with
  | 4 | 5 | 6 | 7 => true
  | _ => false
  end.

End arity.

(** ** Servers and positions of a ring *)

Module membership.
Import hash.

(** The hashes of the virtual positions [AddNode] gives a server. *)
Definition virtual_hashes (c : ConsistentHash) (node : string) : list Z :=
  (fun i => hashKey (virtualKey node i)) <$> seqZ 0 (virtualNodes c).

(** Every position of the map belongs to a current server and is one of
    its virtual positions; the server set only holds [true]. *)
Definition owned (c : ConsistentHash) : Prop :=
  (forall (h : Z) (node : string),
      ring c !! h = Some node ->
      has_node c node = true /\ h ∈ virtual_hashes c node)
  /\ forall (node : string) (b : bool), nodes c !! node = Some b -> b = true.

End membership.

(** * Properties *)

(** ** Machine integers and decimal text *)

Lemma wrap64_small (z : Z) : is_int64 z -> wrap64 z = z.
Proof.
  unfold is_int64, minInt64, maxInt64, wrap64. intros H.
  rewrite Z.mod_small; lia.
Qed.

Lemma wrap64_range (z : Z) : is_int64 (wrap64 z).
Proof.
  unfold is_int64, minInt64, maxInt64, wrap64.
  pose proof (Z.mod_pos_bound (z + 2 ^ 63) (2 ^ 64) ltac:(lia)). lia.
Qed.

Lemma wrapU64_small (z : Z) : is_uint64 z -> wrapU64 z = z.
Proof.
  unfold is_uint64, maxUint64, wrapU64. intros H.
  rewrite Z.mod_small; lia.
Qed.

Section decimal.
Import strconv.

Lemma digit_char_spec (d : Z) :
  0 <= d < 10 -> is_digit (digit_char d) = true /\ digit_val (digit_char d) = d.
Proof.
  intros Hd. unfold is_digit, digit_val, digit_char.
  rewrite N_ascii_embedding by lia.
  rewrite Z2N.id by lia. split; [| lia].
  apply andb_true_iff. split; apply Z.leb_le; lia.
Qed.

Lemma digit_char_not_sign (d : Z) :
  0 <= d < 10 ->
  Ascii.eqb (digit_char d) "-" = false /\ Ascii.eqb (digit_char d) "+" = false.
Proof.
  intros Hd.
  assert (Hc : d = 0 \/ d = 1 \/ d = 2 \/ d = 3 \/ d = 4 \/ d = 5 \/ d = 6
               \/ d = 7 \/ d = 8 \/ d = 9) by lia.
  repeat (destruct Hc as [-> | Hc]; [split; reflexivity |]).
  subst d. split; reflexivity.
Qed.

Lemma parse_digits_step (n d : Z) (rest : string) :
  0 <= d < 10 -> 0 <= n -> n * 10 + d <= maxUint64 ->
  parse_digits n (String (digit_char d) rest) = parse_digits (n * 10 + d) rest.
Proof.
  intros Hd Hn Hmax. cbn [parse_digits].
  destruct (digit_char_spec d Hd) as [-> ->]. cbn [negb].
  unfold maxUint64 in *.
  destruct (Z.leb_spec (18446744073709551615 / 10 + 1) n) as [Hle | _].
  { change (18446744073709551615 / 10 + 1) with 1844674407370955162 in Hle. lia. }
  destruct (Z.ltb_spec 18446744073709551615 (n * 10 + d)); [lia | reflexivity].
Qed.

(** Parsing the digits that [formatBits] writes gives the number back. *)
Lemma parse_formatBits (fuel : nat) :
  forall (u : Z) (acc : string),
    0 <= u <= maxUint64 -> u < 10 ^ Z.of_nat fuel ->
    parse_digits 0 (formatBits fuel u acc) = parse_digits u acc.
Proof.
  induction fuel as [| fuel IH]; intros u acc Hu Hfuel.
  - cbn [formatBits]. change (10 ^ Z.of_nat 0) with 1 in Hfuel.
    replace u with 0 by lia. reflexivity.
  - cbn [formatBits]. destruct (Z.ltb_spec u 10) as [Hlt | Hge].
    + rewrite parse_digits_step by (unfold maxUint64 in *; lia).
      reflexivity.
    + assert (Hdm : u = 10 * (u / 10) + u mod 10) by (apply Z.div_mod; lia).
      pose proof (Z.mod_pos_bound u 10 ltac:(lia)) as Hm.
      rewrite IH.
      * rewrite parse_digits_step by (unfold maxUint64 in *; lia).
        f_equal. lia.
      * unfold maxUint64 in *. lia.
      * rewrite Nat2Z.inj_succ, Z.pow_succ_r in Hfuel by lia.
        apply Z.div_lt_upper_bound; lia.
Qed.

Lemma formatBits_head (fuel : nat) :
  forall (u : Z) (acc : string),
    0 <= u ->
    exists d rest, 0 <= d < 10 /\ formatBits (S fuel) u acc = String (digit_char d) rest.
Proof.
  induction fuel as [| fuel IH]; intros u acc Hu.
  - cbn [formatBits]. destruct (Z.ltb_spec u 10).
    + exists u, acc. split; [lia | reflexivity].
    + exists (u mod 10), acc. split; [| reflexivity].
      apply Z.mod_pos_bound. lia.
  - change (formatBits (S (S fuel)) u acc)
      with (if u <? 10 then String (digit_char u) acc
            else formatBits (S fuel) (u / 10) (String (digit_char (u mod 10)) acc)).
    destruct (Z.ltb_spec u 10).
    + exists u, acc. split; [lia | reflexivity].
    + apply IH. apply Z.div_pos; lia.
Qed.

Lemma ParseUint_formatBits (u : Z) :
  0 <= u <= maxUint64 -> ParseUint (formatBits 20 u "") = Some u.
Proof.
  intros Hu.
  destruct (formatBits_head 19 u "" ltac:(lia)) as (d & rest & Hd & Heq).
  unfold ParseUint. rewrite Heq. rewrite <- Heq.
  rewrite parse_formatBits; [reflexivity | exact Hu |].
  unfold maxUint64 in Hu. change (10 ^ Z.of_nat 20) with 100000000000000000000. lia.
Qed.

(** [ParseInt] reads back what [FormatInt] writes. *)
Lemma ParseInt_FormatInt (i : Z) :
  is_int64 i -> ParseInt (FormatInt i) = Some i.
Proof.
  intros Hi. unfold FormatInt.
  destruct (Z.ltb_spec i 0) as [Hneg | Hpos].
  - assert (Hu : 0 <= - i <= maxUint64)
      by (unfold is_int64, minInt64, maxInt64, maxUint64 in *; lia).
    rewrite (wrapU64_small (- i)) by exact Hu.
    unfold ParseInt. change (Ascii.eqb "-" "-") with true.
    change (Ascii.eqb "-" "+") with false. cbn [orb].
    rewrite ParseUint_formatBits by exact Hu.
    cbn [negb andb].
    destruct (Z.ltb_spec (2 ^ 63) (- i)) as [Hbig | _].
    { unfold is_int64, minInt64 in Hi. lia. }
    f_equal.
    destruct (Z.eq_dec i minInt64) as [-> | Hne]; [reflexivity |].
    rewrite (wrap64_small (- i))
      by (unfold is_int64, minInt64, maxInt64 in *; lia).
    rewrite Z.opp_involutive. apply wrap64_small, Hi.
  - assert (Hu : 0 <= i <= maxUint64)
      by (unfold is_int64, minInt64, maxInt64, maxUint64 in *; lia).
    rewrite (wrapU64_small i) by exact Hu.
    destruct (formatBits_head 19 i "" ltac:(lia)) as (d & rest & Hd & Heq).
    pose proof (ParseUint_formatBits i Hu) as Hparse.
    rewrite Heq in *. unfold ParseInt.
    destruct (digit_char_not_sign d Hd) as [-> ->]. cbn [orb].
    rewrite Hparse. cbn [negb andb].
    destruct (Z.leb_spec (2 ^ 63) i) as [Hbig | _].
    { unfold is_int64, maxInt64 in Hi. lia. }
    f_equal. apply wrap64_small, Hi.
Qed.

Lemma ParseInt_range (s : string) (z : Z) : ParseInt s = Some z -> is_int64 z.
Proof.
  unfold ParseInt. destruct s as [| c rest]; [discriminate |].
  destruct (ParseUint _) as [un |]; [| discriminate].
  destruct (_ && _); [discriminate |].
  destruct (_ && _); [discriminate |].
  intros [= <-]. destruct (Ascii.eqb c "-"); apply wrap64_range.
Qed.

End decimal.

(** ** The store *)

Section store.
Import time cache history.

Lemma lpush_loop_app (values list_ : list string) :
  lpush_loop values list_ = (values ++ list_)%list.
Proof.
  unfold lpush_loop.
  induction values as [| v values IH]; [reflexivity |].
  cbn [rev]. rewrite fold_left_app, IH. reflexivity.
Qed.

Lemma live_Some (c : Cache) (now : Time) (key : string) (v : Value) :
  live c now key = Some v <-> data c !! key = Some v /\ isExpired now v = false.
Proof.
  unfold live. destruct (data c !! key) as [w |] eqn:Hk.
  - destruct (isExpired now w) eqn:He; split.
    + discriminate.
    + intros [[= ->] H]. congruence.
    + intros [= ->]. auto.
    + intros [[= ->] _]. reflexivity.
  - split; [discriminate | intros [H _]; discriminate].
Qed.

Lemma live_None (c : Cache) (now : Time) (key : string) :
  live c now key = None <->
  data c !! key = None \/ exists v, data c !! key = Some v /\ isExpired now v = true.
Proof.
  unfold live. destruct (data c !! key) as [w |] eqn:Hk.
  - destruct (isExpired now w) eqn:He; split.
    + intros _. right. eauto.
    + reflexivity.
    + discriminate.
    + intros [H | (v & [= ->] & H)]; congruence.
  - split; auto.
Qed.

Lemma store_store (c : Cache) (key : string) (v w : Value) :
  store (store c key v) key w = store c key w.
Proof. unfold store. cbn [data]. by rewrite insert_insert_eq. Qed.

Lemma LPush_absent (c : Cache) (now : Time) (key : string) (values : list string) :
  live c now key = None ->
  LPush c now key values =
    (store c key (mkValue (a_strings values) zero TypeList), length values).
Proof.
  intros Hl. unfold LPush, open_or_create. rewrite Hl. cbn [Data set_Data].
  rewrite lpush_loop_app, app_nil_r, store_store. reflexivity.
Qed.

End store.

Section store_claims.
Import time history protocol server session cache.

(** C1.  The code at the input of the claim: [LPUSH q "1" "2" "3"] on an
    empty store answers Int(3) and leaves the list in the order of the
    arguments, so the following [LPOP q] answers Str("1"), the first
    argument, and not Str("3") as the claim and the comment of [LPush]
    say. *)
Theorem C1_lpush_then_lpop_answers_first_argument :
  forall t1 t2 : Time,
    (run server.New
       [(t1, mkCommand "q" 0 CmdLPush ["1"; "2"; "3"]);
        (t2, mkCommand "q" 0 CmdLPop [])]).2
    = [Int 3; Str "1"].
Proof. intros t1 t2. vm_compute. reflexivity. Qed.

(** C9.  [incrBy(k, d)] on a store where [k] is absent or expired creates
    [k] as a String holding the decimal text of [d] (text that reads back
    as [d]), with no expiration, touches no other key and returns [d];
    three [INCR counter] on an empty store answer Int(1), Int(2), Int(3)
    and the following [DECR counter] answers Int(2). *)
Theorem C9_incrby_creates_counter
    (c : Cache) (now : Time) (key : string) (delta : Z) :
  is_int64 delta ->
  (data c !! key = None
   \/ exists v, data c !! key = Some v /\ isExpired now v = true) ->
  (let '(c', r) := IncrBy c now key delta in
   r = (delta, None)
   /\ data c' !! key
      = Some (mkValue (a_string (strconv.FormatInt delta)) zero TypeString)
   /\ strconv.ParseInt (strconv.FormatInt delta) = Some delta
   /\ forall k, k <> key -> data c' !! k = data c !! k)
  /\ forall t1 t2 t3 t4 : Time,
      (run server.New
         [(t1, mkCommand "counter" 0 CmdIncr []);
          (t2, mkCommand "counter" 0 CmdIncr []);
          (t3, mkCommand "counter" 0 CmdIncr []);
          (t4, mkCommand "counter" 0 CmdDecr [])]).2
      = [Int 1; Int 2; Int 3; Int 2].
Proof.
  intros Hd Habs. split.
  - apply live_None in Habs. unfold IncrBy. rewrite Habs.
    repeat split.
    + cbn [store data]. apply lookup_insert_eq.
    + apply ParseInt_FormatInt, Hd.
    + intros k Hk. cbn [store data]. by apply lookup_insert_ne.
  - intros t1 t2 t3 t4. vm_compute. reflexivity.
Qed.

Lemma C9_incrby_creates_counter_witness :
  let '(c', r) := IncrBy cache.New 7 "visits" 5 in
  r = (5, None)
  /\ data c' !! "visits" = Some (mkValue (a_string "5") zero TypeString).
Proof.
  destruct (C9_incrby_creates_counter cache.New 7 "visits" 5) as [H _].
  - unfold is_int64, minInt64, maxInt64. lia.
  - left. reflexivity.
  - destruct (IncrBy cache.New 7 "visits" 5) as [c' r].
    destruct H as (Hr & Hc & _ & _). split; [exact Hr | exact Hc].
Defined.

(** C7, the claim as stated fails: [expire(k, 0)] on a live key stores the
    current instant as the expiration, so [ttl] does not report the
    no-expiration sentinel and the key is absent one nanosecond later. *)
Lemma C7_expire_zero_counterexample :
  let c0 := Set_ cache.New 100 "k" "v" 0 in
  let '(c1, ok) := Expire c0 100 "k" 0 in
  Exists c0 100 "k" = true
  /\ ok = true
  /\ TTL c1 100 "k" = -2 * Second
  /\ TTL c1 100 "k" <> -1 * Second
  /\ Exists c1 101 "k" = false.
Proof. vm_compute. repeat split; congruence. Qed.

(** C7, amended.  After [set(k, v, 0)] the key has no expiration: at every
    instant it exists, reads back [v], and [ttl(k)] is the -1s sentinel.
    [expire(k, 0)] on a live key stores the instant of the call as the
    expiration: the call succeeds, [ttl(k)] reports -2s from that instant
    on, and the key is absent at every later instant. *)
Theorem C7_zero_ttl_set_permanent_expire_immediate
    (c : Cache) (now : Time) (key val : string) :
  (forall t : Time,
      let c' := Set_ c now key val 0 in
      Exists c' t key = true
      /\ Get c' t key = (val, true)
      /\ TTL c' t key = -1 * Second)
  /\ (forall v : Value,
        0 < now -> live c now key = Some v ->
        let '(c', ok) := Expire c now key 0 in
        ok = true
        /\ data c' !! key = Some (set_ExpiresAt v now)
        /\ TTL c' now key = -2 * Second
        /\ forall t : Time,
            now < t -> Exists c' t key = false /\ TTL c' t key = -2 * Second).
Proof.
  split.
  - intros t. cbn zeta. unfold Set_. cbn [Z.ltb Z.compare].
    unfold Exists, Get, TTL, live, store. cbn [data].
    rewrite lookup_insert_eq. cbn. done.
  - intros v Hnow Hlive. unfold Expire. rewrite Hlive.
    unfold Add. rewrite Z.add_0_r.
    assert (Hk : data (store c key (set_ExpiresAt v now)) !! key
                 = Some (set_ExpiresAt v now))
      by (cbn [store data]; apply lookup_insert_eq).
    split; [reflexivity |]. split; [exact Hk |].
    assert (Hz : IsZero now = false) by (unfold IsZero; apply Z.eqb_neq; lia).
    split.
    + unfold TTL, live. rewrite Hk.
      unfold isExpired, After. cbn [ExpiresAt set_ExpiresAt].
      rewrite Hz, Z.ltb_irrefl. cbn [negb andb].
      cbn [ExpiresAt set_ExpiresAt]. rewrite Hz.
      unfold Until, Sub. rewrite Z.sub_diag. reflexivity.
    + intros t Ht.
      assert (He : isExpired t (set_ExpiresAt v now) = true).
      { unfold isExpired, After. cbn [ExpiresAt set_ExpiresAt].
        rewrite Hz. cbn [negb andb]. apply Z.ltb_lt, Ht. }
      unfold Exists, TTL, live. rewrite Hk, He. done.
Qed.

Lemma C7_zero_ttl_set_permanent_expire_immediate_witness :
  let c := Set_ cache.New 50 "k" "v" 0 in
  let '(c', ok) := Expire c 60 "k" 0 in
  ok = true /\ TTL c' 60 "k" = -2 * Second /\ Exists c' 61 "k" = false.
Proof.
  pose proof (C7_zero_ttl_set_permanent_expire_immediate
                (Set_ cache.New 50 "k" "v" 0) 60 "k" "v") as [_ H].
  specialize (H (mkValue (a_string "v") zero TypeString)
                ltac:(lia) ltac:(reflexivity)).
  cbn zeta. destruct (Expire (Set_ cache.New 50 "k" "v" 0) 60 "k" 0) as [c' ok].
  destruct H as (Hok & _ & Httl & Hlater).
  split; [exact Hok |]. split; [exact Httl |].
  apply (Hlater 61). lia.
Defined.

(** C8, the claim as stated fails at the instant of expiry: a key set with
    a TTL of one second is, exactly one second later, still live ([exists]
    answers true, EXISTS answers Int(1)) and has an expiration, the
    remaining time is zero, and [ttl] answers the -2s sentinel of an absent
    key (TTL answers Int(-2)). *)
Lemma C8_ttl_at_expiry_counterexample :
  let c := Set_ cache.New 5000000000 "k" "v" (1 * Second) in
  Exists c 6000000000 "k" = true
  /\ (exists v, data c !! "k" = Some v
                /\ ExpiresAt v = 6000000000
                /\ Until 6000000000 (ExpiresAt v) = 0)
  /\ cache.TTL c 6000000000 "k" = -2 * Second
  /\ cache.TTL c 6000000000 "k" <> 0
  /\ (run server.New
        [(5000000000, mkCommand "k" (1 * Second) CmdSet ["v"]);
         (6000000000, mkCommand "k" 0 CmdExists []);
         (6000000000, mkCommand "k" 0 CmdTTL [])]).2
     = [OK; Int 1; Int (-2)].
Proof.
  cbn zeta. split; [reflexivity |]. split.
  - eexists. split; [reflexivity |]. split; reflexivity.
  - split; [reflexivity |]. split; [discriminate |]. vm_compute. reflexivity.
Qed.

(** C8, amended.  [ttl(k)] is the remaining time (at most the largest
    duration) when the key is present and its expiration is strictly in
    the future; -1s when the key is present with no expiration; -2s when
    the key is absent or its expiration is at or before the current
    instant.  The TTL command answers that duration in whole seconds, so
    Int(-2) and Int(-1) for the sentinels; in the scenario of the
    specification the key set with a TTL of 1s reads back within 500 ms
    and, 1200 ms after the set, GET answers Nil and TTL answers Int(-2).
    The whole seconds are [int64(ttl.Seconds())], the float64 number of
    seconds without its fraction: a key set with a TTL of one year answers
    Int(31536000) one nanosecond later. *)
Theorem C8_ttl_remaining_or_sentinel
    (c : Cache) (now : Time) (key : string) (ttl : Duration) (args : list string) :
  cache.TTL c now key = ttl_of_entry (data c !! key) now
  /\ executeCommand (mkServer c) now (mkCommand key ttl CmdTTL args)
     = (mkServer c, Int (Seconds_int64 (ttl_of_entry (data c !! key) now)))
  /\ Seconds_int64 (-2 * Second) = -2
  /\ Seconds_int64 (-1 * Second) = -1
  /\ (run server.New
        [(5000000000, mkCommand "greeting" (1 * Second) CmdSet ["hi"]);
         (5400000000, mkCommand "greeting" 0 CmdGet []);
         (6200000000, mkCommand "greeting" 0 CmdGet []);
         (6200000000, mkCommand "greeting" 0 CmdTTL [])]).2
     = [OK; Str "hi"; Nil; Int (-2)]
  /\ (run server.New
        [(5000000000, mkCommand "k" (31536000 * Second) CmdSet ["v"]);
         (5000000001, mkCommand "k" 0 CmdTTL [])]).2
     = [OK; Int 31536000].
Proof.
  assert (Httl : cache.TTL c now key = ttl_of_entry (data c !! key) now).
  { unfold cache.TTL, live, ttl_of_entry.
    destruct (data c !! key) as [v |]; [| reflexivity].
    destruct (isExpired now v) eqn:He;
      unfold isExpired, IsZero, After in He; unfold IsZero, Until, Sub;
      destruct (Z.eqb_spec (ExpiresAt v) 0) as [Hz | Hnz];
      cbn [negb andb] in He; try discriminate He; try reflexivity.
    - apply Z.ltb_lt in He.
      destruct (Z.ltb_spec now (ExpiresAt v)); [lia | reflexivity].
    - apply Z.ltb_ge in He. unfold minInt64, maxInt64.
      destruct (Z.ltb_spec now (ExpiresAt v)) as [Hfut | Heq].
      + match goal with
        | |- context [?r <=? 0] => destruct (Z.leb_spec r 0)
        end; lia.
      + replace (ExpiresAt v - now) with 0 by lia. reflexivity. }
  split; [exact Httl |]. split.
  - unfold executeCommand, handleTTL. cbn [CmdType Key server.cache].
    rewrite Httl. reflexivity.
  - repeat split; vm_compute; reflexivity.
Qed.

End store_claims.

(** ** The type tag of every stored entry *)

Section tag_invariant.
Import time history cache.

Lemma ValueType_eqb_eq (a b : ValueType) : ValueType_eqb a b = true <-> a = b.
Proof. destruct a, b; cbn; split; congruence. Qed.

Lemma all_well_typed_store (c : Cache) (key : string) (v : Value) :
  all_well_typed c -> well_typed v -> all_well_typed (store c key v).
Proof.
  intros Hc Hv k w. cbn [store data].
  destruct (decide (key = k)) as [-> | Hne].
  - rewrite lookup_insert_eq. intros [= <-]. exact Hv.
  - rewrite lookup_insert_ne by exact Hne. apply Hc.
Qed.

Lemma all_well_typed_delete (c : Cache) (key : string) :
  all_well_typed c -> all_well_typed (mkCache (delete key (data c))).
Proof.
  intros Hc k w. cbn [data]. intros Hk.
  apply lookup_delete_Some in Hk as [_ Hk]. exact (Hc _ _ Hk).
Qed.

Lemma all_well_typed_cleanup (c : Cache) (now : Time) :
  all_well_typed c -> all_well_typed (cleanupExpired c now).
Proof.
  intros Hc k w. unfold cleanupExpired. cbn [data]. intros Hk.
  apply map_lookup_filter_Some in Hk as [Hk _]. exact (Hc _ _ Hk).
Qed.

Lemma live_well_typed (c : Cache) (now : Time) (key : string) (v : Value) :
  all_well_typed c -> live c now key = Some v -> well_typed v.
Proof. intros Hc Hl. apply live_Some in Hl as [Hk _]. exact (Hc _ _ Hk). Qed.

(** Replacing the payload by one of the dynamic type the tag names. *)
Lemma well_typed_set_Data (v : Value) (t : ValueType) (d : any) :
  ValueType_eqb (Type_ v) t = true ->
  well_typed (mkValue d zero t) -> well_typed (set_Data v d).
Proof.
  intros Ht%ValueType_eqb_eq Hd. unfold well_typed in *.
  cbn [Type_ Data set_Data] in *. rewrite Ht. exact Hd.
Qed.

Lemma well_typed_set_ExpiresAt (v : Value) (t : Time) :
  well_typed v -> well_typed (set_ExpiresAt v t).
Proof. unfold well_typed. cbn [Type_ Data set_ExpiresAt]. auto. Qed.

Local Ltac fresh_typed :=
  unfold well_typed; cbn [Type_ Data set_ExpiresAt set_Data]; eauto.

(** The entry an operation goes on with, after the shared preamble. *)
Lemma open_or_create_typed (c c1 : Cache) (now : Time) (key : string)
    (t : ValueType) (empty : any) (value : Value) :
  all_well_typed c -> well_typed (mkValue empty zero t) ->
  open_or_create c now key t empty = Some (c1, value) ->
  all_well_typed c1 /\ well_typed value /\ ValueType_eqb (Type_ value) t = true.
Proof.
  intros Hc He. unfold open_or_create.
  destruct (live c now key) as [v |] eqn:Hl.
  - destruct (ValueType_eqb (Type_ v) t) eqn:Ht; cbn [negb]; [| discriminate].
    intros [= <- <-]. split; [exact Hc |].
    split; [exact (live_well_typed _ _ _ _ Hc Hl) | exact Ht].
  - intros [= <- <-]. split; [by apply all_well_typed_store |].
    split; [exact He |]. cbn [Type_]. by apply ValueType_eqb_eq.
Qed.

Lemma live_of_typed (c : Cache) (now : Time) (key : string)
    (t : ValueType) (value : Value) :
  all_well_typed c -> live_of c now key t = Some value ->
  well_typed value /\ ValueType_eqb (Type_ value) t = true.
Proof.
  intros Hc. unfold live_of.
  destruct (live c now key) as [v |] eqn:Hl; [| discriminate].
  destruct (ValueType_eqb (Type_ v) t) eqn:Ht; cbn [negb]; [| discriminate].
  intros [= <-]. split; [exact (live_well_typed _ _ _ _ Hc Hl) | exact Ht].
Qed.

Lemma apply_well_typed (c : Cache) (now : Time) (op : Op) :
  all_well_typed c -> all_well_typed (apply c now op).
Proof.
  intros Hc. destruct op; cbn [apply].
  - (* Set *)
    unfold Set_. apply all_well_typed_store; [exact Hc |].
    destruct (0 <? ttl); fresh_typed.
  - (* Del *)
    unfold Del. destruct (data c !! key); cbn [fst]; [| exact Hc].
    by apply all_well_typed_delete.
  - (* IncrBy *)
    unfold IncrBy. destruct (live c now key) as [v |] eqn:Hl; cbn [fst].
    + destruct (ValueType_eqb (Type_ v) TypeString) eqn:Ht; cbn [negb fst];
        [| exact Hc].
      destruct (Data v); cbn [fst]; try exact Hc.
      destruct (strconv.ParseInt s); cbn [fst]; [| exact Hc].
      apply all_well_typed_store; [exact Hc |].
      eapply well_typed_set_Data; [exact Ht | fresh_typed].
    + apply all_well_typed_store; [exact Hc | fresh_typed].
  - (* Expire *)
    unfold Expire. destruct (live c now key) as [v |] eqn:Hl; cbn [fst];
      [| exact Hc].
    apply all_well_typed_store; [exact Hc |].
    eauto using well_typed_set_ExpiresAt, live_well_typed.
  - (* Persist *)
    unfold Persist. destruct (live c now key) as [v |] eqn:Hl; cbn [fst];
      [| exact Hc].
    apply all_well_typed_store; [exact Hc |].
    eauto using well_typed_set_ExpiresAt, live_well_typed.
  - (* HSet *)
    unfold HSet.
    destruct (open_or_create c now key TypeHash (a_map_string ∅))
      as [[c1 value] |] eqn:Ho; [| exact Hc].
    apply open_or_create_typed in Ho as (Hc1 & Hv & Ht);
      [| exact Hc | fresh_typed].
    destruct (Data value); try exact Hc1.
    apply all_well_typed_store; [exact Hc1 |].
    eapply well_typed_set_Data; [exact Ht | fresh_typed].
  - (* HDel *)
    unfold HDel. destruct (live_of c now key TypeHash) as [value |] eqn:Hl;
      cbn [fst]; [| exact Hc].
    apply live_of_typed in Hl as [Hv Ht]; [| exact Hc].
    destruct (Data value); cbn [fst]; try exact Hc.
    destruct (m !! field); cbn [fst]; [| exact Hc].
    apply all_well_typed_store; [exact Hc |].
    eapply well_typed_set_Data; [exact Ht | fresh_typed].
  - (* LPush *)
    unfold LPush.
    destruct (open_or_create c now key TypeList (a_strings []))
      as [[c1 value] |] eqn:Ho; cbn [fst]; [| exact Hc].
    apply open_or_create_typed in Ho as (Hc1 & Hv & Ht);
      [| exact Hc | fresh_typed].
    destruct (Data value); cbn [fst]; try exact Hc1.
    apply all_well_typed_store; [exact Hc1 |].
    eapply well_typed_set_Data; [exact Ht | fresh_typed].
  - (* RPush *)
    unfold RPush.
    destruct (open_or_create c now key TypeList (a_strings []))
      as [[c1 value] |] eqn:Ho; cbn [fst]; [| exact Hc].
    apply open_or_create_typed in Ho as (Hc1 & Hv & Ht);
      [| exact Hc | fresh_typed].
    destruct (Data value); cbn [fst]; try exact Hc1.
    apply all_well_typed_store; [exact Hc1 |].
    eapply well_typed_set_Data; [exact Ht | fresh_typed].
  - (* LPop *)
    unfold LPop. destruct (live_of c now key TypeList) as [value |] eqn:Hl;
      cbn [fst]; [| exact Hc].
    apply live_of_typed in Hl as [Hv Ht]; [| exact Hc].
    destruct (Data value) as [| | | l | |]; cbn [fst]; try exact Hc.
    destruct l; cbn [fst]; [exact Hc |].
    apply all_well_typed_store; [exact Hc |].
    eapply well_typed_set_Data; [exact Ht | fresh_typed].
  - (* RPop *)
    unfold RPop. destruct (live_of c now key TypeList) as [value |] eqn:Hl;
      cbn [fst]; [| exact Hc].
    apply live_of_typed in Hl as [Hv Ht]; [| exact Hc].
    destruct (Data value) as [| | | l | |]; cbn [fst]; try exact Hc.
    destruct (last l); cbn [fst]; [| exact Hc].
    apply all_well_typed_store; [exact Hc |].
    eapply well_typed_set_Data; [exact Ht | fresh_typed].
  - (* SAdd *)
    unfold SAdd.
    destruct (open_or_create c now key TypeSet (a_map_bool ∅))
      as [[c1 value] |] eqn:Ho; cbn [fst]; [| exact Hc].
    apply open_or_create_typed in Ho as (Hc1 & Hv & Ht);
      [| exact Hc | fresh_typed].
    destruct (Data value); cbn [fst]; try exact Hc1.
    destruct (sadd_loop members m) as [set added]. cbn [fst].
    apply all_well_typed_store; [exact Hc1 |].
    eapply well_typed_set_Data; [exact Ht | fresh_typed].
  - (* SRem *)
    unfold SRem. destruct (live_of c now key TypeSet) as [value |] eqn:Hl;
      cbn [fst]; [| exact Hc].
    apply live_of_typed in Hl as [Hv Ht]; [| exact Hc].
    destruct (Data value); cbn [fst]; try exact Hc.
    destruct (srem_loop members m) as [set removed]. cbn [fst].
    apply all_well_typed_store; [exact Hc |].
    eapply well_typed_set_Data; [exact Ht | fresh_typed].
  - (* the reaper *)
    by apply all_well_typed_cleanup.
Qed.

(** C10.  In every store reachable from the empty one, the tag of each
    entry names the dynamic type of its payload: a TypeString entry holds
    a string, a TypeHash entry a map from string to string, a TypeList
    entry a slice of strings and a TypeSet entry a map from string to
    bool.  So the type assertion an operation makes after it has tested
    the tag succeeds, and its failure branch is never taken. *)
Theorem C10_reachable_entries_are_well_typed (c : Cache) :
  reachable c ->
  forall (key : string) (v : Value),
    data c !! key = Some v ->
    match Type_ v with
    | TypeString => exists s, Data v = a_string s
    | TypeHash => exists m, Data v = a_map_string m
    | TypeList => exists l, Data v = a_strings l
    | TypeSet => exists m, Data v = a_map_bool m
    end.
Proof.
  intros Hr. change (all_well_typed c).
  induction Hr as [| c now op _ IH].
  - intros key v. unfold New. cbn [data]. rewrite lookup_empty. discriminate.
  - by apply apply_well_typed.
Qed.

Lemma C10_reachable_entries_are_well_typed_witness :
  exists l, a_strings ["b"; "a"] = a_strings l.
Proof.
  exact (C10_reachable_entries_are_well_typed
           (apply (apply New 1 (OpRPush "q" ["b"])) 2 (OpRPush "q" ["a"]))
           (reachable_apply _ _ _ (reachable_apply _ _ _ reachable_New))
           "q" (mkValue (a_strings ["b"; "a"]) zero TypeList) eq_refl).
Defined.

End tag_invariant.

(** ** The dispatcher on a key of another variant *)

Section type_isolation.
Import time history protocol server session typing cache.

Variables (c : Cache) (now : Time) (key : string) (v : Value) (t : ValueType).
Hypothesis Hkey : data c !! key = Some v.
Hypothesis Hlive : isExpired now v = false.
Hypothesis Hother : Type_ v <> t.

Lemma mismatch_eqb : ValueType_eqb (Type_ v) t = false.
Proof.
  destruct (ValueType_eqb (Type_ v) t) eqn:E; [| reflexivity].
  apply ValueType_eqb_eq in E. contradiction.
Qed.

Lemma live_here : live c now key = Some v.
Proof. apply live_Some. auto. Qed.

Lemma live_of_mismatch : live_of c now key t = None.
Proof. unfold live_of. rewrite live_here, mismatch_eqb. reflexivity. Qed.

Lemma open_or_create_mismatch (empty : any) :
  open_or_create c now key t empty = None.
Proof. unfold open_or_create. rewrite live_here, mismatch_eqb. reflexivity. Qed.

End type_isolation.

Section dispatcher_claims.
Import time history protocol server session typing cache.

(** C2, the claim as stated fails: [HSET] on a key that holds a List
    answers OK, not an error, and [LPUSH] on a key that holds a Hash
    answers Int(0). *)
Lemma C2_hset_on_list_counterexample :
  (run server.New
     [(10, mkCommand "q" 0 CmdRPush ["a"]);
      (20, mkCommand "q" 0 CmdHSet ["f"; "x"]);
      (30, mkCommand "h" 0 CmdHSet ["f"; "x"]);
      (40, mkCommand "h" 0 CmdLPush ["a"])]).2
  = [Int 1; OK; OK; Int 0]
  /\ RespType OK <> RespError
  /\ RespType (Int 0) <> RespError.
Proof. split; [vm_compute; reflexivity |]. split; discriminate. Qed.

(** C2, amended.  For every operation defined on one variant, applied
    with the arguments it requires to a key that holds a live value of
    another variant, the store is left unchanged.  Only the counter
    operations (INCR, DECR, INCRBY, DECRBY) answer with the type error
    Error("value is not a string"); the others answer as for an empty
    value: Nil for GET, HGET, LPOP, RPOP; OK for HSET; an empty Array for
    HGETALL, SMEMBERS; Int(0) for HDEL, HEXISTS, LPUSH, RPUSH, LLEN, SADD,
    SREM, SISMEMBER. *)
Theorem C2_wrong_variant_leaves_store_unchanged
    (s : Server) (now : Time) (cmd : Command) (v : Value) (t : ValueType) :
  data (server.cache s) !! Key cmd = Some v ->
  isExpired now v = false ->
  variant_of (CmdType cmd) = Some t ->
  Type_ v <> t ->
  (min_args (CmdType cmd) <= length (Args cmd))%nat ->
  executeCommand s now cmd = (s, wrong_type_reply (CmdType cmd)).
Proof.
  destruct s as [c]. destruct cmd as [key ttl type args].
  cbn [server.cache Key CmdType Args]. intros Hk Hl Hvar Hne Har.
  pose proof (live_here c now key v Hk Hl) as Hlive.
  pose proof (mismatch_eqb v t Hne) as Heqb.
  pose proof (live_of_mismatch c now key v t Hk Hl Hne) as Hlo.
  pose proof (fun e => open_or_create_mismatch c now key v t Hk Hl Hne e) as Hoc.
  destruct type as [| p | p]; [| | discriminate Hvar].
  - (* GET *)
    injection Hvar as <-.
    cbv [executeCommand CmdType handleGet Get Key server.cache].
    rewrite Hlive, Heqb. reflexivity.
  - do 5 (try (destruct p as [p | p |]; cbn in Hvar; try discriminate Hvar));
      injection Hvar as <-;
      cbv [executeCommand CmdType Key Args server.cache wrong_type_reply
           handleIncr handleDecr handleIncrBy handleDecrBy reply_counter
           Incr Decr IncrBy
           handleHGet handleHSet handleHDel handleHGetAll handleHExists
           HGet HSet HDel HGetAll HExists
           handleLPush handleRPush handleLPop handleRPop handleLLen reply_pop
           LPush RPush LPop RPop LLen
           handleSAdd handleSRem handleSMembers handleSIsMember
           SAdd SRem SMembers SIsMember reply_bool];
      cbn [min_args length] in Har;
      try rewrite Hlive; try rewrite Heqb; try rewrite Hlo; try rewrite !Hoc;
      cbn [negb];
      repeat (match goal with
              | |- context [match ?l with [] => _ | _ :: _ => _ end] =>
                  is_var l; destruct l; cbn [length] in Har; try lia
              end);
      try reflexivity.
    all: rewrite map_to_list_empty; reflexivity.
Qed.

Lemma C2_wrong_variant_leaves_store_unchanged_witness :
  let s := mkServer (RPush cache.New 10 "q" ["a"]).1 in
  executeCommand s 20 (mkCommand "q" 0 CmdHSet ["f"; "x"]) = (s, OK).
Proof.
  exact (C2_wrong_variant_leaves_store_unchanged
           (mkServer (RPush cache.New 10 "q" ["a"]).1) 20
           (mkCommand "q" 0 CmdHSet ["f"; "x"])
           (mkValue (a_strings ["a"]) zero TypeList) TypeHash
           eq_refl eq_refl eq_refl
           ltac:(discriminate) ltac:(cbn; lia)).
Defined.

(** C6, the claim as stated fails at the smallest int64: its negation has
    the decimal text "9223372036854775808", which [INCRBY] cannot parse
    and replaces by 1, while [DECRBY] negates with wrap-around. *)
Lemma C6_decrby_min_int64_counterexample :
  let d := "-9223372036854775808" in
  let d' := "9223372036854775808" in
  strconv.ParseInt d = Some minInt64
  /\ strconv.FormatInt (- minInt64) = d'
  /\ (executeCommand server.New 10 (mkCommand "k" 0 CmdDecrBy [d])).2
     = Int minInt64
  /\ (executeCommand server.New 10 (mkCommand "k" 0 CmdIncrBy [d'])).2
     = Int 1.
Proof. vm_compute. repeat split; reflexivity. Qed.

(** C6, amended.  For every key, store state and delta text [d] that
    parses as an int64 other than the smallest one, dispatching
    [DECRBY k d] gives the response and the post-state of dispatching
    [INCRBY k d'] with [d'] the decimal text of the negation of [d].
    [incr] is [incrBy(1)] and [decr] is [incrBy(-1)], in the store and in
    the dispatcher.  A delta text that does not parse is replaced by 1:
    the handler then calls [incrBy(k, 1)]. *)
Theorem C6_decrby_is_incrby_of_negation
    (s : Server) (now : Time) (key : string) (ttl ttl' : Duration) :
  (forall (d : string) (z : Z) (rest : list string),
      parseIntArg d = Some z -> z <> minInt64 ->
      executeCommand s now (mkCommand key ttl CmdDecrBy (d :: rest))
      = executeCommand s now
          (mkCommand key ttl' CmdIncrBy (strconv.FormatInt (- z) :: rest)))
  /\ (forall c : Cache,
        Incr c now key = IncrBy c now key 1
        /\ Decr c now key = IncrBy c now key (-1))
  /\ (forall args : list string,
        executeCommand s now (mkCommand key ttl CmdIncr args)
        = executeCommand s now (mkCommand key ttl' CmdIncrBy ["1"])
        /\ executeCommand s now (mkCommand key ttl CmdDecr args)
           = executeCommand s now (mkCommand key ttl' CmdIncrBy ["-1"]))
  /\ (forall (d : string) (rest : list string),
        parseIntArg d = None ->
        executeCommand s now (mkCommand key ttl CmdIncrBy (d :: rest))
        = reply_counter (IncrBy (server.cache s) now key 1)
        /\ executeCommand s now (mkCommand key ttl CmdDecrBy (d :: rest))
           = reply_counter (IncrBy (server.cache s) now key 1)).
Proof.
  split; [| split; [| split]].
  - intros d z rest Hd Hz.
    pose proof (ParseInt_range d z Hd) as Hr.
    assert (Hneg : is_int64 (- z))
      by (unfold is_int64, minInt64, maxInt64 in *; lia).
    cbv [executeCommand CmdType handleDecrBy handleIncrBy Args Key].
    rewrite Hd. unfold parseIntArg.
    rewrite (ParseInt_FormatInt (- z) Hneg), (wrap64_small (- z) Hneg).
    reflexivity.
  - intros c. split; reflexivity.
  - intros args. split; reflexivity.
  - intros d rest Hd.
    cbv [executeCommand CmdType handleDecrBy handleIncrBy Args Key].
    rewrite Hd. split; reflexivity.
Qed.

Lemma C6_decrby_is_incrby_of_negation_witness :
  executeCommand server.New 10 (mkCommand "k" 0 CmdDecrBy ["5"])
  = executeCommand server.New 10 (mkCommand "k" 0 CmdIncrBy ["-5"]).
Proof.
  destruct (C6_decrby_is_incrby_of_negation server.New 10 "k" 0 0) as [H _].
  exact (H "5" 5 [] eq_refl ltac:(discriminate)).
Defined.

End dispatcher_claims.

(** ** Seconds as a float64 *)

Section float_seconds.
Import float64 time.

Lemma up_nonpos (e : Z) : e <= 0 -> up e = 1.
Proof. intros H. unfold up. rewrite Z.max_r by lia; reflexivity. Qed.

Lemma down_nonpos (e : Z) : e <= 0 -> down e = 2 ^ (- e).
Proof. intros H. unfold down. rewrite Z.max_l by lia; reflexivity. Qed.

Lemma down_nonneg (e : Z) : 0 <= e -> down e = 1.
Proof. intros H. unfold down. rewrite Z.max_r by lia; reflexivity. Qed.

Lemma up_nonneg (e : Z) : 0 <= e -> up e = 2 ^ e.
Proof. intros H. unfold up. rewrite Z.max_l by lia; reflexivity. Qed.

Lemma floor_log2_lower (p q : Z) :
  0 < p -> 0 < q -> 0 <= floor_log2 p q -> q * 2 ^ floor_log2 p q <= p.
Proof.
  intros Hp Hq. unfold floor_log2.
  pose proof (Z.log2_spec p Hp) as [Hp1 Hp2].
  pose proof (Z.log2_spec q Hq) as [Hq1 Hq2].
  pose proof (Z.log2_nonneg p) as Hlp. pose proof (Z.log2_nonneg q) as Hlq.
  set (k := Z.log2 p - Z.log2 q).
  destruct (Z.ltb_spec (p * down k) (q * up k)) as [Hlt | Hge]; intros Hk.
  - assert (E : 2 ^ Z.log2 p = 2 ^ Z.succ (Z.log2 q) * 2 ^ (k - 1)).
    { rewrite <- Z.pow_add_r by lia. f_equal. lia. }
    assert (0 < 2 ^ (k - 1)) by (apply Z.pow_pos_nonneg; lia).
    nia.
  - rewrite down_nonneg, up_nonneg in Hge by lia. lia.
Qed.

Lemma floor_log2_lt (p q j : Z) :
  0 < p -> 0 < q -> 0 <= j -> p < q * 2 ^ j -> floor_log2 p q < j.
Proof.
  intros Hp Hq Hj Hlt.
  destruct (Z.lt_ge_cases (floor_log2 p q) j) as [H | H]; [exact H |].
  pose proof (floor_log2_lower p q Hp Hq ltac:(lia)) as Hlow.
  assert (2 ^ j <= 2 ^ floor_log2 p q) by (apply Z.pow_le_mono_r; lia).
  nia.
Qed.

Lemma round_half_even_exact (a d : Z) : 0 < d -> round_half_even (a * d) d = a.
Proof.
  intros Hd. unfold round_half_even.
  rewrite Z.mod_mul, Z.div_mul by lia.
  destruct (Z.ltb_spec (2 * 0) d); [reflexivity | lia].
Qed.

Lemma round_half_even_ge (n d a : Z) :
  0 < d -> a * d <= n -> a <= round_half_even n d.
Proof.
  intros Hd Ha. unfold round_half_even.
  assert (a <= n / d) by (apply Z.div_le_lower_bound; lia).
  repeat match goal with |- context [if ?b then _ else _] => destruct b end; lia.
Qed.

(** [n / d < b - 1/2] *)
Lemma round_half_even_lt (n d b : Z) :
  0 < d -> 2 * n < (2 * b - 1) * d -> round_half_even n d <= b - 1.
Proof.
  intros Hd Hb. unfold round_half_even.
  pose proof (Z.div_mod n d ltac:(lia)) as E.
  pose proof (Z.mod_pos_bound n d Hd) as Hr.
  destruct (Z.ltb_spec (2 * (n mod d)) d) as [H1 | H1]; [nia |].
  destruct (Z.ltb_spec d (2 * (n mod d))) as [H2 | H2]; [nia |].
  destruct (Z.even (n / d)); nia.
Qed.

Lemma pow2_pos (e : Z) : 0 < 2 ^ Z.max e 0.
Proof. apply Z.pow_pos_nonneg; lia. Qed.

(** An integer below 2^53 is a float64. *)
Lemma round_int (s q : Z) :
  0 <= s < 2 ^ 53 -> 0 < q ->
  exists D : Z, 0 < D /\ round (s * q) q = (s * D, D).
Proof.
  intros Hs Hq. destruct (Z.eq_dec s 0) as [-> | Hne].
  { exists 1. split; [lia | reflexivity]. }
  assert (Hpos : 0 < s * q) by nia.
  assert (Hround : round (s * q) q = round_pos (s * q) q)
    by (unfold round; destruct (s * q); [lia | reflexivity | lia]).
  rewrite Hround. unfold round_pos.
  assert (HK : floor_log2 (s * q) q < 53) by (apply floor_log2_lt; nia).
  set (e := Z.max (floor_log2 (s * q) q - 52) (-1074)).
  assert (He : e <= 0) by lia.
  rewrite (up_nonpos e He). exists (down e).
  split; [apply pow2_pos |].
  rewrite !Z.mul_1_r.
  replace (s * q * down e) with (s * down e * q) by ring.
  by rewrite round_half_even_exact.
Qed.

(** A whole number of seconds converts without error. *)
Lemma Seconds_whole (s : Z) :
  0 <= s < 2 ^ 53 -> to_int64 (Seconds (s * Second)) = s.
Proof.
  intros Hs. unfold Seconds, Second.
  rewrite Z.quot_mul, Z.rem_mul by lia.
  change (div (of_int 0) (of_int 1000000000)) with ((0, 1) : Float).
  unfold of_int.
  destruct (round_int s 1 Hs ltac:(lia)) as (D & HD & E).
  rewrite Z.mul_1_r in E. rewrite E.
  unfold add. cbn [fst snd].
  replace (s * D * 1 + 0 * D) with (s * D) by ring. rewrite Z.mul_1_r.
  destruct (round_int s D Hs HD) as (D' & HD' & E'). rewrite E'.
  unfold to_int64. cbn [fst snd]. apply Z.quot_mul. lia.
Qed.

Lemma round_positive (p q : Z) : 0 < p -> round p q = round_pos p q.
Proof. intros Hp. unfold round. destruct p; [lia | reflexivity | lia]. Qed.

(** The fraction of a second, as a float64, stays below [1 - 2^-30]. *)
Lemma round_fraction (f c : Z) :
  0 <= f < 1000000000 -> 0 < c ->
  exists m D : Z,
    round (f * c) (1000000000 * c) = (m, D)
    /\ 0 <= m /\ 0 < D /\ 2 ^ 30 * m < (2 ^ 30 - 1) * D.
Proof.
  intros Hf Hc. destruct (Z.eq_dec f 0) as [-> | Hne].
  { exists 0, 1. split; [reflexivity | lia]. }
  rewrite round_positive by nia. unfold round_pos.
  assert (HK : floor_log2 (f * c) (1000000000 * c) < 0)
    by (apply floor_log2_lt; nia).
  set (e := Z.max (floor_log2 (f * c) (1000000000 * c) - 52) (-1074)).
  assert (He : e <= -53) by lia.
  rewrite up_nonpos, down_nonpos by lia. rewrite !Z.mul_1_r.
  set (D0 := 2 ^ (- e - 30)).
  assert (HD : 2 ^ (- e) = 2 ^ 30 * D0).
  { unfold D0. rewrite <- Z.pow_add_r by lia. f_equal. lia. }
  assert (HD0 : 2 ^ 23 <= D0) by (apply Z.pow_le_mono_r; lia).
  rewrite HD.
  exists (round_half_even (f * c * (2 ^ 30 * D0)) (1000000000 * c)), (2 ^ 30 * D0).
  change (2 ^ 30) with 1073741824 in *. change (2 ^ 23) with 8388608 in *.
  split; [reflexivity |]. split; [| split].
  - apply round_half_even_ge; nia.
  - lia.
  - pose proof (round_half_even_lt (f * c * (1073741824 * D0)) (1000000000 * c)
                  (1073741824 * D0 - D0)) as H.
    assert (H2 : 2 * (f * c * (1073741824 * D0))
                 < (2 * (1073741824 * D0 - D0) - 1) * (1000000000 * c)).
    { assert (f * (2 * 1073741824 * D0)
              < (2 * (1073741824 * D0 - D0) - 1) * 1000000000) by nia.
      nia. }
    specialize (H ltac:(lia) H2). lia.
Qed.

(** Below 2^24 seconds the conversion discards exactly the fraction. *)
Lemma Seconds_floor (d : Duration) :
  0 <= d < 2 ^ 24 * Second -> to_int64 (Seconds d) = d / Second.
Proof.
  intros Hd. unfold Seconds, Second in *.
  rewrite Z.quot_div_nonneg, Z.rem_mod_nonneg by lia.
  set (s := d / 1000000000). set (f := d mod 1000000000).
  assert (Hs : 0 <= s < 2 ^ 24)
    by (subst s; change (2 ^ 24) with 16777216 in *;
        Z.to_euclidean_division_equations; lia).
  assert (Hf : 0 <= f < 1000000000) by (subst f; apply Z.mod_pos_bound; lia).
  unfold of_int.
  destruct (round_int s 1 ltac:(change (2 ^ 53) with 9007199254740992;
                                change (2 ^ 24) with 16777216 in Hs; lia)
              ltac:(lia)) as (D1 & HD1 & E1).
  destruct (round_int f 1 ltac:(change (2 ^ 53) with 9007199254740992; lia)
              ltac:(lia)) as (D2 & HD2 & E2).
  destruct (round_int 1000000000 1 ltac:(change (2 ^ 53) with 9007199254740992; lia)
              ltac:(lia)) as (D3 & HD3 & E3).
  rewrite Z.mul_1_r in E1, E2, E3. rewrite E1, E2, E3.
  unfold div. cbn [fst snd].
  replace (f * D2 * D3) with (f * (D2 * D3)) by ring.
  replace (D2 * (1000000000 * D3)) with (1000000000 * (D2 * D3)) by ring.
  destruct (round_fraction f (D2 * D3) Hf ltac:(nia)) as (m & D & Eq & Hm & HD & Hgap).
  rewrite Eq. unfold add. cbn [fst snd].
  change (2 ^ 30) with 1073741824 in Hgap.
  replace (s * D1 * D + m * D1) with ((s * D + m) * D1) by ring.
  destruct (Z.eq_dec (s * D + m) 0) as [Hz | Hnz].
  { rewrite Hz. assert (Hs0 : s = 0) by nia.
    change (round (0 * D1) (D1 * D)) with ((0, 1) : Float).
    unfold to_int64. cbn [fst snd]. change (Z.quot 0 1) with 0. lia. }
  assert (Hsum : 0 < s * D + m) by nia.
  rewrite round_positive by nia. unfold round_pos.
  assert (HK : floor_log2 ((s * D + m) * D1) (D1 * D) < 24).
  { change (2 ^ 24) with 16777216 in Hs. apply floor_log2_lt; nia. }
  set (e := Z.max (floor_log2 ((s * D + m) * D1) (D1 * D) - 52) (-1074)).
  assert (He : e <= -29) by lia.
  rewrite up_nonpos, down_nonpos by lia. rewrite !Z.mul_1_r.
  set (D0' := 2 ^ (- e - 29)).
  assert (HD' : 2 ^ (- e) = 2 ^ 29 * D0').
  { unfold D0'. rewrite <- Z.pow_add_r by lia. f_equal. lia. }
  assert (HD0' : 0 < D0') by (apply Z.pow_pos_nonneg; lia).
  rewrite HD'. set (D' := 2 ^ 29 * D0').
  assert (HDp : 0 < D') by (subst D'; change (2 ^ 29) with 536870912; lia).
  set (m' := round_half_even ((s * D + m) * D1 * D') (D1 * D)).
  assert (Hlow : s * D' <= m') by (apply round_half_even_ge; nia).
  assert (Hup : m' <= (s + 1) * D' - 1).
  { apply round_half_even_lt; [nia |].
    assert (D < 2 * D' * (D - m))
      by (subst D'; change (2 ^ 29) with 536870912; nia).
    nia. }
  unfold to_int64. cbn [fst snd].
  rewrite Z.quot_div_nonneg by nia.
  symmetry. apply (Z.div_unique m' D' s (m' - s * D')); nia.
Qed.

Lemma round_half_even_le (n d b : Z) :
  0 < d -> n <= b * d -> round_half_even n d <= b.
Proof.
  intros Hd Hb. unfold round_half_even.
  pose proof (Z.div_mod n d ltac:(lia)) as E.
  pose proof (Z.mod_pos_bound n d Hd) as Hr.
  destruct (Z.ltb_spec (2 * (n mod d)) d) as [H1 | H1]; [nia |].
  destruct (Z.ltb_spec d (2 * (n mod d))) as [H2 | H2]; [nia |].
  destruct (Z.even (n / d)); nia.
Qed.

(** Everywhere else the conversion is off by at most one second, upward. *)
Lemma Seconds_near (d : Duration) :
  0 <= d < 2 ^ 63 ->
  d / Second <= to_int64 (Seconds d) <= d / Second + 1.
Proof.
  intros Hd. unfold Seconds, Second in *.
  change (2 ^ 63) with 9223372036854775808 in Hd.
  rewrite Z.quot_div_nonneg, Z.rem_mod_nonneg by lia.
  set (s := d / 1000000000). set (f := d mod 1000000000).
  assert (Hs : 0 <= s < 9223372037)
    by (subst s; Z.to_euclidean_division_equations; lia).
  assert (Hf : 0 <= f < 1000000000) by (subst f; apply Z.mod_pos_bound; lia).
  unfold of_int.
  destruct (round_int s 1 ltac:(change (2 ^ 53) with 9007199254740992; lia)
              ltac:(lia)) as (D1 & HD1 & E1).
  destruct (round_int f 1 ltac:(change (2 ^ 53) with 9007199254740992; lia)
              ltac:(lia)) as (D2 & HD2 & E2).
  destruct (round_int 1000000000 1 ltac:(change (2 ^ 53) with 9007199254740992; lia)
              ltac:(lia)) as (D3 & HD3 & E3).
  rewrite Z.mul_1_r in E1, E2, E3. rewrite E1, E2, E3.
  unfold div. cbn [fst snd].
  replace (f * D2 * D3) with (f * (D2 * D3)) by ring.
  replace (D2 * (1000000000 * D3)) with (1000000000 * (D2 * D3)) by ring.
  destruct (round_fraction f (D2 * D3) Hf ltac:(nia)) as (m & D & Eq & Hm & HD & Hgap).
  rewrite Eq. unfold add. cbn [fst snd].
  change (2 ^ 30) with 1073741824 in Hgap.
  replace (s * D1 * D + m * D1) with ((s * D + m) * D1) by ring.
  destruct (Z.eq_dec (s * D + m) 0) as [Hz | Hnz].
  { rewrite Hz. assert (Hs0 : s = 0) by nia.
    change (round (0 * D1) (D1 * D)) with ((0, 1) : Float).
    unfold to_int64. cbn [fst snd]. change (Z.quot 0 1) with 0. lia. }
  assert (Hsum : 0 < s * D + m) by nia.
  rewrite round_positive by nia. unfold round_pos.
  assert (HK : floor_log2 ((s * D + m) * D1) (D1 * D) < 34).
  { apply floor_log2_lt; nia. }
  set (e := Z.max (floor_log2 ((s * D + m) * D1) (D1 * D) - 52) (-1074)).
  assert (He : e <= 0) by lia.
  rewrite up_nonpos, down_nonpos by lia. rewrite !Z.mul_1_r.
  set (D' := 2 ^ (- e)).
  assert (HDp : 0 < D') by (apply Z.pow_pos_nonneg; lia).
  set (m' := round_half_even ((s * D + m) * D1 * D') (D1 * D)).
  assert (Hlow : s * D' <= m') by (apply round_half_even_ge; nia).
  assert (Hup : m' <= (s + 1) * D') by (apply round_half_even_le; nia).
  unfold to_int64. cbn [fst snd].
  rewrite Z.quot_div_nonneg by nia.
  split.
  - apply Z.div_le_lower_bound; nia.
  - apply Z.div_le_upper_bound; nia.
Qed.

End float_seconds.

(** ** The wire codec *)

Section varint.
Import binary.

Lemma Z_of_byte_range (b : byte) : 0 <= Z_of_byte b < 256.
Proof.
  unfold Z_of_byte. pose proof (Byte.to_N_bounded b). lia.
Qed.

Lemma Z_of_byte_of_Z (x : Z) : Z_of_byte (byte_of_Z x) = x mod 256.
Proof.
  unfold Z_of_byte, byte_of_Z.
  pose proof (Z.mod_pos_bound x 256 ltac:(lia)) as Hm.
  destruct (Byte.of_N (Z.to_N (x mod 256))) as [b |] eqn:E.
  - apply Byte.to_of_N in E. rewrite E. lia.
  - apply Byte.of_N_None_iff in E. lia.
Qed.

Lemma lor_disjoint (x b s : Z) :
  0 <= s -> 0 <= x < 2 ^ s -> 0 <= b -> Z.lor x (b * 2 ^ s) = x + b * 2 ^ s.
Proof.
  intros Hs Hx Hb.
  assert (Hland : Z.land x (b * 2 ^ s) = 0).
  { apply Z.bits_inj'. intros n Hn. rewrite Z.land_spec, Z.bits_0.
    destruct (Z.lt_ge_cases n s) as [Hlt | Hge].
    - rewrite <- Z.shiftl_mul_pow2 by lia.
      rewrite Z.shiftl_spec_low by lia. apply andb_false_r.
    - destruct (Z.eq_dec x 0) as [-> | Hnz]; [by rewrite Z.bits_0 |].
      rewrite (Z.bits_above_log2 x n); [reflexivity | lia |].
      apply Z.log2_lt_pow2; [lia |].
      apply Z.lt_le_trans with (2 ^ s); [lia |].
      apply Z.pow_le_mono_r; lia. }
  rewrite <- Z.lxor_lor by exact Hland.
  symmetry. by apply Z.add_nocarry_lxor.
Qed.

(** Setting the continuation bit of a byte. *)
Lemma lor_128 (v : Z) : 0 <= v < 256 -> Z.lor v 128 = v mod 128 + 128.
Proof.
  intros Hv.
  assert (Hall : forallb (fun v => Z.lor v 128 =? v mod 128 + 128) (seqZ 0 256) = true)
    by (vm_compute; reflexivity).
  rewrite forallb_forall in Hall. apply Z.eqb_eq, Hall.
  apply list_elem_of_In, elem_of_seqZ. lia.
Qed.

Lemma uvarint_loop_bytes (fuel : nat) :
  forall (y : Z) (i : nat) (x s : Z) (rest : list byte),
    (i + fuel = 10)%nat -> (1 <= fuel)%nat -> s = 7 * Z.of_nat i ->
    0 <= x < 2 ^ s -> 0 <= y < 2 ^ (64 - s) ->
    uvarint_loop (uvarint_bytes fuel y ++ rest) i x s
    = (x + y * 2 ^ s, Z.of_nat i + Z.of_nat (length (uvarint_bytes fuel y))).
Proof.
  induction fuel as [| fuel IH]; intros y i x s rest Hi Hfuel Hs Hx Hy; [lia |].
  assert (Hi10 : (i =? MaxVarintLen64)%nat = false)
    by (apply Nat.eqb_neq; unfold MaxVarintLen64; lia).
  cbn [uvarint_bytes]. destruct (Z.leb_spec 128 y) as [Hbig | Hsmall].
  - (* a continuation byte *)
    assert (Hi9 : (i < 9)%nat).
    { destruct (Nat.eq_dec i 9%nat) as [-> | Hne]; [| lia].
      subst s. change (2 ^ (64 - 7 * Z.of_nat 9)) with 2 in Hy. lia. }
    pose proof (Z.mod_pos_bound y 256 ltac:(lia)) as Hm256.
    pose proof (Z.mod_pos_bound y 128 ltac:(lia)) as Hm128.
    assert (Hb : Z_of_byte (byte_of_Z (Z.lor (y mod 256) 128)) = y mod 128 + 128).
    { rewrite Z_of_byte_of_Z, lor_128 by lia.
      replace ((y mod 256) mod 128) with (y mod 128)
        by (Z.to_euclidean_division_equations; lia).
      apply Z.mod_small. lia. }
    cbn [app uvarint_loop]. rewrite Hi10, Hb.
    destruct (Z.ltb_spec (y mod 128 + 128) 128) as [Habs | _]; [lia |].
    change 127 with (Z.ones 7). rewrite Z.land_ones by lia.
    change (2 ^ 7) with 128.
    replace ((y mod 128 + 128) mod 128) with (y mod 128)
      by (Z.to_euclidean_division_equations; lia).
    rewrite Z.shiftl_mul_pow2 by lia.
    assert (Hs63 : 0 <= s <= 56) by lia.
    assert (Hpow : 0 < 2 ^ s) by (apply Z.pow_pos_nonneg; lia).
    assert (Hlow : 0 <= y mod 128 * 2 ^ s < 2 ^ 64).
    { split; [apply Z.mul_nonneg_nonneg; lia |].
      apply Z.lt_le_trans with (128 * 2 ^ s).
      - apply Z.mul_lt_mono_pos_r; lia.
      - change 128 with (2 ^ 7). rewrite <- Z.pow_add_r by lia.
        apply Z.pow_le_mono_r; lia. }
    unfold wrapU64. rewrite (Z.mod_small _ _ Hlow).
    rewrite lor_disjoint by lia.
    rewrite Z.shiftr_div_pow2 by lia. change (2 ^ 7) with 128.
    assert (Hs7 : 2 ^ (s + 7) = 2 ^ s * 128)
      by (rewrite Z.pow_add_r by lia; reflexivity).
    rewrite IH.
    + cbn [length]. f_equal; [| lia].
      rewrite Hs7. pose proof (Z.div_mod y 128 ltac:(lia)). nia.
    + lia.
    + lia.
    + lia.
    + rewrite Hs7. split; [lia |].
      apply Z.lt_le_trans with (2 ^ s + 127 * 2 ^ s); [| lia].
      apply Z.add_lt_le_mono; [lia |].
      apply Z.mul_le_mono_nonneg_r; lia.
    + split; [apply Z.div_pos; lia |].
      apply Z.div_lt_upper_bound; [lia |].
      replace (64 - (s + 7)) with (64 - s - 7) by lia.
      change 128 with (2 ^ 7). rewrite <- Z.pow_add_r by lia.
      replace (7 + (64 - s - 7)) with (64 - s) by lia. lia.
  - (* the last byte *)
    cbn [app uvarint_loop length]. rewrite Hi10, Z_of_byte_of_Z.
    rewrite (Z.mod_small y 256) by lia.
    destruct (Z.ltb_spec y 128) as [_ | Habs]; [| lia].
    assert (Hlast : (i =? MaxVarintLen64 - 1)%nat && (1 <? y) = false).
    { destruct (Nat.eqb_spec i (MaxVarintLen64 - 1)%nat) as [Hi9 | _]; [| reflexivity].
      unfold MaxVarintLen64 in Hi9. cbn [andb]. apply Z.ltb_ge.
      subst s. replace i with 9%nat in Hy by lia.
      change (2 ^ (64 - 7 * Z.of_nat 9)) with 2 in Hy. lia. }
    rewrite Hlast. rewrite Z.shiftl_mul_pow2 by lia.
    assert (Hs63 : 0 <= s <= 63) by lia.
    assert (Hfit : 0 <= y * 2 ^ s < 2 ^ 64).
    { split; [apply Z.mul_nonneg_nonneg; [lia | apply Z.pow_nonneg; lia] |].
      replace 64 with ((64 - s) + s) by lia. rewrite Z.pow_add_r by lia.
      apply Z.mul_lt_mono_pos_r; [apply Z.pow_pos_nonneg; lia | lia]. }
    unfold wrapU64. rewrite (Z.mod_small _ _ Hfit).
    rewrite lor_disjoint by lia. f_equal; lia.
Qed.

Lemma uvarint_bytes_length (fuel : nat) (y : Z) :
  (1 <= length (uvarint_bytes fuel y) <= S fuel)%nat.
Proof.
  revert y. induction fuel as [| fuel IH]; intros y; cbn [uvarint_bytes].
  - cbn. lia.
  - destruct (128 <=? y); cbn [length]; [specialize (IH (Z.shiftr y 7)) |]; lia.
Qed.

(** [Uvarint] reads back what [AppendUvarint] writes, whatever follows. *)
Lemma Uvarint_AppendUvarint (x : Z) (rest : list byte) :
  is_uint64 x ->
  Uvarint (AppendUvarint [] x ++ rest)
  = (x, Z.of_nat (length (AppendUvarint [] x))).
Proof.
  intros Hx. unfold Uvarint, AppendUvarint. cbn [app].
  rewrite (wrapU64_small x Hx). unfold MaxVarintLen64.
  assert (H0 : 0 <= 0 < 2 ^ 0) by (cbn; lia).
  assert (Hy : 0 <= x < 2 ^ (64 - 0))
    by (unfold is_uint64, maxUint64 in Hx; cbn; lia).
  rewrite (uvarint_loop_bytes 10 x 0%nat 0 0 rest
             eq_refl ltac:(lia) eq_refl H0 Hy).
  f_equal. cbn [Z.pow Z.pow_pos Pos.iter]. lia.
Qed.

Lemma AppendUvarint_length (x : Z) :
  (1 <= length (AppendUvarint [] x) <= 11)%nat.
Proof. unfold AppendUvarint. cbn [app]. apply uvarint_bytes_length. Qed.

Lemma AppendUvarint_app (buf : list byte) (x : Z) :
  AppendUvarint buf x = (buf ++ AppendUvarint [] x)%list.
Proof. reflexivity. Qed.

(** [Varint] reads back what [AppendVarint] writes. *)
Lemma Varint_AppendVarint (x : Z) (rest : list byte) :
  is_int64 x ->
  exists n, 0 < n /\ Varint (AppendVarint [] x ++ rest) = (x, n).
Proof.
  intros Hx. unfold is_int64, minInt64, maxInt64 in Hx.
  unfold Varint, AppendVarint.
  set (ux := if x <? 0
             then wrapU64 (Z.lnot (wrapU64 (Z.shiftl (wrapU64 x) 1)))
             else wrapU64 (Z.shiftl (wrapU64 x) 1)).
  assert (Hux : ux = if x <? 0 then - 2 * x - 1 else 2 * x).
  { subst ux. unfold wrapU64. rewrite Z.shiftl_mul_pow2 by lia.
    change (2 ^ 1) with 2. destruct (Z.ltb_spec x 0) as [Hneg | Hpos].
    - replace (x mod 2 ^ 64) with (x + 2 ^ 64)
        by (apply Z.mod_unique with (-1); lia).
      replace (((x + 2 ^ 64) * 2) mod 2 ^ 64) with (2 * x + 2 ^ 64)
        by (apply Z.mod_unique with 1; lia).
      unfold Z.lnot. symmetry. apply Z.mod_unique with (-1); lia.
    - rewrite (Z.mod_small x) by lia. rewrite Z.mod_small by lia. lia. }
  assert (Hrange : is_uint64 ux).
  { rewrite Hux. unfold is_uint64, maxUint64.
    destruct (Z.ltb_spec x 0); lia. }
  rewrite AppendUvarint_app. cbn [app].
  rewrite (Uvarint_AppendUvarint ux rest Hrange).
  pose proof (AppendUvarint_length ux) as Hlen.
  exists (Z.of_nat (length (AppendUvarint [] ux))). split; [lia |].
  f_equal. rewrite Z.shiftr_div_pow2 by lia. change (2 ^ 1) with 2.
  change (Z.land ux 1) with (Z.land ux (Z.ones 1)).
  rewrite Z.land_ones by lia.
  change (2 ^ 1) with 2. rewrite Hux.
  destruct (Z.ltb_spec x 0) as [Hneg | Hpos].
  - replace ((- 2 * x - 1) mod 2) with 1
      by (apply Z.mod_unique with (- x - 1); lia).
    replace ((- 2 * x - 1) / 2) with (- x - 1)
      by (apply Z.div_unique with 1; lia).
    cbn [Z.eqb negb].
    rewrite (wrap64_small (- x - 1))
      by (unfold is_int64, minInt64, maxInt64; lia).
    unfold Z.lnot. replace (Z.pred (- (- x - 1))) with x by lia.
    apply wrap64_small. unfold is_int64, minInt64, maxInt64. lia.
  - replace ((2 * x) mod 2) with 0
      by (apply Z.mod_unique with x; lia).
    replace (2 * x / 2) with x by (apply Z.div_unique with 0; lia).
    cbn [Z.eqb negb].
    apply wrap64_small. unfold is_int64, minInt64, maxInt64. lia.
Qed.

End varint.

Section codec.
Import time binary protocol wire.

Lemma representable_uint64 (s : string) :
  representable s -> is_uint64 (Z.of_nat (length (list_byte_of_string s))).
Proof. unfold representable, is_uint64, maxInt64, maxUint64. lia. Qed.

Lemma put_string_app (buf : list byte) (s : string) :
  put_string buf s = (buf ++ put_string [] s)%list.
Proof.
  unfold put_string. rewrite AppendUvarint_app. cbn [app].
  by rewrite app_assoc.
Qed.

Lemma fold_put_string (l : list string) :
  forall buf : list byte,
    fold_left put_string l buf = (buf ++ concat (map (put_string []) l))%list.
Proof.
  induction l as [| a l IH]; intros buf; cbn [fold_left map concat].
  - by rewrite app_nil_r.
  - rewrite IH, (put_string_app buf a). by rewrite app_assoc.
Qed.

Lemma put_strings_app (buf : list byte) (l : list string) :
  put_strings buf l
  = (buf ++ AppendUvarint [] (Z.of_nat (length l))
         ++ concat (map (put_string []) l))%list.
Proof.
  unfold put_strings. rewrite fold_put_string, AppendUvarint_app.
  by rewrite app_assoc.
Qed.

(** Reading a string back from the middle of a buffer. *)
Lemma deserializeString_put_string
    (data pre post : list byte) (s fieldName : string) :
  representable s ->
  data = (pre ++ put_string [] s ++ post)%list ->
  deserializeString data (length pre) fieldName
  = Ok (s, (length pre + length (put_string [] s))%nat).
Proof.
  intros Hs ->. unfold deserializeString, put_string. cbn [app].
  set (bytes := list_byte_of_string s).
  set (U := AppendUvarint [] (Z.of_nat (length bytes))).
  rewrite drop_app_length, <- app_assoc.
  rewrite (Uvarint_AppendUvarint _ _ (representable_uint64 s Hs)).
  fold bytes. fold U.
  pose proof (AppendUvarint_length (Z.of_nat (length bytes))) as HU. fold U in HU.
  destruct (Z.leb_spec (Z.of_nat (length U)) 0) as [Habs | _]; [lia |].
  rewrite !length_app.
  destruct (Z.ltb_spec
              (Z.of_nat (length pre + (length U + (length bytes + length post))))
              (Z.of_nat (length bytes))) as [Habs | _]; [lia |].
  unfold representable in Hs. fold bytes in Hs.
  destruct (Z.ltb_spec maxInt64 (Z.of_nat (length bytes))) as [Habs | _]; [lia |].
  cbn [orb]. rewrite !Nat2Z.id.
  destruct (Nat.ltb_spec
              (length pre + (length U + (length bytes + length post)))
              (length pre + length U + length bytes)) as [Habs | _]; [lia |].
  rewrite (app_assoc pre U), drop_app_length' by (rewrite length_app; lia).
  rewrite take_app_length.
  unfold bytes. rewrite string_of_list_byte_of_string.
  do 2 f_equal. lia.
Qed.

Lemma deserializeStrings_put_strings (l : list string) :
  forall data pre post : list byte,
    Forall representable l ->
    data = (pre ++ concat (map (put_string []) l) ++ post)%list ->
    deserializeStrings (length l) data (length pre)
    = Ok (l, (length pre + length (concat (map (put_string []) l)))%nat).
Proof.
  induction l as [| a l IH]; intros data pre post Hl Hdata.
  - cbn. do 2 f_equal. lia.
  - apply Forall_cons in Hl as [Ha Hl].
    cbn [length map concat deserializeStrings] in *.
    rewrite (deserializeString_put_string data pre
               (concat (map (put_string []) l) ++ post)%list a "arg" Ha)
      by (rewrite Hdata, <- app_assoc; reflexivity).
    rewrite <- length_app.
    rewrite (IH data (pre ++ put_string [] a)%list post Hl)
      by (rewrite Hdata, <- !app_assoc; reflexivity).
    do 2 f_equal. rewrite !length_app. lia.
Qed.

Lemma deserializeStringSlice_put_strings
    (data pre post : list byte) (l : list string) :
  Forall representable l -> Z.of_nat (length l) <= maxInt64 ->
  data = (pre ++ put_strings [] l ++ post)%list ->
  deserializeStringSlice data (length pre)
  = Ok (l, (length pre + length (put_strings [] l))%nat).
Proof.
  intros Hl Hn ->. unfold deserializeStringSlice.
  rewrite put_strings_app. cbn [app].
  set (U := AppendUvarint [] (Z.of_nat (length l))).
  set (body := concat (map (put_string []) l)).
  rewrite drop_app_length, <- app_assoc.
  assert (Hu : is_uint64 (Z.of_nat (length l)))
    by (unfold is_uint64, maxInt64, maxUint64 in *; lia).
  rewrite (Uvarint_AppendUvarint _ _ Hu). fold U.
  pose proof (AppendUvarint_length (Z.of_nat (length l))) as HU. fold U in HU.
  destruct (Z.leb_spec (Z.of_nat (length U)) 0) as [Habs | _]; [lia |].
  rewrite !Nat2Z.id, <- length_app.
  rewrite (deserializeStrings_put_strings l _ (pre ++ U)%list post Hl)
    by (rewrite <- !app_assoc; reflexivity).
  subst body. do 2 f_equal. rewrite !length_app. lia.
Qed.

Lemma deserializeTTL_AppendUvarint (data pre : list byte) (secs : Z) :
  0 <= secs <= maxInt64 ->
  data = (pre ++ AppendUvarint [] secs)%list ->
  deserializeTTL data (length pre) = Ok (wrap64 (wrap64 secs * Second)).
Proof.
  intros Hsecs ->. unfold deserializeTTL.
  rewrite drop_app_length.
  rewrite <- (app_nil_r (AppendUvarint [] secs)).
  assert (Hu : is_uint64 secs)
    by (unfold is_uint64, maxInt64, maxUint64 in *; lia).
  rewrite (Uvarint_AppendUvarint _ _ Hu).
  pose proof (AppendUvarint_length secs) as HU.
  destruct (Z.leb_spec (Z.of_nat (length (AppendUvarint [] secs))) 0)
    as [Habs | _]; [lia |].
  unfold maxInt64Value. unfold maxInt64 in Hsecs.
  destruct (Z.ltb_spec 9223372036854775807 secs) as [Habs | _]; [lia |].
  reflexivity.
Qed.

Lemma Command_Serialize_app (c : Command) :
  Command_Serialize c
  = ([byte_of_Z (CmdType c)] ++ put_string [] (Key c)
       ++ put_strings [] (Args c)
       ++ AppendUvarint [] (Seconds_uint64 (TTL c)))%list.
Proof.
  unfold Command_Serialize.
  rewrite AppendUvarint_app.
  rewrite (put_strings_app (put_string _ _)), (put_strings_app []).
  rewrite (put_string_app [_]).
  rewrite <- !app_assoc. reflexivity.
Qed.

Lemma whole_seconds (d : Duration) :
  0 <= d <= maxInt64 -> d mod Second = 0 ->
  0 <= Seconds_uint64 d <= maxInt64
  /\ wrap64 (wrap64 (Seconds_uint64 d) * Second) = d.
Proof.
  unfold Seconds_uint64, maxInt64, wrapU64. intros Hd Hmod.
  assert (Hq : 0 <= d / Second <= 9223372036)
    by (unfold Second in *; Z.to_euclidean_division_equations; lia).
  assert (E : d = d / Second * Second)
    by (unfold Second in *; Z.to_euclidean_division_equations; lia).
  assert (Hsec : float64.to_int64 (Seconds d) = d / Second).
  { pose proof (Seconds_whole (d / Second)
                  ltac:(change (2 ^ 53) with 9007199254740992; lia)) as H.
    rewrite <- E in H. exact H. }
  rewrite Hsec.
  rewrite (Z.mod_small (d / Second)) by lia.
  split; [lia |].
  rewrite (wrap64_small (d / Second))
    by (unfold is_int64, minInt64, maxInt64; lia).
  rewrite <- E.
  apply wrap64_small. unfold is_int64, minInt64, maxInt64. lia.
Qed.

Lemma DeserializeCommand_Serialize (c : Command) :
  WellFormedCommand c -> DeserializeCommand (Command_Serialize c) = Ok c.
Proof.
  intros [Hop Hkey Hargs Hargc Httl Hsec].
  destruct (whole_seconds (TTL c) Httl Hsec) as [Hsecs Hback].
  rewrite Command_Serialize_app.
  set (data := ([byte_of_Z (CmdType c)] ++ put_string [] (Key c)
                  ++ put_strings [] (Args c)
                  ++ AppendUvarint [] (Seconds_uint64 (TTL c)))%list).
  change (DeserializeCommand data) with
    (match deserializeString data (length [byte_of_Z (CmdType c)]) "key" with
     | Err e => Err e
     | Ok (key, offset) =>
         match deserializeStringSlice data offset with
         | Err e => Err e
         | Ok (args, offset) =>
             match deserializeTTL data offset with
             | Err e => Err e
             | Ok ttl => Ok (mkCommand key ttl (Z_of_byte (byte_of_Z (CmdType c))) args)
             end
         end
     end).
  rewrite (deserializeString_put_string data _
             (put_strings [] (Args c) ++ AppendUvarint [] (Seconds_uint64 (TTL c)))%list
             (Key c) "key" Hkey eq_refl).
  rewrite <- length_app.
  rewrite (deserializeStringSlice_put_strings data _
             (AppendUvarint [] (Seconds_uint64 (TTL c))) (Args c) Hargs Hargc)
    by (subst data; rewrite <- !app_assoc; reflexivity).
  rewrite <- length_app.
  rewrite (deserializeTTL_AppendUvarint data _ (Seconds_uint64 (TTL c)) Hsecs)
    by (subst data; rewrite <- !app_assoc; reflexivity).
  rewrite Hback, Z_of_byte_of_Z, Z.mod_small by exact Hop.
  destruct c; reflexivity.
Qed.

Lemma AppendVarint_app (buf : list byte) (x : Z) :
  AppendVarint buf x = (buf ++ AppendVarint [] x)%list.
Proof. reflexivity. Qed.

Lemma DeserializeResponse_cons (t : Z) (body : list byte) :
  0 <= t < 256 ->
  DeserializeResponse (byte_of_Z t :: body)
  = let resp := mkResponse a_nil "" t in
    let data := byte_of_Z t :: body in
    match t with
    | 0 | 5 => Ok resp
    | 1 => deserializeErrorResponse resp data 1
    | 2 => deserializeStringResponse resp data 1
    | 3 => deserializeIntResponse resp data 1
    | 4 => deserializeArrayResponse resp data 1
    | _ => Ok resp
    end.
Proof.
  intros Ht. unfold DeserializeResponse. cbn [RespType].
  rewrite Z_of_byte_of_Z, Z.mod_small by exact Ht. reflexivity.
Qed.

Lemma DeserializeResponse_Serialize (r : Response) :
  WellFormedResponse r -> DeserializeResponse (Response_Serialize r) = Ok r.
Proof.
  intros [| | msg Hmsg | v Hv | n Hn | l Hl Hlen].
  - reflexivity.
  - reflexivity.
  - cbn [Response_Serialize RespType Error RespError].
    rewrite put_string_app. cbn [app].
    rewrite DeserializeResponse_cons
      by (unfold RespError, RespString, RespInt, RespArray; lia).
    unfold RespError, RespString, RespInt, RespArray. cbv zeta iota.
    unfold deserializeErrorResponse.
    rewrite (deserializeString_put_string _ [byte_of_Z 1] [] msg "error" Hmsg)
      by (by rewrite app_nil_r).
    reflexivity.
  - cbn [Response_Serialize RespType Data RespString].
    rewrite put_string_app. cbn [app].
    rewrite DeserializeResponse_cons
      by (unfold RespError, RespString, RespInt, RespArray; lia).
    unfold RespError, RespString, RespInt, RespArray. cbv zeta iota.
    unfold deserializeStringResponse.
    rewrite (deserializeString_put_string _ [byte_of_Z 2] [] v "string" Hv)
      by (by rewrite app_nil_r).
    reflexivity.
  - cbn [Response_Serialize RespType Data RespInt].
    rewrite AppendVarint_app. cbn [app].
    rewrite DeserializeResponse_cons
      by (unfold RespError, RespString, RespInt, RespArray; lia).
    unfold RespError, RespString, RespInt, RespArray. cbv zeta iota.
    unfold deserializeIntResponse. cbn [drop]. rewrite drop_0.
    destruct (Varint_AppendVarint n [] Hn) as (k & Hk & Hvar).
    rewrite app_nil_r in Hvar. rewrite Hvar.
    destruct (Z.leb_spec k 0) as [Habs | _]; [lia | reflexivity].
  - cbn [Response_Serialize RespType Data RespArray].
    rewrite put_strings_app.
    pose proof (put_strings_app [] l) as E. cbn [app] in E. rewrite <- E.
    cbn [app]. rewrite DeserializeResponse_cons
      by (unfold RespError, RespString, RespInt, RespArray; lia).
    unfold RespError, RespString, RespInt, RespArray. cbv zeta iota.
    unfold deserializeArrayResponse.
    rewrite (deserializeStringSlice_put_strings _ [byte_of_Z 4] [] l Hl Hlen)
      by (by rewrite app_nil_r).
    reflexivity.
Qed.

(** A TTL that is not a whole number of seconds loses its fraction on the
    wire: the encoder writes [uint64(c.TTL.Seconds())]. *)
Example sub_second_ttl_is_truncated :
  DeserializeCommand
    (Command_Serialize (mkCommand "k" 1500000000 CmdExpire []))
  = Ok (mkCommand "k" (1 * Second) CmdExpire []).
Proof. vm_compute. reflexivity. Qed.

(** C3.  For every well-formed Command [C], deserializing the bytes that
    serializing [C] produces succeeds and returns [C]; likewise for every
    well-formed Response. *)
Theorem C3_codec_round_trip :
  (forall c : Command,
      WellFormedCommand c -> DeserializeCommand (Command_Serialize c) = Ok c)
  /\ (forall r : Response,
        WellFormedResponse r ->
        DeserializeResponse (Response_Serialize r) = Ok r).
Proof.
  split; [exact DeserializeCommand_Serialize | exact DeserializeResponse_Serialize].
Qed.

Lemma C3_codec_round_trip_witness :
  DeserializeCommand
    (Command_Serialize (mkCommand "user:1" (60 * Second) CmdSet ["A"]))
  = Ok (mkCommand "user:1" (60 * Second) CmdSet ["A"])
  /\ DeserializeResponse
       (Response_Serialize (mkResponse (a_strings ["name"; "A"]) "" RespArray))
     = Ok (mkResponse (a_strings ["name"; "A"]) "" RespArray).
Proof.
  destruct C3_codec_round_trip as [Hc Hr]. split.
  - apply Hc. split; cbn [CmdType Key Args TTL].
    + unfold CmdSet. lia.
    + unfold representable, maxInt64. cbn. lia.
    + repeat constructor; unfold representable, maxInt64; cbn; lia.
    + unfold maxInt64. cbn. lia.
    + unfold maxInt64, Second. lia.
    + reflexivity.
  - apply Hr. apply wf_Array.
    + repeat constructor; unfold representable, maxInt64; cbn; lia.
    + unfold maxInt64. cbn. lia.
Defined.

End codec.

(** ** The hash ring *)

Section binary_search.

Lemma StronglySorted_nth_le (l : list Z) :
  StronglySorted Z.le l ->
  forall a b : nat, (a <= b < length l)%nat -> nth a l 0 <= nth b l 0.
Proof.
  induction 1 as [| x l Hl IH Hx]; intros a b Hab; cbn [length] in Hab; [lia |].
  destruct a as [| a], b as [| b]; cbn [nth]; try lia.
  - rewrite Forall_forall in Hx. apply Hx, list_elem_of_In, nth_In. lia.
  - apply IH. lia.
Qed.

Variable f : nat -> bool.
Variable n : nat.
Hypothesis f_mono :
  forall a b : nat, (a <= b < n)%nat -> f a = true -> f b = true.

(** The loop of [sort.Search] ends within [j - i] rounds, at the least index
    where [f] holds. *)
Lemma Search_loop_spec (fuel : nat) :
  forall i j : nat,
    (i <= j <= n)%nat -> (j - i <= fuel)%nat ->
    (forall k, (k < i)%nat -> f k = false) ->
    (forall k, (j <= k < n)%nat -> f k = true) ->
    exists r,
      sort.Search_loop fuel f i j = Some r
      /\ (r <= n)%nat
      /\ (forall k, (k < r)%nat -> f k = false)
      /\ (forall k, (r <= k < n)%nat -> f k = true).
Proof.
  induction fuel as [| fuel IH]; intros i j Hij Hfuel Hlow Hhigh.
  - cbn [sort.Search_loop]. destruct (Nat.ltb_spec i j); [lia |].
    exists i. assert (i = j) by lia. subst j. repeat split; auto; lia.
  - cbn [sort.Search_loop]. destruct (Nat.ltb_spec i j) as [Hlt | Hge].
    + pose proof (Nat.div_mod_eq (i + j) 2) as Hdm.
      pose proof (Nat.mod_upper_bound (i + j) 2 ltac:(lia)) as Hm.
      set (h := ((i + j) / 2)%nat) in *.
      destruct (f h) eqn:Hfh; cbn [negb].
      * apply IH; [lia | lia | exact Hlow |].
        intros k Hk. apply (f_mono h k); [lia | exact Hfh].
      * apply IH; [lia | lia | | exact Hhigh].
        intros k Hk. destruct (f k) eqn:Hfk; [| reflexivity].
        rewrite (f_mono k h) in Hfh; [discriminate | lia | exact Hfk].
    + exists i. assert (i = j) by lia. subst j. repeat split; auto; lia.
Qed.

Lemma Search_spec :
  exists r,
    sort.Search n f = Some r
    /\ (r <= n)%nat
    /\ (forall k, (k < r)%nat -> f k = false)
    /\ (forall k, (r <= k < n)%nat -> f k = true).
Proof.
  unfold sort.Search. apply Search_loop_spec; intros; lia.
Qed.

End binary_search.

Section ring_lookup.
Import hash routing.

Lemma find_at (g : Z -> bool) (l : list Z) :
  forall (r : nat) (x : Z),
    (forall k, (k < r)%nat -> g (nth k l 0) = false) ->
    l !! r = Some x -> g x = true -> List.find g l = Some x.
Proof.
  induction l as [| y l IH]; intros r x Hlow Hr Hx; [discriminate |].
  destruct r as [| r]; cbn [List.find].
  - injection Hr as ->. by rewrite Hx.
  - pose proof (Hlow 0%nat ltac:(lia)) as H0. cbn [nth] in H0. rewrite H0.
    apply (IH r); [| exact Hr | exact Hx].
    intros k Hk. apply (Hlow (S k)). lia.
Qed.

Lemma find_none (g : Z -> bool) (l : list Z) :
  (forall k, (k < length l)%nat -> g (nth k l 0) = false) ->
  List.find g l = None.
Proof.
  induction l as [| y l IH]; intros Hall; [reflexivity |].
  pose proof (Hall 0%nat ltac:(cbn; lia)) as H0. cbn [nth] in H0.
  cbn [List.find]. rewrite H0.
  apply IH. intros k Hk. apply (Hall (S k)). cbn. lia.
Qed.

(** On an ascending array, the binary search of [search] lands on the
    position that the specification describes. *)
Lemma search_first_position (c : ConsistentHash) (hash : Z) :
  StronglySorted Z.le (sortedHashes c) -> sortedHashes c <> [] ->
  exists (idx : nat) (p : Z),
    search c hash = Some idx
    /\ sortedHashes c !! idx = Some p
    /\ first_position (sortedHashes c) hash = Some p.
Proof.
  intros Hsorted Hne. unfold search.
  set (l := sortedHashes c) in *.
  set (f := fun i : nat => hash <=? nth i l 0).
  assert (Hmono : forall a b : nat,
             (a <= b < length l)%nat -> f a = true -> f b = true).
  { intros a b Hab Ha. unfold f in *.
    pose proof (StronglySorted_nth_le l Hsorted a b Hab).
    apply Z.leb_le. apply Z.leb_le in Ha. lia. }
  destruct (Search_spec f (length l) Hmono) as (r & -> & Hr & Hlow & Hhigh).
  assert (Hlen : (0 < length l)%nat) by (destruct l; [congruence | cbn; lia]).
  unfold first_position.
  destruct (Nat.eqb_spec r (length l)) as [-> | Hrn].
  - (* every hash is below: wrap to index 0 *)
    rewrite (find_none (fun x => hash <=? x) l Hlow).
    destruct l as [| x l']; [congruence |].
    exists 0%nat, x. auto.
  - assert (Hrlt : (r < length l)%nat) by lia.
    destruct (lookup_lt_is_Some_2 l r Hrlt) as [p Hp].
    exists r, p. split; [reflexivity |]. split; [exact Hp |].
    assert (Hnth : nth r l 0 = p) by (apply nth_lookup_Some with (d := 0) in Hp; exact Hp).
    rewrite (find_at (fun x => hash <=? x) l r p);
      [reflexivity | exact Hlow | exact Hp |].
    rewrite <- Hnth. apply (Hhigh r). lia.
Qed.

Lemma consistent_empty (c : ConsistentHash) :
  consistent c -> (size (ring c) = 0%nat <-> sortedHashes c = []).
Proof.
  intros [_ Hiff]. split.
  - intros Hsize. apply map_size_empty_iff in Hsize.
    destruct (sortedHashes c) as [| x l] eqn:E; [reflexivity |].
    assert (Hx : is_Some (ring c !! x)) by (apply Hiff; left).
    rewrite Hsize, lookup_empty in Hx. by destruct Hx.
  - intros Hnil. apply map_size_empty_iff, map_empty. intros h.
    destruct (ring c !! h) eqn:E; [| reflexivity].
    assert (Hh : h ∈ sortedHashes c) by (apply Hiff; eauto).
    rewrite Hnil in Hh. by apply not_elem_of_nil in Hh.
Qed.

(** [GetNode] returns, and what it returns is the lookup of the
    specification. *)
Lemma GetNode_lookup (c : ConsistentHash) (key : string) :
  consistent c -> GetNode c key = Some (lookup c key).
Proof.
  intros Hc. pose proof (consistent_empty c Hc) as Hempty.
  unfold GetNode, lookup.
  destruct (Nat.eqb_spec (size (ring c)) 0) as [Hz | Hnz].
  - apply Hempty in Hz. rewrite Hz. reflexivity.
  - assert (Hne : sortedHashes c <> []) by (intros E; apply Hnz, Hempty, E).
    destruct (search_first_position c (hashKey key) (proj1 Hc) Hne)
      as (idx & p & -> & -> & ->).
    reflexivity.
Qed.

End ring_lookup.

Section ring_invariant.
Import hash routing.

Lemma fold_add_virtual (node : string) (idxs : list Z) :
  forall st : gmap Z string * list Z,
    let news := (fun i => hashKey (virtualKey node i)) <$> idxs in
    let st' := fold_left (add_virtual node) idxs st in
    st'.2 = (st.2 ++ news)%list
    /\ forall p : Z,
        st'.1 !! p = if decide (p ∈ news) then Some node else st.1 !! p.
Proof.
  induction idxs as [| i idxs IH]; intros st; cbn zeta.
  - cbn [fold_left fmap list_fmap]. rewrite app_nil_r. split; [reflexivity |].
    intros p. destruct (decide (p ∈ [])) as [Hin | _]; [| reflexivity].
    by apply not_elem_of_nil in Hin.
  - cbn [fold_left]. destruct (IH (add_virtual node st i)) as [Hl Hr].
    split.
    + rewrite Hl. unfold add_virtual. cbn [snd fmap list_fmap].
      by rewrite <- app_assoc.
    + intros p. rewrite Hr. unfold add_virtual. cbn [fst].
      rewrite fmap_cons.
      set (news := (fun i => hashKey (virtualKey node i)) <$> idxs).
      set (hk := hashKey (virtualKey node i)).
      destruct (decide (p ∈ news)) as [Hin | Hnin].
      * rewrite decide_True; [reflexivity | by right].
      * destruct (decide (hk = p)) as [<- | Hne].
        -- rewrite lookup_insert_eq, decide_True; [reflexivity | by left].
        -- rewrite lookup_insert_ne by exact Hne.
           rewrite decide_False; [reflexivity |].
           intros [-> | Hin]%elem_of_cons; contradiction.
Qed.

Lemma fold_del_virtual (node : string) (idxs : list Z) :
  forall (r : gmap Z string) (p : Z),
    let news := (fun i => hashKey (virtualKey node i)) <$> idxs in
    fold_left (del_virtual node) idxs r !! p
    = if decide (p ∈ news) then None else r !! p.
Proof.
  induction idxs as [| i idxs IH]; intros r p; cbn zeta.
  - cbn [fold_left fmap list_fmap].
    destruct (decide (p ∈ [])) as [Hin | _]; [| reflexivity].
    by apply not_elem_of_nil in Hin.
  - cbn [fold_left]. rewrite IH. unfold del_virtual. rewrite fmap_cons.
    set (news := (fun i => hashKey (virtualKey node i)) <$> idxs).
    set (hk := hashKey (virtualKey node i)).
    destruct (decide (p ∈ news)) as [Hin | Hnin].
    + rewrite decide_True; [reflexivity | by right].
    + destruct (decide (hk = p)) as [<- | Hne].
      * rewrite lookup_delete_eq, decide_True; [reflexivity | by left].
      * rewrite lookup_delete_ne by exact Hne.
        rewrite decide_False; [reflexivity |].
        intros [-> | Hin]%elem_of_cons; contradiction.
Qed.

Lemma StronglySorted_filter (P : Z -> Prop) `{!forall x, Decision (P x)}
    (l : list Z) :
  StronglySorted Z.le l -> StronglySorted Z.le (filter P l).
Proof.
  induction 1 as [| x l Hl IH Hx]; [constructor |].
  rewrite filter_cons. destruct (decide (P x)); [| exact IH].
  constructor; [exact IH |].
  rewrite Forall_forall in *. intros y [_ Hy]%list_elem_of_filter. by apply Hx.
Qed.

Lemma consistent_New (virtualNodes : Z) : consistent (New virtualNodes).
Proof.
  unfold consistent, New. cbn [sortedHashes ring]. split; [constructor |].
  intros h. rewrite lookup_empty. split.
  - intros Hin. by apply not_elem_of_nil in Hin.
  - intros [x Hx]. discriminate.
Qed.

Lemma consistent_AddNode (c : ConsistentHash) (node : string) :
  consistent c -> consistent (AddNode c node).
Proof.
  intros [Hsorted Hiff]. unfold AddNode.
  destruct (has_node c node); [by split |].
  destruct (fold_add_virtual node (seqZ 0 (virtualNodes c))
              (ring c, sortedHashes c)) as [Hl Hr].
  cbn zeta in Hl, Hr. cbn [fst snd] in Hl, Hr.
  unfold consistent. cbn [sortedHashes ring]. split.
  - unfold sort.Slice. apply StronglySorted_merge_sort; apply _.
  - intros h. unfold sort.Slice.
    rewrite merge_sort_Permutation, Hl, elem_of_app, Hr, Hiff.
    destruct (decide (h ∈ _)) as [Hin | Hnin]; [split; eauto |].
    split; [intros [H | H]; [exact H | contradiction] | by left].
Qed.

Lemma consistent_RemoveNode (c : ConsistentHash) (node : string) :
  consistent c -> consistent (RemoveNode c node).
Proof.
  intros [Hsorted Hiff]. unfold RemoveNode.
  destruct (has_node c node); cbn [negb]; [| by split].
  unfold consistent. cbn [sortedHashes ring]. split.
  - by apply StronglySorted_filter.
  - intros h. rewrite list_elem_of_filter. split; [by intros [H _] |].
    intros Hsome. split; [exact Hsome |]. apply Hiff.
    rewrite fold_del_virtual in Hsome.
    destruct (decide (h ∈ _)); [by destruct Hsome | exact Hsome].
Qed.

Lemma reachable_consistent (c : ConsistentHash) : reachable c -> consistent c.
Proof.
  induction 1;
    auto using consistent_New, consistent_AddNode, consistent_RemoveNode.
Qed.

End ring_invariant.

Section ring_claims.
Import hash routing.

Lemma find_least (h : Z) (l : list Z) :
  StronglySorted Z.le l ->
  forall p : Z,
    List.find (fun x => h <=? x) l = Some p ->
    p ∈ l /\ h <= p /\ forall y, y ∈ l -> h <= y -> p <= y.
Proof.
  induction 1 as [| x l Hl IH Hx]; intros p Hfind; [discriminate |].
  cbn [List.find] in Hfind. rewrite Forall_forall in Hx.
  destruct (Z.leb_spec h x) as [Hle | Hgt].
  - injection Hfind as <-. split; [by left |]. split; [exact Hle |].
    intros y [-> | Hy]%elem_of_cons _; [lia | by apply Hx].
  - destruct (IH p Hfind) as (Hp & Hhp & Hmin).
    split; [by right |]. split; [exact Hhp |].
    intros y [-> | Hy]%elem_of_cons Hhy; [lia | by apply Hmin].
Qed.

Lemma first_position_owner (l : list Z) (h p : Z) :
  StronglySorted Z.le l -> first_position l h = Some p -> owner_position l h p.
Proof.
  intros Hsorted. unfold first_position, owner_position.
  destruct (List.find (fun x => h <=? x) l) as [x |] eqn:Hfind.
  - intros [= <-]. destruct (find_least h l Hsorted x Hfind) as (Hx & Hhx & Hmin).
    split; [exact Hx |]. left. auto.
  - intros Hhead.
    destruct l as [| x l']; [discriminate |]. injection Hhead as <-.
    split; [by left |]. right. split.
    + intros y Hy%list_elem_of_In.
      pose proof (List.find_none _ _ Hfind y Hy) as Hf. cbn beta in Hf.
      apply Z.leb_gt in Hf. exact Hf.
    + apply StronglySorted_inv in Hsorted as [_ Hx].
      rewrite Forall_forall in Hx.
      intros y [-> | Hy]%elem_of_cons; [lia | by apply Hx].
Qed.

Lemma owner_position_unique (l : list Z) (h p q : Z) :
  owner_position l h p -> owner_position l h q -> p = q.
Proof.
  intros [Hp [[Hhp Hpmin] | [Hbelow Hpmin]]] [Hq [[Hhq Hqmin] | [Hbelow' Hqmin]]].
  - pose proof (Hpmin q Hq Hhq). pose proof (Hqmin p Hp Hhp). lia.
  - pose proof (Hbelow' p Hp). lia.
  - pose proof (Hbelow q Hq). lia.
  - pose proof (Hpmin q Hq). pose proof (Hqmin p Hp). lia.
Qed.

(** The owner position among more hashes, when it is one of the old
    hashes, is the owner position among the old ones. *)
Lemma owner_position_restrict (l l' : list Z) (h p : Z) :
  (forall y, y ∈ l -> y ∈ l') ->
  owner_position l' h p -> p ∈ l -> owner_position l h p.
Proof.
  intros Hsub [_ [[Hhp Hmin] | [Hbelow Hmin]]] Hp; (split; [exact Hp |]).
  - left. split; [exact Hhp |]. intros y Hy. apply Hmin, Hsub, Hy.
  - right. split; intros y Hy; [apply Hbelow | apply Hmin]; apply Hsub, Hy.
Qed.

Lemma first_position_is_Some (l : list Z) (h : Z) :
  l <> [] -> is_Some (first_position l h).
Proof.
  intros Hne. unfold first_position.
  destruct (List.find _ l); [eauto |].
  destruct l; [congruence | cbn; eauto].
Qed.

Lemma first_position_None (l : list Z) (h : Z) :
  first_position l h = None -> l = [].
Proof.
  intros Hnone. destruct l as [| x l]; [reflexivity |].
  destruct (first_position_is_Some (x :: l) h ltac:(congruence)) as [p Hp].
  congruence.
Qed.

(** Adding a server moves a key to the new server or leaves it where it
    was. *)
Lemma lookup_AddNode (c : ConsistentHash) (key node : string) :
  consistent c ->
  lookup (AddNode c node) key = lookup c key
  \/ lookup (AddNode c node) key = node.
Proof.
  intros Hc. pose proof (consistent_AddNode c node Hc) as Hc'.
  destruct Hc as [Hsorted Hiff]. destruct Hc' as [Hsorted' _].
  revert Hsorted'. unfold AddNode.
  destruct (has_node c node); [by left |].
  destruct (fold_add_virtual node (seqZ 0 (virtualNodes c))
              (ring c, sortedHashes c)) as [Hl Hr].
  cbn zeta in Hl, Hr. cbn [fst snd] in Hl, Hr.
  set (news := (fun i => hashKey (virtualKey node i)) <$> seqZ 0 (virtualNodes c)) in *.
  unfold lookup. cbn [sortedHashes ring]. rewrite Hl.
  set (l := sortedHashes c) in *. set (h := hashKey key).
  intros Hsorted'.
  assert (Hmem : forall y, y ∈ sort.Slice (l ++ news) <-> y ∈ l \/ y ∈ news).
  { intros y. unfold sort.Slice.
    by rewrite merge_sort_Permutation, elem_of_app. }
  destruct (first_position (sort.Slice (l ++ news)) h) as [p |] eqn:Hfirst.
  - pose proof (first_position_owner _ h p Hsorted' Hfirst) as Hown.
    rewrite Hr. destruct (decide (p ∈ news)) as [Hnew | Hold]; [by right |].
    left.
    assert (Hp : p ∈ l).
    { destruct Hown as [Hp _]. apply Hmem in Hp as [Hp | Hp]; [exact Hp | contradiction]. }
    assert (Hown_old : owner_position l h p).
    { apply (owner_position_restrict l (sort.Slice (l ++ news))); [| exact Hown | exact Hp].
      intros y Hy. apply Hmem. by left. }
    destruct (first_position_is_Some l h) as [q Hq].
    { intros E. rewrite E in Hp. by apply not_elem_of_nil in Hp. }
    rewrite Hq.
    pose proof (first_position_owner l h q Hsorted Hq) as Hown_q.
    by rewrite (owner_position_unique l h q p Hown_q Hown_old).
  - left. apply first_position_None in Hfirst.
    assert (Hnil : l = []).
    { destruct l as [| x l']; [reflexivity |].
      assert (Hx : x ∈ sort.Slice ((x :: l') ++ news)) by (apply Hmem; left; left).
      rewrite Hfirst in Hx. by apply not_elem_of_nil in Hx. }
    rewrite Hnil. reflexivity.
Qed.

(** C4.  For every key and every ring built by [AddNode] and [RemoveNode],
    adding a server [S] leaves the lookup of the key unchanged or changes it
    to [S]; it never changes it to another server. *)
Theorem C4_adding_a_server_moves_keys_only_to_it
    (c : ConsistentHash) (key S : string) :
  reachable c ->
  exists old new : string,
    GetNode c key = Some old
    /\ GetNode (AddNode c S) key = Some new
    /\ (new = old \/ new = S).
Proof.
  intros Hr. pose proof (reachable_consistent c Hr) as Hc.
  exists (lookup c key), (lookup (AddNode c S) key).
  split; [by apply GetNode_lookup |].
  split; [by apply GetNode_lookup, consistent_AddNode |].
  by apply lookup_AddNode.
Qed.

Lemma C4_adding_a_server_moves_keys_only_to_it_witness :
  exists old new : string,
    GetNode (AddNode (New 3) "node1:8080") "test_key_1" = Some old
    /\ GetNode (AddNode (AddNode (New 3) "node1:8080") "node2:8080") "test_key_1"
       = Some new
    /\ (new = old \/ new = "node2:8080").
Proof.
  exact (C4_adding_a_server_moves_keys_only_to_it
           (AddNode (New 3) "node1:8080") "test_key_1" "node2:8080"
           (reachable_AddNode _ _ (reachable_New 3))).
Defined.

Lemma be_bytes_range (n : nat) (x : Z) :
  Forall (fun b => 0 <= b < 256) (sha256.be_bytes n x).
Proof.
  induction n as [| n IH]; cbn [sha256.be_bytes]; constructor; [| exact IH].
  apply Z.mod_pos_bound. lia.
Qed.

Lemma Sum256_range (data : list byte) :
  Forall (fun b => 0 <= b < 256) (sha256.Sum256 data).
Proof.
  unfold sha256.Sum256.
  induction (sha256.blocks _ sha256.init _) as [| w ws IH]; cbn [flat_map].
  - constructor.
  - apply Forall_app. split; [apply be_bytes_range | exact IH].
Qed.

(** [hashKey] is the first four bytes of the SHA-256 digest, read as a
    big-endian number. *)
Lemma hashKey_big_endian (key : string) :
  hashKey key = big_endian_prefix (sha256.Sum256 (list_byte_of_string key)).
Proof.
  unfold hashKey, big_endian_prefix.
  pose proof (Sum256_range (list_byte_of_string key)) as Hrange.
  destruct (sha256.Sum256 _) as [| h0 [| h1 [| h2 [| h3 rest]]]]; try reflexivity.
  apply Forall_cons in Hrange as [H0 Hrange].
  apply Forall_cons in Hrange as [H1 Hrange].
  apply Forall_cons in Hrange as [H2 Hrange].
  apply Forall_cons in Hrange as [H3 _].
  unfold wrapU32. rewrite !Z.shiftl_mul_pow2 by lia.
  rewrite !Z.mod_small by lia.
  rewrite (Z.lor_comm (h0 * 2 ^ 24)).
  rewrite (lor_disjoint (h1 * 2 ^ 16) h0 24) by lia.
  replace (h1 * 2 ^ 16 + h0 * 2 ^ 24) with ((h0 * 2 ^ 8 + h1) * 2 ^ 16) by lia.
  rewrite (Z.lor_comm _ (h2 * 2 ^ 8)).
  rewrite (lor_disjoint (h2 * 2 ^ 8) (h0 * 2 ^ 8 + h1) 16) by lia.
  replace (h2 * 2 ^ 8 + (h0 * 2 ^ 8 + h1) * 2 ^ 16)
    with ((h0 * 2 ^ 16 + h1 * 2 ^ 8 + h2) * 2 ^ 8) by lia.
  rewrite Z.lor_comm.
  rewrite (lor_disjoint h3 (h0 * 2 ^ 16 + h1 * 2 ^ 8 + h2) 8) by lia. lia.
Qed.

(** The digest of "abc" starts with ba7816bf. *)
Example hashKey_abc : hashKey "abc" = 0xba7816bf.
Proof. vm_compute. reflexivity. Qed.

(** C5.  On every ring built by [AddNode] and [RemoveNode] the sorted array
    is ascending, and [GetNode] returns the server stored at the first
    position of that array whose hash is at least H(key); when there is no
    such position it returns the server stored at index 0; on an empty ring
    it returns the empty result.  H(key) is the first four bytes of the
    SHA-256 digest of the key, read big-endian. *)
Theorem C5_lookup_is_first_position_at_or_after_hash
    (c : ConsistentHash) (key : string) :
  reachable c ->
  StronglySorted Z.le (sortedHashes c)
  /\ match List.find (fun x => hashKey key <=? x) (sortedHashes c) with
     | Some position =>
         exists server,
           ring c !! position = Some server /\ GetNode c key = Some server
     | None =>
         match sortedHashes c with
         | first :: _ =>
             exists server,
               ring c !! first = Some server /\ GetNode c key = Some server
         | [] => ring c = ∅ /\ GetNode c key = Some ""
         end
     end
  /\ hashKey key = big_endian_prefix (sha256.Sum256 (list_byte_of_string key)).
Proof.
  intros Hr. pose proof (reachable_consistent c Hr) as Hc.
  split; [exact (proj1 Hc) |]. split; [| apply hashKey_big_endian].
  rewrite (GetNode_lookup c key Hc). unfold lookup, first_position.
  destruct Hc as [Hsorted Hiff].
  destruct (List.find _ _) as [position |] eqn:Hfind.
  - destruct (find_least _ _ Hsorted position Hfind) as [Hin _].
    apply Hiff in Hin as [server Hserver].
    exists server. by rewrite Hserver.
  - destruct (sortedHashes c) as [| first rest] eqn:Hl.
    + split; [| reflexivity]. apply map_empty. intros h.
      destruct (ring c !! h) eqn:E; [| reflexivity].
      assert (Hh : h ∈ []) by (apply Hiff; eauto).
      by apply not_elem_of_nil in Hh.
    + assert (Hin : first ∈ first :: rest) by left.
      apply Hiff in Hin as [server Hserver].
      exists server. cbn [head]. by rewrite Hserver.
Qed.

(** A key whose hash is above every position wraps to index 0. *)
Example lookup_wraps_to_index_0 :
  let c := AddNode (AddNode (New 3) "node1:8080") "node2:8080" in
  List.find (fun x => hashKey "test_key_1" <=? x) (sortedHashes c) = None
  /\ sortedHashes c !! 0%nat = Some 707209425
  /\ ring c !! 707209425 = Some "node1:8080"
  /\ GetNode c "test_key_1" = Some "node1:8080".
Proof. vm_compute. repeat split; reflexivity. Qed.

Lemma C5_lookup_is_first_position_at_or_after_hash_witness :
  let c := AddNode (AddNode (New 3) "node1:8080") "node2:8080" in
  exists server,
    ring c !! 4105878720 = Some server
    /\ GetNode c "user:42" = Some server.
Proof.
  cbn zeta.
  destruct (C5_lookup_is_first_position_at_or_after_hash
              (AddNode (AddNode (New 3) "node1:8080") "node2:8080") "user:42")
    as (_ & H & _).
  - repeat constructor.
  - assert (Hfind :
        List.find (fun x => hashKey "user:42" <=? x)
          (sortedHashes (AddNode (AddNode (New 3) "node1:8080") "node2:8080"))
        = Some 4105878720) by (vm_compute; reflexivity).
    rewrite Hfind in H. exact H.
Defined.

End ring_claims.

(** * Further properties of the code *)

(** ** The store: strings, counters and expiration *)

Section store_more.
Import time history observe cache.

Lemma isExpired_false_iff (t : Time) (v : Value) :
  isExpired t v = false <-> ExpiresAt v = 0 \/ t <= ExpiresAt v.
Proof.
  unfold isExpired, IsZero, After.
  destruct (Z.eqb_spec (ExpiresAt v) 0) as [Hz | Hnz]; cbn [negb andb].
  - split; auto.
  - rewrite Z.ltb_ge. split; [auto | intros [H | H]; [contradiction | exact H]].
Qed.

Lemma isExpired_true_iff (t : Time) (v : Value) :
  isExpired t v = true <-> ExpiresAt v <> 0 /\ ExpiresAt v < t.
Proof.
  unfold isExpired, IsZero, After.
  destruct (Z.eqb_spec (ExpiresAt v) 0) as [Hz | Hnz]; cbn [negb andb].
  - split; [discriminate | intros [H _]; contradiction].
  - rewrite Z.ltb_lt. split; [auto | intros [_ H]; exact H].
Qed.

Lemma live_store_eq (c : Cache) (t : Time) (key : string) (v : Value) :
  live (store c key v) t key = if isExpired t v then None else Some v.
Proof. unfold live, store. cbn [data]. by rewrite lookup_insert_eq. Qed.

Lemma live_store_ne (c : Cache) (t : Time) (key k : string) (v : Value) :
  key <> k -> live (store c key v) t k = live c t k.
Proof.
  intros Hne. unfold live, store. cbn [data]. by rewrite lookup_insert_ne.
Qed.

Lemma store_same (c : Cache) (key : string) (v : Value) :
  data c !! key = Some v -> store c key v = c.
Proof.
  intros Hk. destruct c as [m]. unfold store. cbn [data] in *.
  by rewrite insert_id.
Qed.

(** X1.  A value stored with a positive TTL reads back until the instant
    [now + ttl] included and is absent afterwards; [Set] overwrites
    whatever the key held and touches no other key. *)
Theorem set_reads_back_until_expiry
    (c : Cache) (now t : Time) (key val : string) (ttl : Duration) :
  0 <= now -> 0 < ttl ->
  let c' := Set_ c now key val ttl in
  (t <= now + ttl -> Get c' t key = (val, true) /\ Exists c' t key = true)
  /\ (now + ttl < t -> Get c' t key = ("", false) /\ Exists c' t key = false)
  /\ forall k, k <> key -> data c' !! k = data c !! k.
Proof.
  intros Hnow Httl. cbn zeta. unfold Set_.
  destruct (Z.ltb_spec 0 ttl) as [_ | Habs]; [| lia].
  set (v := set_ExpiresAt _ _).
  assert (He : ExpiresAt v = now + ttl) by reflexivity.
  split; [| split].
  - intros Ht. unfold Get, Exists. rewrite live_store_eq.
    assert (Hlive : isExpired t v = false) by (apply isExpired_false_iff; lia).
    rewrite Hlive. split; reflexivity.
  - intros Ht. unfold Get, Exists. rewrite live_store_eq.
    assert (Hdead : isExpired t v = true) by (apply isExpired_true_iff; lia).
    rewrite Hdead. split; reflexivity.
  - intros k Hk. unfold store. cbn [data]. by rewrite lookup_insert_ne.
Qed.

Lemma set_reads_back_until_expiry_witness :
  let c' := Set_ New 5000000000 "greeting" "hi" (1 * Second) in
  Get c' 5400000000 "greeting" = ("hi", true)
  /\ Get c' 6200000000 "greeting" = ("", false).
Proof.
  destruct (set_reads_back_until_expiry New 5000000000 5400000000
              "greeting" "hi" (1 * Second) ltac:(lia) ltac:(unfold Second; lia))
    as (Hin & _ & _).
  destruct (set_reads_back_until_expiry New 5000000000 6200000000
              "greeting" "hi" (1 * Second) ltac:(lia) ltac:(unfold Second; lia))
    as (_ & Hout & _).
  split.
  - apply Hin. unfold Second. lia.
  - apply Hout. unfold Second. lia.
Defined.

(** X2.  [Del] removes the entry whether or not it has expired: it answers true
    exactly when the map had the key, so for an expired entry that the
    reaper has not collected [Exists] answers false and [Del] answers true.
    Afterwards the key is absent at every instant and the other keys are
    as before. *)
Theorem del_removes_even_expired_entries (c : Cache) (key : string) :
  ((Del c key).2 = true <-> is_Some (data c !! key))
  /\ (forall (now : Time) (v : Value),
        data c !! key = Some v -> isExpired now v = true ->
        Exists c now key = false /\ (Del c key).2 = true)
  /\ (forall t : Time,
        Exists (Del c key).1 t key = false
        /\ Get (Del c key).1 t key = ("", false))
  /\ forall k, k <> key -> data (Del c key).1 !! k = data c !! k.
Proof.
  unfold Del. destruct (data c !! key) as [w |] eqn:Hk; cbn [fst snd].
  - split; [split; eauto |]. split.
    + intros now v [= ->] He. unfold Exists, live. rewrite Hk, He. auto.
    + split.
      * intros t. unfold Exists, Get, live. cbn [data].
        rewrite lookup_delete_eq. auto.
      * intros k Hne. cbn [data]. by rewrite lookup_delete_ne.
  - split; [split; [discriminate | intros [x Hx]; discriminate] |].
    split; [intros now v Hv; discriminate |]. split; [| reflexivity].
    intros t. unfold Exists, Get, live. rewrite Hk. auto.
Qed.

Lemma del_removes_even_expired_entries_witness :
  let c := Set_ New 100 "k" "v" 10 in
  Exists c 500 "k" = false /\ (Del c "k").2 = true.
Proof.
  destruct (del_removes_even_expired_entries (Set_ New 100 "k" "v" 10) "k")
    as (_ & H & _).
  exact (H 500 (mkValue (a_string "v") 110 TypeString) eq_refl eq_refl).
Defined.

(** What a successful [IncrBy] leaves under the key. *)
Lemma IncrBy_success (c c' : Cache) (now : Time) (key : string) (delta n : Z) :
  is_int64 delta ->
  IncrBy c now key delta = (c', (n, None)) ->
  is_int64 n
  /\ exists v,
      data c' !! key = Some v
      /\ Type_ v = TypeString
      /\ Data v = a_string (strconv.FormatInt n)
      /\ (live c now key = None -> ExpiresAt v = zero)
      /\ (forall w, live c now key = Some w -> ExpiresAt v = ExpiresAt w).
Proof.
  intros Hd. unfold IncrBy.
  destruct (live c now key) as [w |] eqn:Hl.
  - destruct (ValueType_eqb (Type_ w) TypeString) eqn:Ht; cbn [negb];
      [| discriminate].
    apply ValueType_eqb_eq in Ht.
    destruct (Data w); try discriminate.
    destruct (strconv.ParseInt s); [| discriminate].
    intros [= <- <-]. split; [apply wrap64_range |].
    eexists. split; [cbn [store data]; apply lookup_insert_eq |].
    cbn [Type_ Data ExpiresAt set_Data]. repeat split; auto.
    + discriminate.
    + by intros w' [= ->].
  - intros [= <- <-]. split; [exact Hd |].
    eexists. split; [cbn [store data]; apply lookup_insert_eq |].
    cbn [Type_ Data ExpiresAt]. repeat split; auto. discriminate.
Qed.

Lemma IncrBy_on_integer (c : Cache) (now : Time) (key s : string)
    (v : Value) (n delta : Z) :
  live c now key = Some v -> Type_ v = TypeString -> Data v = a_string s ->
  strconv.ParseInt s = Some n ->
  IncrBy c now key delta
  = (store c key (set_Data v (a_string (strconv.FormatInt (wrap64 (n + delta))))),
     (wrap64 (n + delta), None)).
Proof.
  intros Hl Ht Hd Hp. unfold IncrBy. rewrite Hl, Ht, Hd, Hp. reflexivity.
Qed.

(** X3.  The counter is additive: once [IncrBy] has answered [n], a further
    [IncrBy] by [delta'] on the key, as long as it has not expired, answers
    [n + delta'] wrapped to int64, whatever text the key held at first.  The
    text stored is the canonical decimal of the answer, and the expiration
    of the key is kept. *)
Theorem incrby_is_additive
    (c c' : Cache) (now t : Time) (key : string) (delta delta' n : Z) :
  is_int64 delta ->
  IncrBy c now key delta = (c', (n, None)) ->
  Exists c' t key = true ->
  Get c' t key = (strconv.FormatInt n, true)
  /\ (IncrBy c' t key delta').2 = (wrap64 (n + delta'), None)
  /\ forall w, live c now key = Some w -> TTL c' t key = TTL c t key.
Proof.
  intros Hd Hincr Hex.
  destruct (IncrBy_success c c' now key delta n Hd Hincr)
    as (Hn & v & Hk & Ht & Hdata & _ & Hexp).
  assert (Hl : live c' t key = Some v).
  { unfold Exists, live in *. rewrite Hk in *.
    by destruct (isExpired t v). }
  split; [| split].
  - unfold Get. rewrite Hl, Ht, Hdata. reflexivity.
  - rewrite (IncrBy_on_integer c' t key _ v n delta' Hl Ht Hdata
               (ParseInt_FormatInt n Hn)).
    reflexivity.
  - intros w Hw. specialize (Hexp w Hw). apply live_Some in Hw as [Hw _].
    apply live_Some in Hl as [_ Hlv].
    unfold TTL, live. rewrite Hk, Hw, Hlv.
    assert (Hlw : isExpired t w = false).
    { apply isExpired_false_iff. apply isExpired_false_iff in Hlv. lia. }
    rewrite Hlw, Hexp. reflexivity.
Qed.

Lemma incrby_is_additive_witness :
  (IncrBy (IncrBy (Set_ New 10 "n" "+0041" 0) 20 "n" 1).1 30 "n" (-50)).2 = (-8, None)
  /\ Get (IncrBy (Set_ New 10 "n" "+0041" 0) 20 "n" 1).1 30 "n" = ("42", true).
Proof.
  destruct (incrby_is_additive (Set_ New 10 "n" "+0041" 0)
              (IncrBy (Set_ New 10 "n" "+0041" 0) 20 "n" 1).1
              20 30 "n" 1 (-50) 42) as (Hget & Hincr & _).
  - unfold is_int64, minInt64, maxInt64. lia.
  - reflexivity.
  - reflexivity.
  - split; [exact Hincr | exact Hget].
Defined.



(** X5.  [Persist] on a live key answers true and clears the expiration: from
    then on the key is live at every instant with the payload it had, and
    [TTL] answers -1s.  On a key that is missing or has expired it answers
    false and changes nothing. *)
Theorem persist_makes_a_key_permanent (c : Cache) (now : Time) (key : string) :
  (forall v : Value,
      live c now key = Some v ->
      (Persist c now key).2 = true
      /\ forall t : Time,
          live (Persist c now key).1 t key = Some (set_ExpiresAt v zero)
          /\ TTL (Persist c now key).1 t key = -1 * Second)
  /\ (live c now key = None -> Persist c now key = (c, false)).
Proof.
  unfold Persist. split.
  - intros v Hl. rewrite Hl. cbn [fst snd]. split; [reflexivity |].
    intros t. unfold TTL. rewrite live_store_eq. split; reflexivity.
  - intros Hl. by rewrite Hl.
Qed.

Lemma persist_makes_a_key_permanent_witness :
  let c := (Persist (Set_ New 10 "k" "v" 5) 12 "k").1 in
  Get c 1000 "k" = ("v", true) /\ TTL c 1000 "k" = -1 * Second.
Proof.
  destruct (persist_makes_a_key_permanent (Set_ New 10 "k" "v" 5) 12 "k")
    as [H _].
  destruct (H (mkValue (a_string "v") 15 TypeString) eq_refl) as [_ Ht].
  cbn zeta. unfold Get. split.
  - rewrite (proj1 (Ht 1000)). reflexivity.
  - exact (proj2 (Ht 1000)).
Defined.

Lemma live_cleanupExpired (c : Cache) (now t : Time) (key : string) :
  now <= t -> live (cleanupExpired c now) t key = live c t key.
Proof.
  intros Hnt. unfold live, cleanupExpired. cbn [data].
  destruct (data c !! key) as [v |] eqn:Hk.
  - destruct (isExpired now v) eqn:He.
    + assert (Hgone : filter (fun kv => isExpired now kv.2 = false) (data c) !! key
                      = None).
      { apply map_lookup_filter_None. right. intros w Hw.
        cbn [snd]. rewrite Hk in Hw. injection Hw as <-. congruence. }
      rewrite Hgone.
      assert (Ht : isExpired t v = true).
      { apply isExpired_true_iff. apply isExpired_true_iff in He. lia. }
      by rewrite Ht.
    + assert (Hkept : filter (fun kv => isExpired now kv.2 = false) (data c) !! key
                      = Some v)
        by (apply map_lookup_filter_Some; auto).
      by rewrite Hkept.
  - assert (Hgone : filter (fun kv => isExpired now kv.2 = false) (data c) !! key
                    = None)
      by (apply map_lookup_filter_None; left; exact Hk).
    by rewrite Hgone.
Qed.

(** X6.  A pass of the reaper removes exactly the entries that have expired, and
    no reader can tell: from the instant of the pass on, every read-only
    operation answers on the reaped store what it answers on the store
    before. *)
Theorem reaper_is_invisible_to_readers
    (c : Cache) (now t : Time) (key arg : string) :
  (forall v, data (cleanupExpired c now) !! key = Some v
             <-> data c !! key = Some v /\ isExpired now v = false)
  /\ (now <= t ->
      let c' := cleanupExpired c now in
      Get c' t key = Get c t key
      /\ Exists c' t key = Exists c t key
      /\ TTL c' t key = TTL c t key
      /\ HGet c' t key arg = HGet c t key arg
      /\ HExists c' t key arg = HExists c t key arg
      /\ HGetAll c' t key = HGetAll c t key
      /\ LLen c' t key = LLen c t key
      /\ SMembers c' t key = SMembers c t key
      /\ SIsMember c' t key arg = SIsMember c t key arg).
Proof.
  split.
  - intros v. unfold cleanupExpired. cbn [data].
    by rewrite map_lookup_filter_Some.
  - intros Hnt. cbn zeta.
    unfold Get, Exists, TTL, HGet, HExists, HGetAll, LLen, SMembers, SIsMember,
      live_of.
    rewrite (live_cleanupExpired c now t key Hnt). repeat split; reflexivity.
Qed.

Lemma reaper_is_invisible_to_readers_witness :
  let c := Set_ (Set_ New 10 "old" "x" 5) 10 "new" "y" 500 in
  data (cleanupExpired c 100) !! "old" = None
  /\ Get (cleanupExpired c 100) 200 "new" = Get c 200 "new".
Proof.
  cbn zeta. split; [reflexivity |].
  destruct (reaper_is_invisible_to_readers
              (Set_ (Set_ New 10 "old" "x" 5) 10 "new" "y" 500) 100 200 "new" "")
    as [_ H].
  exact (proj1 (H ltac:(lia))).
Defined.

End store_more.

(** ** The store: hashes, lists and sets *)

Section collections_more.
Import time history observe cache.

Lemma live_of_store_eq (c : Cache) (now : Time) (key : string) (v : Value)
    (t : ValueType) :
  isExpired now v = false -> Type_ v = t ->
  live_of (store c key v) now key t = Some v.
Proof.
  intros He Ht. unfold live_of. rewrite live_store_eq, He.
  apply ValueType_eqb_eq in Ht. by rewrite Ht.
Qed.

Lemma live_of_Some (c : Cache) (now : Time) (key : string) (t : ValueType)
    (v : Value) :
  live_of c now key t = Some v
  <-> data c !! key = Some v /\ isExpired now v = false /\ Type_ v = t.
Proof.
  unfold live_of, live. destruct (data c !! key) as [w |].
  - destruct (isExpired now w) eqn:He.
    + split; [discriminate | intros ([= <-] & ? & _); congruence].
    + destruct (ValueType_eqb (Type_ w) t) eqn:Ht; cbn [negb].
      * apply ValueType_eqb_eq in Ht.
        split; [intros [= <-]; auto | intros (? & _); done].
      * split; [discriminate |].
        intros ([= <-] & _ & Hw). apply ValueType_eqb_eq in Hw. congruence.
  - split; [discriminate | intros (? & _); discriminate].
Qed.

(** What the shared preamble gives on a key the operation can work on. *)
Lemma open_or_create_usable (c : Cache) (now : Time) (key : string)
    (t : ValueType) (empty : any) :
  usable_as c now key t ->
  (live_of c now key t = None
   /\ open_or_create c now key t empty
      = Some (store c key (mkValue empty zero t), mkValue empty zero t))
  \/ exists value,
      live_of c now key t = Some value
      /\ open_or_create c now key t empty = Some (c, value).
Proof.
  unfold usable_as, open_or_create, live_of.
  intros [Hl | (value & Hl & Ht)]; rewrite Hl.
  - left. auto.
  - right. exists value. apply ValueType_eqb_eq in Ht. rewrite Ht. auto.
Qed.

Lemma isExpired_set_Data (now : Time) (v : Value) (d : any) :
  isExpired now (set_Data v d) = isExpired now v.
Proof. reflexivity. Qed.

Lemma isExpired_fresh (now : Time) (d : any) (t : ValueType) :
  isExpired now (mkValue d zero t) = false.
Proof. reflexivity. Qed.

(** X7.  [HSet] on a key that is missing, expired or holds a hash puts the
    field: the hash read back is the one before with the field set to the
    value, so [HGet] of the field answers the value and the other fields
    answer as before; no other key is touched. *)
Theorem hset_puts_one_field
    (c : Cache) (now : Time) (key field val : string) :
  all_well_typed c -> usable_as c now key TypeHash ->
  let c' := HSet c now key field val in
  HGetAll c' now key = <[field := val]> (HGetAll c now key)
  /\ HGet c' now key field = (val, true)
  /\ HExists c' now key field = true
  /\ (forall f, f <> field -> HGet c' now key f = HGet c now key f)
  /\ forall k, k <> key -> data c' !! k = data c !! k.
Proof.
  intros Hc Hu. cbn zeta.
  assert (Hmain :
    exists (v : Value) (hash : gmap string string),
      HGetAll c now key = hash
      /\ (forall f, HGet c now key f
                    = match hash !! f with Some x => (x, true) | None => ("", false) end)
      /\ isExpired now v = false /\ Type_ v = TypeHash
      /\ HSet c now key field val
         = store c key (set_Data v (a_map_string (<[field := val]> hash)))).
  { unfold HSet, HGetAll, HGet.
    destruct (open_or_create_usable c now key TypeHash (a_map_string ∅) Hu)
      as [[Hl Ho] | (value & Hl & Ho)]; rewrite Hl, Ho.
    - exists (mkValue (a_map_string ∅) zero TypeHash), ∅.
      cbn [Data]. repeat split; try reflexivity.
      unfold store. cbn [data set_Data Data ExpiresAt Type_].
      by rewrite insert_insert_eq.
    - pose proof (live_of_typed _ _ _ _ _ Hc Hl) as [Hv Ht].
      apply live_of_Some in Hl as (_ & He & Hty).
      unfold well_typed in Hv. rewrite Hty in Hv. destruct Hv as [m Hm].
      rewrite Hm. exists value, m. auto. }
  destruct Hmain as (v & hash & Hall & Hget & He & Hty & ->).
  assert (Hlive : live_of (store c key (set_Data v (a_map_string (<[field := val]> hash))))
                    now key TypeHash
                  = Some (set_Data v (a_map_string (<[field := val]> hash))))
    by (apply live_of_store_eq; [by rewrite isExpired_set_Data | exact Hty]).
  unfold HGetAll at 1, HGet at 1 2, HExists. rewrite Hlive.
  cbn [Data set_Data]. rewrite Hall, lookup_insert_eq.
  repeat split.
  - intros f Hf. rewrite lookup_insert_ne by congruence. by rewrite Hget.
  - intros k Hk. unfold store. cbn [data]. by rewrite lookup_insert_ne.
Qed.

Lemma hset_puts_one_field_witness :
  let c := HSet (HSet New 10 "h" "a" "1") 30 "h" "b" "2" in
  HGet c 30 "h" "b" = ("2", true) /\ HGet c 30 "h" "a" = ("1", true).
Proof.
  cbn zeta.
  assert (Hc : all_well_typed (HSet New 10 "h" "a" "1")).
  { apply (apply_well_typed New 10 (OpHSet "h" "a" "1")).
    intros k v Hk. cbn in Hk. by rewrite lookup_empty in Hk. }
  assert (Hu : usable_as (HSet New 10 "h" "a" "1") 30 "h" TypeHash).
  { right. eexists. split; reflexivity. }
  destruct (hset_puts_one_field (HSet New 10 "h" "a" "1") 30 "h" "b" "2" Hc Hu)
    as (_ & Hb & _ & Ha & _).
  split; [exact Hb |]. rewrite (Ha "a") by discriminate. reflexivity.
Defined.

(** X8.  [HDel] answers what [HExists] answered before it, and the hash read
    back afterwards is the one before without the field; no other key is
    touched, and a hash emptied this way is not removed. *)
Theorem hdel_removes_one_field (c : Cache) (now : Time) (key field : string) :
  (HDel c now key field).2 = HExists c now key field
  /\ HGetAll (HDel c now key field).1 now key = delete field (HGetAll c now key)
  /\ Exists (HDel c now key field).1 now key = Exists c now key
  /\ forall k, k <> key -> data (HDel c now key field).1 !! k = data c !! k.
Proof.
  unfold HDel, HExists.
  destruct (live_of c now key TypeHash) as [value |] eqn:Hl.
  2:{ cbn [fst snd]. unfold HGetAll. rewrite Hl, delete_empty. auto. }
  destruct (Data value) as [| | | | hash |] eqn:Hd; cbn [fst snd];
    try (unfold HGetAll; rewrite Hl, Hd, delete_empty; by auto).
  destruct (hash !! field) as [x |] eqn:Hf; cbn [fst snd].
  - apply live_of_Some in Hl as (Hk & He & Hty).
    split; [reflexivity |]. split; [| split].
    + unfold HGetAll at 1.
      rewrite live_of_store_eq by (auto using isExpired_set_Data).
      cbn [Data set_Data].
      unfold HGetAll. rewrite (proj2 (live_of_Some c now key TypeHash value))
        by auto. by rewrite Hd.
    + unfold Exists. rewrite live_store_eq, isExpired_set_Data, He.
      unfold live. by rewrite Hk, He.
    + intros k Hne. unfold store. cbn [data]. by rewrite lookup_insert_ne.
  - split; [reflexivity |]. split; [| by auto].
    unfold HGetAll. rewrite Hl, Hd. symmetry. by apply delete_id.
Qed.

Lemma hdel_removes_one_field_witness :
  let c := HSet (HSet New 10 "h" "a" "1") 10 "h" "b" "2" in
  (HDel c 20 "h" "a").2 = true
  /\ HGetAll (HDel c 20 "h" "a").1 20 "h" = delete "a" (HGetAll c 20 "h")
  /\ data (HDel c 20 "h" "a").1 !! "other" = data c !! "other".
Proof.
  cbn zeta.
  destruct (hdel_removes_one_field
              (HSet (HSet New 10 "h" "a" "1") 10 "h" "b" "2") 20 "h" "a")
    as (H1 & H2 & _ & H4).
  split; [by rewrite H1 |]. split; [exact H2 |].
  apply H4. discriminate.
Defined.

(** What a push finds and leaves: the entry it writes back is live, of
    type list, and carries the new elements. *)
Lemma push_shape (c : Cache) (now : Time) (key : string) :
  all_well_typed c -> usable_as c now key TypeList ->
  exists (c1 : Cache) (v : Value),
    open_or_create c now key TypeList (a_strings []) = Some (c1, v)
    /\ Data v = a_strings (list_at c now key)
    /\ isExpired now v = false /\ Type_ v = TypeList
    /\ forall k, k <> key -> data c1 !! k = data c !! k.
Proof.
  intros Hc Hu. unfold list_at.
  destruct (open_or_create_usable c now key TypeList (a_strings []) Hu)
    as [[Hl Ho] | (value & Hl & Ho)]; rewrite Hl, Ho.
  - eexists _, _. split; [reflexivity |]. repeat split.
    intros k Hk. unfold store. cbn [data]. by rewrite lookup_insert_ne.
  - pose proof (live_of_typed _ _ _ _ _ Hc Hl) as [Hv _].
    apply live_of_Some in Hl as (_ & He & Hty).
    unfold well_typed in Hv. rewrite Hty in Hv. destruct Hv as [l Hd].
    exists c, value. rewrite Hd. auto.
Qed.

Lemma list_at_store (c : Cache) (now : Time) (key : string) (v : Value)
    (l : list string) :
  isExpired now v = false -> Type_ v = TypeList ->
  list_at (store c key (set_Data v (a_strings l))) now key = l
  /\ Exists (store c key (set_Data v (a_strings l))) now key = true.
Proof.
  intros He Hty. unfold list_at, Exists.
  rewrite live_of_store_eq by (auto using isExpired_set_Data).
  by rewrite live_store_eq, isExpired_set_Data, He.
Qed.

(** X9.  [LPush] on a key that is missing, expired or holds a list puts the
    values, in the order of the call, in front of the elements the key
    held, and [RPush] puts them behind; both answer the new length.  The
    key exists afterwards even when no value was given, and no other key
    is touched. *)
Theorem pushes_extend_the_list_at_either_end
    (c : Cache) (now : Time) (key : string) (values : list string) :
  all_well_typed c -> usable_as c now key TypeList ->
  let old := list_at c now key in
  (list_at (LPush c now key values).1 now key = (values ++ old)%list
   /\ (LPush c now key values).2 = length (values ++ old)%list
   /\ Exists (LPush c now key values).1 now key = true
   /\ forall k, k <> key -> data (LPush c now key values).1 !! k = data c !! k)
  /\ (list_at (RPush c now key values).1 now key = (old ++ values)%list
      /\ (RPush c now key values).2 = length (old ++ values)%list
      /\ Exists (RPush c now key values).1 now key = true
      /\ forall k, k <> key -> data (RPush c now key values).1 !! k = data c !! k).
Proof.
  intros Hc Hu. cbn zeta.
  destruct (push_shape c now key Hc Hu) as (c1 & v & Ho & Hd & He & Hty & Hk).
  unfold LPush, RPush. rewrite Ho, Hd. cbn [fst snd].
  rewrite lpush_loop_app.
  split.
  - destruct (list_at_store c1 now key v (values ++ list_at c now key) He Hty)
      as [H1 H2].
    repeat split; [exact H1 | exact H2 |].
    intros k Hne. unfold store. cbn [data].
    rewrite lookup_insert_ne by congruence. by apply Hk.
  - destruct (list_at_store c1 now key v (list_at c now key ++ values) He Hty)
      as [H1 H2].
    repeat split; [exact H1 | exact H2 |].
    intros k Hne. unfold store. cbn [data].
    rewrite lookup_insert_ne by congruence. by apply Hk.
Qed.

Lemma pushes_extend_the_list_at_either_end_witness :
  let c := (RPush New 10 "q" ["a"; "b"]).1 in
  list_at (LPush c 20 "q" ["x"; "y"]).1 20 "q" = ["x"; "y"; "a"; "b"]
  /\ (RPush c 20 "q" ["x"; "y"]).2 = 4%nat.
Proof.
  cbn zeta.
  assert (Hc : all_well_typed (RPush New 10 "q" ["a"; "b"]).1).
  { apply (apply_well_typed New 10 (OpRPush "q" ["a"; "b"])).
    intros k v Hk. cbn in Hk. by rewrite lookup_empty in Hk. }
  assert (Hu : usable_as (RPush New 10 "q" ["a"; "b"]).1 20 "q" TypeList).
  { right. eexists. split; reflexivity. }
  destruct (pushes_extend_the_list_at_either_end
              (RPush New 10 "q" ["a"; "b"]).1 20 "q" ["x"; "y"] Hc Hu)
    as ((HL & _) & (_ & HR & _)).
  split; [exact HL | exact HR].
Defined.

Lemma list_at_cases (c : Cache) (now : Time) (key : string) :
  (list_at c now key = []
   /\ LPop c now key = (c, ("", false)) /\ RPop c now key = (c, ("", false)))
  \/ exists v,
      live_of c now key TypeList = Some v
      /\ Data v = a_strings (list_at c now key)
      /\ list_at c now key <> [].
Proof.
  unfold list_at, LPop, RPop.
  destruct (live_of c now key TypeList) as [v |] eqn:Hl; [| by left].
  destruct (Data v) as [| | | l | |] eqn:Hd; try by left.
  destruct l as [| x l]; [by left |].
  right. exists v. auto.
Qed.

(** X10.  [LPop] takes the first element of the list a key holds and [RPop] the
    last, leaving the others in order; on a key with no element (missing,
    expired, of another variant, or an emptied list) both answer not-found
    and change nothing.  Popping the last element leaves the key in place
    with an empty list. *)
Theorem pops_take_from_either_end (c : Cache) (now : Time) (key : string) :
  (list_at c now key = [] ->
   LPop c now key = (c, ("", false)) /\ RPop c now key = (c, ("", false)))
  /\ (forall x rest,
        list_at c now key = x :: rest ->
        (LPop c now key).2 = (x, true)
        /\ list_at (LPop c now key).1 now key = rest
        /\ Exists (LPop c now key).1 now key = true)
  /\ (forall front x,
        list_at c now key = (front ++ [x])%list ->
        (RPop c now key).2 = (x, true)
        /\ list_at (RPop c now key).1 now key = front
        /\ Exists (RPop c now key).1 now key = true).
Proof.
  destruct (list_at_cases c now key) as [(Hnil & HL & HR) | (v & Hl & Hd & Hne)].
  - rewrite Hnil. split; [auto |].
    split; [discriminate |]. intros [| ? ?] x H; discriminate H.
  - split; [intros H; contradiction |].
    pose proof Hl as Hl'. apply live_of_Some in Hl' as (_ & He & Hty).
    split.
    + intros x rest Hx. unfold LPop. rewrite Hl, Hd, Hx. cbn [fst snd].
      destruct (list_at_store c now key v rest He Hty) as [H1 H2]. auto.
    + intros front x Hx. unfold RPop. rewrite Hl, Hd, Hx.
      rewrite last_snoc. cbn [fst snd].
      rewrite length_app. cbn [length].
      replace (length front + 1 - 1)%nat with (length front) by lia.
      rewrite take_app_length.
      destruct (list_at_store c now key v front He Hty) as [H1 H2]. auto.
Qed.

Lemma pops_take_from_either_end_witness :
  let c := (RPush New 10 "q" ["a"; "b"; "c"]).1 in
  (LPop c 20 "q").2 = ("a", true) /\ (RPop c 20 "q").2 = ("c", true)
  /\ LPop New 20 "q" = (New, ("", false)).
Proof.
  cbn zeta.
  destruct (pops_take_from_either_end (RPush New 10 "q" ["a"; "b"; "c"]).1 20 "q")
    as (_ & HL & HR).
  destruct (pops_take_from_either_end New 20 "q") as (HN & _).
  split; [exact (proj1 (HL "a" ["b"; "c"] eq_refl)) |].
  split; [exact (proj1 (HR ["a"; "b"] "c" eq_refl)) |].
  exact (proj1 (HN eq_refl)).
Defined.

(** X11.  [LLen] is the length of the list a key holds, so after a push it is
    the count the push answered, whatever end was pushed to. *)
Theorem llen_counts_the_elements
    (c : Cache) (now : Time) (key : string) (values : list string) :
  LLen c now key = length (list_at c now key)
  /\ (all_well_typed c -> usable_as c now key TypeList ->
      LLen (LPush c now key values).1 now key = (LPush c now key values).2
      /\ LLen (RPush c now key values).1 now key = (RPush c now key values).2
      /\ (LPush c now key values).2
         = (LLen c now key + length values)%nat).
Proof.
  assert (Hlen : forall c0, LLen c0 now key = length (list_at c0 now key)).
  { intros c0. unfold LLen, list_at.
    destruct (live_of c0 now key TypeList) as [v |]; [| reflexivity].
    destruct (Data v); reflexivity. }
  split; [apply Hlen |].
  intros Hc Hu. rewrite !Hlen.
  destruct (push_shape c now key Hc Hu) as (c1 & v & Ho & Hd & He & Hty & Hk).
  unfold LPush, RPush. rewrite Ho, Hd. cbn [fst snd].
  rewrite lpush_loop_app.
  destruct (list_at_store c1 now key v (values ++ list_at c now key) He Hty)
    as [-> _].
  destruct (list_at_store c1 now key v (list_at c now key ++ values) He Hty)
    as [-> _].
  repeat split. rewrite length_app. lia.
Qed.

Lemma llen_counts_the_elements_witness :
  LLen (LPush (RPush New 10 "q" ["a"]).1 20 "q" ["x"; "y"]).1 20 "q" = 3%nat.
Proof.
  assert (Hc : all_well_typed (RPush New 10 "q" ["a"]).1).
  { apply (apply_well_typed New 10 (OpRPush "q" ["a"])).
    intros k v Hk. cbn in Hk. by rewrite lookup_empty in Hk. }
  assert (Hu : usable_as (RPush New 10 "q" ["a"]).1 20 "q" TypeList).
  { right. eexists. split; reflexivity. }
  destruct (llen_counts_the_elements (RPush New 10 "q" ["a"]).1 20 "q" ["x"; "y"])
    as [_ H].
  destruct (H Hc Hu) as (-> & _ & _). reflexivity.
Defined.

Lemma elem_of_present (set : gmap string bool) (m : string) :
  m ∈ present set <-> set_get set m = true.
Proof.
  unfold present, set_get. rewrite elem_of_dom. split.
  - intros [x Hx]. apply map_lookup_filter_Some in Hx as [Hx Hp].
    cbn in Hp. rewrite Hx. exact Hp.
  - destruct (set !! m) as [b |] eqn:Hm; cbn; [| discriminate].
    intros ->. exists true. by apply map_lookup_filter_Some.
Qed.

Lemma present_insert (set : gmap string bool) (m : string) :
  present (<[m := true]> set) = present set ∪ {[m]}.
Proof.
  apply set_eq. intros x. rewrite elem_of_union, elem_of_singleton.
  rewrite !elem_of_present. unfold set_get.
  destruct (decide (x = m)) as [-> | Hne].
  - rewrite lookup_insert_eq. cbn. tauto.
  - rewrite lookup_insert_ne by congruence. tauto.
Qed.

Lemma present_delete (set : gmap string bool) (m : string) :
  present (delete m set) = present set ∖ {[m]}.
Proof.
  apply set_eq. intros x. rewrite elem_of_difference, elem_of_singleton.
  rewrite !elem_of_present. unfold set_get.
  destruct (decide (x = m)) as [-> | Hne].
  - rewrite lookup_delete_eq. cbn. split; [discriminate | tauto].
  - rewrite lookup_delete_ne by congruence. tauto.
Qed.

Lemma size_new_member (m : string) (L P : gset string) :
  m ∉ P -> size (({[m]} ∪ L) ∖ P) = S (size (L ∖ (P ∪ {[m]}))).
Proof.
  intros Hm.
  replace (({[m]} ∪ L) ∖ P) with ({[m]} ∪ L ∖ (P ∪ {[m]})).
  - rewrite size_union, size_singleton; [reflexivity |].
    set_unfold. intros x. tauto.
  - set_unfold. intros x. destruct (decide (x = m)); subst; tauto.
Qed.

Lemma size_old_member (m : string) (L P : gset string) :
  m ∈ P -> size (({[m]} ∪ L) ∖ P) = size (L ∖ P).
Proof.
  intros Hm. f_equal. set_unfold. intros x.
  destruct (decide (x = m)); subst; tauto.
Qed.

Lemma size_member_removed (m : string) (L P : gset string) :
  m ∈ P -> size (({[m]} ∪ L) ∩ P) = S (size (L ∩ (P ∖ {[m]}))).
Proof.
  intros Hm.
  replace (({[m]} ∪ L) ∩ P) with ({[m]} ∪ L ∩ (P ∖ {[m]})).
  - rewrite size_union, size_singleton; [reflexivity |].
    set_unfold. intros x. tauto.
  - set_unfold. intros x. destruct (decide (x = m)); subst; tauto.
Qed.

Lemma size_member_missing (m : string) (L P : gset string) :
  m ∉ P -> size (({[m]} ∪ L) ∩ P) = size (L ∩ P).
Proof.
  intros Hm. f_equal. set_unfold. intros x.
  destruct (decide (x = m)); subst; tauto.
Qed.

Lemma size_of_nothing (P : gset string) :
  size (∅ ∖ P) = 0%nat /\ size (∅ ∩ P) = 0%nat.
Proof.
  replace (∅ ∖ P) with (∅ : gset string) by (set_unfold; tauto).
  replace (∅ ∩ P) with (∅ : gset string) by (set_unfold; tauto).
  by rewrite size_empty.
Qed.

Lemma sadd_loop_spec (members : list string) (set : gmap string bool) (k : nat) :
  exists set',
    fold_left
      (fun '(set, added) member =>
         if negb (set_get set member)
         then (<[member := true]> set, S added)
         else (set, added))
      members (set, k)
    = (set', (k + size (list_to_set members ∖ present set : gset string))%nat)
    /\ present set' = present set ∪ list_to_set members.
Proof.
  revert set k. induction members as [| m ms IH]; intros set k.
  - exists set. cbn [fold_left list_to_set]. split.
    + rewrite (proj1 (size_of_nothing (present set))). f_equal. lia.
    + set_unfold. tauto.
  - cbn [fold_left list_to_set].
    destruct (set_get set m) eqn:Hm; cbn [negb].
    + destruct (IH set k) as (set' & -> & Hp). exists set'.
      apply elem_of_present in Hm. split.
      * by rewrite size_old_member.
      * rewrite Hp. set_unfold. intros x.
        destruct (decide (x = m)); subst; tauto.
    + destruct (IH (<[m := true]> set) (S k)) as (set' & -> & Hp). exists set'.
      assert (Hnot : m ∉ present set)
        by (rewrite elem_of_present; congruence).
      rewrite present_insert in Hp |- *. split.
      * rewrite size_new_member by exact Hnot. f_equal. lia.
      * rewrite Hp. set_unfold. tauto.
Qed.

Lemma srem_loop_spec (members : list string) (set : gmap string bool) (k : nat) :
  exists set',
    fold_left
      (fun '(set, removed) member =>
         if set_get set member
         then (delete member set, S removed)
         else (set, removed))
      members (set, k)
    = (set', (k + size (list_to_set members ∩ present set : gset string))%nat)
    /\ present set' = present set ∖ list_to_set members.
Proof.
  revert set k. induction members as [| m ms IH]; intros set k.
  - exists set. cbn [fold_left list_to_set]. split.
    + rewrite (proj2 (size_of_nothing (present set))). f_equal. lia.
    + set_unfold. tauto.
  - cbn [fold_left list_to_set].
    destruct (set_get set m) eqn:Hm.
    + destruct (IH (delete m set) (S k)) as (set' & -> & Hp). exists set'.
      apply elem_of_present in Hm.
      rewrite present_delete in Hp |- *. split.
      * rewrite size_member_removed by exact Hm. f_equal. lia.
      * rewrite Hp. set_unfold. tauto.
    + destruct (IH set k) as (set' & -> & Hp). exists set'.
      assert (Hnot : m ∉ present set)
        by (rewrite elem_of_present; congruence).
      split.
      * by rewrite size_member_missing.
      * rewrite Hp. set_unfold. intros x.
        destruct (decide (x = m)); subst; tauto.
Qed.

Lemma SIsMember_members_at (c : Cache) (now : Time) (key m : string) :
  SIsMember c now key m = true <-> m ∈ members_at c now key.
Proof.
  unfold SIsMember, members_at.
  destruct (live_of c now key TypeSet) as [v |];
    [| split; [discriminate | by rewrite elem_of_empty]].
  destruct (Data v); try (split; [discriminate | by rewrite elem_of_empty]).
  symmetry. apply elem_of_present.
Qed.

Lemma members_at_store (c : Cache) (now : Time) (key : string) (v : Value)
    (set : gmap string bool) :
  isExpired now v = false -> Type_ v = TypeSet ->
  members_at (store c key (set_Data v (a_map_bool set))) now key = present set.
Proof.
  intros He Hty. unfold members_at.
  by rewrite live_of_store_eq by (auto using isExpired_set_Data).
Qed.

(** X12.  [SAdd] on a key that is missing, expired or holds a set makes every
    given member a member and keeps the ones the set had; it answers the
    number of distinct given members that were not members before, so a
    member repeated in the call counts once.  No other key is touched. *)
Theorem sadd_counts_the_new_members
    (c : Cache) (now : Time) (key : string) (members : list string) :
  all_well_typed c -> usable_as c now key TypeSet ->
  let c' := (SAdd c now key members).1 in
  members_at c' now key = members_at c now key ∪ list_to_set members
  /\ (SAdd c now key members).2
     = size (list_to_set members ∖ members_at c now key : gset string)
  /\ (forall m, SIsMember c' now key m = true
                <-> SIsMember c now key m = true \/ m ∈ members)
  /\ forall k, k <> key -> data c' !! k = data c !! k.
Proof.
  intros Hc Hu. cbn zeta.
  assert (Hshape :
    exists (c1 : Cache) (v : Value) (set : gmap string bool),
      open_or_create c now key TypeSet (a_map_bool ∅) = Some (c1, v)
      /\ Data v = a_map_bool set /\ members_at c now key = present set
      /\ isExpired now v = false /\ Type_ v = TypeSet
      /\ forall k, k <> key -> data c1 !! k = data c !! k).
  { unfold members_at.
    destruct (open_or_create_usable c now key TypeSet (a_map_bool ∅) Hu)
      as [[Hl Ho] | (value & Hl & Ho)]; rewrite Hl, Ho.
    - eexists _, _, ∅. split; [reflexivity |]. split; [reflexivity |].
      split.
      { apply set_eq. intros x. rewrite elem_of_present, elem_of_empty.
        unfold set_get. by rewrite lookup_empty. }
      split; [reflexivity |]. split; [reflexivity |].
      intros k Hk. unfold store. cbn [data]. by rewrite lookup_insert_ne.
    - pose proof (live_of_typed _ _ _ _ _ Hc Hl) as [Hv _].
      apply live_of_Some in Hl as (_ & He & Hty).
      unfold well_typed in Hv. rewrite Hty in Hv. destruct Hv as [m Hd].
      exists c, value, m. rewrite Hd. repeat split; auto. }
  destruct Hshape as (c1 & v & set & Ho & Hd & Hm & He & Hty & Hk).
  assert (Hfst : members_at (SAdd c now key members).1 now key
                 = members_at c now key ∪ list_to_set members
                 /\ (SAdd c now key members).2
                    = size (list_to_set members ∖ members_at c now key : gset string)
                 /\ forall k, k <> key ->
                      data (SAdd c now key members).1 !! k = data c !! k).
  { unfold SAdd, sadd_loop. rewrite Ho, Hd.
    destruct (sadd_loop_spec members set 0) as (set' & -> & Hp).
    cbn [fst snd]. rewrite members_at_store by assumption.
    rewrite Hm, Hp. repeat split.
    intros k Hne. unfold store. cbn [data].
    rewrite lookup_insert_ne by congruence. by apply Hk. }
  destruct Hfst as (H1 & H2 & H3).
  repeat split; try assumption.
  - rewrite SIsMember_members_at, H1, elem_of_union, elem_of_list_to_set.
    by rewrite <- SIsMember_members_at.
  - rewrite !SIsMember_members_at, H1, elem_of_union, elem_of_list_to_set.
    done.
Qed.

Lemma sadd_counts_the_new_members_witness :
  let c := (SAdd New 10 "s" ["a"; "b"]).1 in
  (SAdd c 20 "s" ["b"; "x"; "x"]).2 = 1%nat
  /\ SIsMember (SAdd c 20 "s" ["b"; "x"; "x"]).1 20 "s" "x" = true.
Proof.
  cbn zeta.
  assert (Hc : all_well_typed (SAdd New 10 "s" ["a"; "b"]).1).
  { apply (apply_well_typed New 10 (OpSAdd "s" ["a"; "b"])).
    intros k v Hk. cbn in Hk. by rewrite lookup_empty in Hk. }
  assert (Hu : usable_as (SAdd New 10 "s" ["a"; "b"]).1 20 "s" TypeSet).
  { right. eexists. split; reflexivity. }
  destruct (sadd_counts_the_new_members
              (SAdd New 10 "s" ["a"; "b"]).1 20 "s" ["b"; "x"; "x"] Hc Hu)
    as (_ & Hn & Hmem & _).
  split.
  - rewrite Hn. vm_compute. reflexivity.
  - apply Hmem. right. apply elem_of_cons. right. apply elem_of_cons. by left.
Defined.

(** X13.  [SRem] removes the given members from the set a key holds and answers
    the number of distinct given members that were members; the other
    members stay, the key stays even when its set is emptied, and no other
    key is touched.  On a key that holds no set it answers 0. *)
Theorem srem_counts_the_members_removed
    (c : Cache) (now : Time) (key : string) (members : list string) :
  members_at (SRem c now key members).1 now key
  = members_at c now key ∖ list_to_set members
  /\ (SRem c now key members).2
     = size (list_to_set members ∩ members_at c now key : gset string)
  /\ (forall m, SIsMember (SRem c now key members).1 now key m = true
                <-> SIsMember c now key m = true /\ m ∉ members)
  /\ Exists (SRem c now key members).1 now key = Exists c now key
  /\ forall k, k <> key -> data (SRem c now key members).1 !! k = data c !! k.
Proof.
  assert (Hfst :
    members_at (SRem c now key members).1 now key
    = members_at c now key ∖ list_to_set members
    /\ (SRem c now key members).2
       = size (list_to_set members ∩ members_at c now key : gset string)
    /\ Exists (SRem c now key members).1 now key = Exists c now key
    /\ forall k, k <> key -> data (SRem c now key members).1 !! k = data c !! k).
  { assert (Hnone : members_at c now key = ∅ ->
              members_at c now key = members_at c now key ∖ list_to_set members
              /\ 0%nat = size (list_to_set members ∩ members_at c now key : gset string)).
    { intros ->. split; [set_unfold; tauto |].
      replace (list_to_set members ∩ ∅) with (∅ : gset string)
        by (set_unfold; tauto).
      by rewrite size_empty. }
    unfold SRem, srem_loop.
    destruct (live_of c now key TypeSet) as [v |] eqn:Hl.
    2:{ cbn [fst snd]. destruct Hnone as [H1 H2];
          [unfold members_at; by rewrite Hl | auto]. }
    destruct (Data v) as [| | | | | set] eqn:Hd;
      try (cbn [fst snd]; destruct Hnone as [H1 H2];
           [unfold members_at; by rewrite Hl, Hd | by auto]).
    destruct (srem_loop_spec members set 0) as (set' & -> & Hp).
    cbn [fst snd].
    assert (Hm : members_at c now key = present set)
      by (unfold members_at; by rewrite Hl, Hd).
    apply live_of_Some in Hl as (Hk & He & Hty).
    rewrite members_at_store by assumption. rewrite Hm, Hp.
    repeat split.
    - unfold Exists. rewrite live_store_eq, isExpired_set_Data, He.
      unfold live. by rewrite Hk, He.
    - intros k Hne. unfold store. cbn [data]. by rewrite lookup_insert_ne. }
  destruct Hfst as (H1 & H2 & H3 & H4).
  repeat split; try assumption.
  - rewrite SIsMember_members_at, H1, elem_of_difference in H.
    rewrite SIsMember_members_at. tauto.
  - rewrite SIsMember_members_at, H1, elem_of_difference, elem_of_list_to_set in H.
    tauto.
  - intros [Hin Hnot].
    rewrite SIsMember_members_at, H1, elem_of_difference, elem_of_list_to_set.
    rewrite <- SIsMember_members_at. tauto.
Qed.

Lemma srem_counts_the_members_removed_witness :
  let c := (SAdd New 10 "s" ["a"; "b"]).1 in
  SIsMember (SRem c 20 "s" ["a"; "x"]).1 20 "s" "b" = true
  /\ data (SRem c 20 "s" ["a"; "x"]).1 !! "other" = data c !! "other".
Proof.
  cbn zeta.
  destruct (srem_counts_the_members_removed
              (SAdd New 10 "s" ["a"; "b"]).1 20 "s" ["a"; "x"])
    as (_ & _ & Hm & _ & Hk).
  split.
  - apply Hm. split; [reflexivity |].
    apply not_elem_of_cons. split; [discriminate |].
    apply not_elem_of_cons. split; [discriminate | apply not_elem_of_nil].
  - apply Hk. discriminate.
Defined.

(** X14.  [SMembers] lists no string twice and lists every string for which
    [SIsMember] answers true. *)
Theorem smembers_lists_each_member_once (c : Cache) (now : Time) (key : string) :
  NoDup (SMembers c now key)
  /\ forall m, SIsMember c now key m = true -> m ∈ SMembers c now key.
Proof.
  unfold SMembers, SIsMember.
  destruct (live_of c now key TypeSet) as [v |];
    [| split; [constructor | discriminate]].
  destruct (Data v) as [| | | | | set];
    try (split; [constructor | discriminate]).
  split; [apply NoDup_fst_map_to_list |].
  intros m. unfold set_get.
  destruct (set !! m) as [b |] eqn:Hm; cbn; [| discriminate].
  intros _. apply list_elem_of_fmap. exists (m, b).
  split; [reflexivity |]. by apply elem_of_map_to_list.
Qed.

Lemma smembers_lists_each_member_once_witness :
  "a" ∈ SMembers (SAdd New 10 "s" ["a"; "b"]).1 20 "s".
Proof.
  apply (proj2 (smembers_lists_each_member_once
                  (SAdd New 10 "s" ["a"; "b"]).1 20 "s") "a").
  reflexivity.
Defined.

End collections_more.

(** ** The dispatcher *)

Section dispatcher_more.
Import time history protocol server session shape arity cache.

Lemma mkServer_cache (s : Server) : mkServer (server.cache s) = s.
Proof. by destruct s. Qed.

(** The opcodes of the handler table, one by one. *)
Lemma known_cases (t : CommandType) :
  known t = true ->
  t = 0 \/ t = 1 \/ t = 2 \/ t = 3 \/ t = 4 \/ t = 5 \/ t = 6 \/ t = 7
  \/ t = 8 \/ t = 9 \/ t = 10 \/ t = 11 \/ t = 12 \/ t = 13 \/ t = 14
  \/ t = 15 \/ t = 16 \/ t = 17 \/ t = 18 \/ t = 19 \/ t = 20 \/ t = 21
  \/ t = 22 \/ t = 23 \/ t = 24 \/ t = 25.
Proof. unfold known. lia. Qed.

Lemma unknown_dispatch (s : Server) (now : Time) (cmd : Command) :
  known (CmdType cmd) = false ->
  executeCommand s now cmd
  = (s, reply_error ("unknown command: " ++ strconv.FormatInt (CmdType cmd))).
Proof.
  unfold known, executeCommand. intros H.
  destruct (CmdType cmd) as [| p | p]; [discriminate | | reflexivity].
  do 5 (destruct p as [p | p |]; try reflexivity; try discriminate).
Qed.

Local Ltac each_opcode H :=
  apply known_cases in H;
  repeat (destruct H as [H | H]); rewrite H.

(** X15.  A command the dispatcher refuses changes nothing: with fewer arguments
    than its handler reads, or with an opcode outside the handler table,
    the server is left as it is and the reply is an error; for an unknown
    opcode the message names the opcode in decimal. *)
Theorem refused_commands_change_nothing
    (s : Server) (now : Time) (cmd : Command) :
  ((length (Args cmd) < required_args (CmdType cmd))%nat ->
   (executeCommand s now cmd).1 = s
   /\ RespType (executeCommand s now cmd).2 = RespError
   /\ protocol.Data (executeCommand s now cmd).2 = a_nil)
  /\ (known (CmdType cmd) = false ->
      executeCommand s now cmd
      = (s, reply_error ("unknown command: " ++ strconv.FormatInt (CmdType cmd)))).
Proof.
  split; [| apply unknown_dispatch].
  intros Hlen. destruct (known (CmdType cmd)) eqn:Hk.
  - unfold executeCommand. destruct cmd as [key ttl t args].
    cbn [CmdType Args Key protocol.TTL] in *.
    each_opcode Hk; rewrite Hk in Hlen; cbn [required_args] in Hlen;
      try (exfalso; lia);
      destruct args as [| a0 [| a1 args]]; cbn [length] in Hlen;
      try (exfalso; lia);
      cbn; auto.
  - rewrite unknown_dispatch by exact Hk. auto.
Qed.

Lemma refused_commands_change_nothing_witness :
  (executeCommand server.New 10 (mkCommand "h" 0 CmdHSet ["f"])).1 = server.New
  /\ executeCommand server.New 10 (mkCommand "k" 0 77 [])
     = (server.New, reply_error "unknown command: 77").
Proof.
  destruct (refused_commands_change_nothing server.New 10
              (mkCommand "h" 0 CmdHSet ["f"])) as [H _].
  destruct (refused_commands_change_nothing server.New 10
              (mkCommand "k" 0 77 [])) as [_ H'].
  split; [apply H; cbn; lia | apply H'; reflexivity].
Defined.

Lemma reply_bool_shape (b : bool) : ResponseShape (reply_bool b).
Proof. destruct b; constructor. Qed.

Local Ltac shape_solve :=
  repeat first
    [ progress cbn [fst snd]
    | apply reply_bool_shape
    | match goal with
      | |- ResponseShape (reply_error _) => unfold reply_error; constructor
      | |- ResponseShape (reply _ _) => unfold reply; constructor
      | |- context [match ?x with _ => _ end] => destruct x
      end ].

(** X16.  Every reply of the dispatcher, whatever the command and the state of
    the store, is one of the six variants with the payload of its variant:
    a message on Error and nowhere else, a string on Str, an integer on
    Int, a list of strings on Array, and no payload on OK and Nil. *)
Theorem every_reply_has_the_payload_of_its_variant
    (s : Server) (now : Time) (cmd : Command) :
  ResponseShape (executeCommand s now cmd).2.
Proof.
  destruct (known (CmdType cmd)) eqn:Hk.
  - unfold executeCommand. destruct cmd as [key ttl t args].
    cbn [CmdType Args Key protocol.TTL] in *.
    each_opcode Hk;
      unfold handleGet, handleSet, handleDel, handleExists, handleIncr,
        handleDecr, handleIncrBy, handleDecrBy, handleExpire, handleTTL,
        handlePersist, handleHGet, handleHSet, handleHDel, handleHGetAll,
        handleHExists, handleLPush, handleRPush, handleLPop, handleRPop,
        handleLLen, handleSAdd, handleSRem, handleSMembers, handleSIsMember,
        handlePing, reply_counter, reply_pop;
      cbn [CmdType Args Key protocol.TTL];
      shape_solve.
  - rewrite unknown_dispatch by exact Hk. cbn [snd]. constructor.
Qed.

Local Ltac unchanged_solve :=
  repeat first
    [ progress cbn [fst snd]
    | reflexivity
    | match goal with
      | |- context [match ?x with _ => _ end] => destruct x
      end ].

(** X17.  The commands that only read (GET, EXISTS, TTL, HGET, HGETALL, HEXISTS,
    LLEN, SMEMBERS, SISMEMBER, PING) leave the server as it is, whatever
    they answer: a read never removes an expired entry. *)
Theorem reading_commands_leave_the_server_unchanged
    (s : Server) (now : Time) (cmd : Command) :
  read_only (CmdType cmd) = true -> (executeCommand s now cmd).1 = s.
Proof.
  intros Hr. unfold executeCommand. destruct cmd as [key ttl t args].
  cbn [CmdType Args Key protocol.TTL] in *.
  assert (Hk : known t = true).
  { unfold known. destruct t as [| p | p]; try discriminate; [reflexivity |].
    do 5 (destruct p as [p | p |]; try discriminate; try reflexivity). }
  each_opcode Hk; rewrite Hk in Hr; try discriminate Hr;
    unfold handleGet, handleExists, handleTTL, handleHGet, handleHGetAll,
      handleHExists, handleLLen, handleSMembers, handleSIsMember, handlePing;
    cbn [CmdType Args Key protocol.TTL];
    unchanged_solve.
Qed.

Lemma reading_commands_leave_the_server_unchanged_witness :
  let s := (executeCommand server.New 10 (mkCommand "k" Second CmdSet ["v"])).1 in
  (executeCommand s (10 + 5 * Second) (mkCommand "k" 0 CmdGet [])).1 = s.
Proof.
  cbn zeta.
  apply (reading_commands_leave_the_server_unchanged
           (executeCommand server.New 10 (mkCommand "k" Second CmdSet ["v"])).1
           (10 + 5 * Second) (mkCommand "k" 0 CmdGet [])).
  reflexivity.
Defined.

(** X18.  A counter command (INCR, DECR, INCRBY, DECRBY, the last two with their
    delta argument) on a live string that is not the decimal text of an
    int64 answers Error("value is not an integer") and leaves the server
    as it is. *)
Theorem counters_refuse_text_that_is_no_integer
    (s : Server) (now : Time) (cmd : Command) (v : Value) (str : string) :
  counter (CmdType cmd) = true ->
  (required_args (CmdType cmd) <= length (Args cmd))%nat ->
  data (server.cache s) !! Key cmd = Some v ->
  isExpired now v = false ->
  Type_ v = TypeString -> cache.Data v = a_string str ->
  strconv.ParseInt str = None ->
  executeCommand s now cmd = (s, reply_error "value is not an integer").
Proof.
  intros Hc Hlen Hk He Hty Hd Hp.
  assert (Hincr : forall delta,
            reply_counter (IncrBy (server.cache s) now (Key cmd) delta)
            = (s, reply_error "value is not an integer")).
  { intros delta. unfold IncrBy, live. rewrite Hk, He, Hty, Hd, Hp.
    cbn. by rewrite mkServer_cache. }
  unfold executeCommand. destruct cmd as [key ttl t args].
  cbn [CmdType Args Key protocol.TTL] in *.
  destruct t as [| p | p]; try discriminate Hc.
  do 3 (try (destruct p as [p | p |]; try discriminate Hc));
    cbn [required_args] in Hlen;
    unfold handleIncr, handleDecr, handleIncrBy, handleDecrBy, Incr, Decr;
    cbn [CmdType Args Key protocol.TTL];
    try apply Hincr;
    (destruct args as [| a0 args]; [cbn [length] in Hlen; lia | apply Hincr]).
Qed.

Lemma counters_refuse_text_that_is_no_integer_witness :
  let s := (executeCommand server.New 10 (mkCommand "k" 0 CmdSet ["abc"])).1 in
  executeCommand s 20 (mkCommand "k" 0 CmdIncrBy ["5"])
  = (s, reply_error "value is not an integer").
Proof.
  cbn zeta.
  apply (counters_refuse_text_that_is_no_integer
           (executeCommand server.New 10 (mkCommand "k" 0 CmdSet ["abc"])).1
           20 (mkCommand "k" 0 CmdIncrBy ["5"])
           (mkValue (a_string "abc") zero TypeString) "abc");
    first [reflexivity | cbn; lia].
Defined.

(** What a command does to the store is nothing, or one of the calls of
    the store at the instant of the dispatch. *)
Lemma dispatch_is_one_call (s : Server) (now : Time) (cmd : Command) :
  server.cache (executeCommand s now cmd).1 = server.cache s
  \/ exists op, server.cache (executeCommand s now cmd).1
                = apply (server.cache s) now op.
Proof.
  destruct (known (CmdType cmd)) eqn:Hk.
  2:{ left. by rewrite unknown_dispatch. }
  unfold executeCommand. destruct cmd as [key ttl t args].
  cbn [CmdType Args Key protocol.TTL] in *.
  each_opcode Hk;
    try (left;
         unfold handleGet, handleExists, handleTTL, handleHGet, handleHGetAll,
           handleHExists, handleLLen, handleSMembers, handleSIsMember, handlePing;
         cbn [CmdType Args Key protocol.TTL];
         by unchanged_solve).
  - unfold handleSet. cbn [Args Key protocol.TTL].
    destruct args as [| a0 args]; [by left |].
    right. by exists (OpSet key a0 ttl).
  - right. exists (OpDel key). unfold handleDel. cbn [Key apply].
    by destruct (Del (server.cache s) key).
  - right. exists (OpIncrBy key 1). unfold handleIncr, Incr, reply_counter.
    cbn [Key apply].
    by destruct (IncrBy (server.cache s) now key 1) as [c [n [e |]]].
  - right. exists (OpIncrBy key (-1)). unfold handleDecr, Decr, reply_counter.
    cbn [Key apply].
    by destruct (IncrBy (server.cache s) now key (-1)) as [c [n [e |]]].
  - unfold handleIncrBy. cbn [Args Key].
    destruct args as [| a0 args]; [by left |].
    right.
    exists (OpIncrBy key (match parseIntArg a0 with Some d => d | None => 1 end)).
    unfold reply_counter. cbn [apply].
    by destruct (IncrBy (server.cache s) now key _) as [c [n [e |]]].
  - unfold handleDecrBy. cbn [Args Key].
    destruct args as [| a0 args]; [by left |].
    right.
    exists (OpIncrBy key
              (match parseIntArg a0 with Some d => wrap64 (- d) | None => 1 end)).
    unfold reply_counter. cbn [apply].
    by destruct (IncrBy (server.cache s) now key _) as [c [n [e |]]].
  - right. exists (OpExpire key ttl). unfold handleExpire.
    cbn [Key protocol.TTL apply].
    by destruct (Expire (server.cache s) now key ttl).
  - right. exists (OpPersist key). unfold handlePersist. cbn [Key apply].
    by destruct (Persist (server.cache s) now key).
  - unfold handleHSet. cbn [Args Key].
    destruct args as [| a0 [| a1 args]]; [by left | by left |].
    right. by exists (OpHSet key a0 a1).
  - unfold handleHDel. cbn [Args Key].
    destruct args as [| a0 args]; [by left |].
    right. exists (OpHDel key a0). cbn [apply].
    by destruct (HDel (server.cache s) now key a0).
  - unfold handleLPush. cbn [Args Key].
    destruct args as [| a0 args]; [by left |].
    right. exists (OpLPush key (a0 :: args)). cbn [apply].
    by destruct (LPush (server.cache s) now key (a0 :: args)).
  - unfold handleRPush. cbn [Args Key].
    destruct args as [| a0 args]; [by left |].
    right. exists (OpRPush key (a0 :: args)). cbn [apply].
    by destruct (RPush (server.cache s) now key (a0 :: args)).
  - right. exists (OpLPop key). unfold handleLPop, reply_pop. cbn [Key apply].
    by destruct (LPop (server.cache s) now key) as [c [x [|]]].
  - right. exists (OpRPop key). unfold handleRPop, reply_pop. cbn [Key apply].
    by destruct (RPop (server.cache s) now key) as [c [x [|]]].
  - unfold handleSAdd. cbn [Args Key].
    destruct args as [| a0 args]; [by left |].
    right. exists (OpSAdd key (a0 :: args)). cbn [apply].
    by destruct (SAdd (server.cache s) now key (a0 :: args)).
  - unfold handleSRem. cbn [Args Key].
    destruct args as [| a0 args]; [by left |].
    right. exists (OpSRem key (a0 :: args)). cbn [apply].
    by destruct (SRem (server.cache s) now key (a0 :: args)).
Qed.

Lemma run_invariant (P : Cache -> Prop) :
  (forall c now op, P c -> P (apply c now op)) ->
  forall steps s replies,
    P (server.cache s) ->
    P (server.cache
         (fold_left
            (fun '(s, replies) '(now, cmd) =>
               let '(s', r) := executeCommand s now cmd in
               (s', (replies ++ [r])%list))
            steps (s, replies)).1).
Proof.
  intros Hstep steps. induction steps as [| [now cmd] steps IH];
    intros s replies Hs; [exact Hs |].
  cbn [fold_left].
  destruct (executeCommand s now cmd) as [s' r] eqn:Hx.
  apply IH.
  destruct (dispatch_is_one_call s now cmd) as [H | [op H]];
    rewrite Hx in H; cbn [fst] in H; rewrite H; auto.
Qed.

(** X19.  Whatever commands a session sends to a new server, at whatever
    instants, the store it builds is one that calls of the store build
    from the empty one, and every entry in it carries a payload of the
    type its tag names. *)
Theorem sessions_build_well_typed_stores (steps : list (Time * Command)) :
  reachable (server.cache (run server.New steps).1)
  /\ all_well_typed (server.cache (run server.New steps).1).
Proof.
  unfold run. split.
  - apply (run_invariant reachable); [| exact reachable_New].
    intros c now op Hc. by constructor.
  - apply (run_invariant all_well_typed).
    + intros c now op. apply apply_well_typed.
    + intros key v. cbn. by rewrite lookup_empty.
Qed.

End dispatcher_more.

(** ** The codec beyond the round trip *)

Section codec_more.
Import time binary protocol server wire arity.

Lemma deserializeTTL_field (data pre post : list byte) (secs : Z) :
  0 <= secs <= maxInt64 ->
  data = (pre ++ AppendUvarint [] secs ++ post)%list ->
  deserializeTTL data (length pre) = Ok (wrap64 (wrap64 secs * Second)).
Proof.
  intros Hsecs ->. unfold deserializeTTL.
  rewrite drop_app_length.
  assert (Hu : is_uint64 secs)
    by (unfold is_uint64, maxInt64, maxUint64 in *; lia).
  rewrite (Uvarint_AppendUvarint _ _ Hu).
  pose proof (AppendUvarint_length secs) as HU.
  destruct (Z.leb_spec (Z.of_nat (length (AppendUvarint [] secs))) 0)
    as [Habs | _]; [lia |].
  unfold maxInt64Value. unfold maxInt64 in Hsecs.
  destruct (Z.ltb_spec 9223372036854775807 secs) as [Habs | _]; [lia |].
  reflexivity.
Qed.

(** The decoder on the four fields of a command, whatever follows them. *)
Lemma DeserializeCommand_fields
    (t : Z) (key : string) (args : list string) (secs : Z) (junk : list byte) :
  0 <= t < 256 -> representable key -> Forall representable args ->
  Z.of_nat (length args) <= maxInt64 -> 0 <= secs <= maxInt64 ->
  DeserializeCommand
    ([byte_of_Z t] ++ put_string [] key ++ put_strings [] args
       ++ AppendUvarint [] secs ++ junk)%list
  = Ok (mkCommand key (wrap64 (wrap64 secs * Second)) t args).
Proof.
  intros Hop Hkey Hargs Hargc Hsecs.
  set (data := ([byte_of_Z t] ++ put_string [] key ++ put_strings [] args
                  ++ AppendUvarint [] secs ++ junk)%list).
  change (DeserializeCommand data) with
    (match deserializeString data (length [byte_of_Z t]) "key" with
     | Err e => Err e
     | Ok (key, offset) =>
         match deserializeStringSlice data offset with
         | Err e => Err e
         | Ok (args, offset) =>
             match deserializeTTL data offset with
             | Err e => Err e
             | Ok ttl => Ok (mkCommand key ttl (Z_of_byte (byte_of_Z t)) args)
             end
         end
     end).
  rewrite (deserializeString_put_string data _
             (put_strings [] args ++ AppendUvarint [] secs ++ junk)%list
             key "key" Hkey eq_refl).
  rewrite <- length_app.
  rewrite (deserializeStringSlice_put_strings data _
             (AppendUvarint [] secs ++ junk)%list args Hargs Hargc)
    by (subst data; rewrite <- !app_assoc; reflexivity).
  rewrite <- length_app.
  rewrite (deserializeTTL_field data _ junk secs Hsecs)
    by (subst data; rewrite <- !app_assoc; reflexivity).
  rewrite Z_of_byte_of_Z, Z.mod_small by exact Hop.
  reflexivity.
Qed.

Lemma Command_Serialize_junk (c : Command) (junk : list byte) :
  (Command_Serialize c ++ junk)%list
  = ([byte_of_Z (CmdType c)] ++ put_string [] (Key c)
       ++ put_strings [] (Args c)
       ++ AppendUvarint [] (Seconds_uint64 (TTL c)) ++ junk)%list.
Proof. rewrite Command_Serialize_app. by rewrite <- !app_assoc. Qed.

Local Ltac response_head :=
  rewrite DeserializeResponse_cons
    by (unfold RespError, RespString, RespInt, RespArray; lia);
  unfold RespError, RespString, RespInt, RespArray; cbv zeta iota.

(** X20.  Both decoders stop at the end of the message they decode: bytes that
    follow the encoding of a well-formed command or response are ignored,
    not rejected. *)
Theorem decoders_ignore_trailing_bytes (junk : list byte) :
  (forall c : Command,
      WellFormedCommand c ->
      DeserializeCommand (Command_Serialize c ++ junk) = Ok c)
  /\ (forall r : Response,
        WellFormedResponse r ->
        DeserializeResponse (Response_Serialize r ++ junk) = Ok r).
Proof.
  split.
  - intros c [Hop Hkey Hargs Hargc Httl Hsec].
    destruct (whole_seconds (TTL c) Httl Hsec) as [Hsecs Hback].
    rewrite Command_Serialize_junk.
    rewrite DeserializeCommand_fields by assumption.
    rewrite Hback. by destruct c.
  - intros r [| | msg Hmsg | v Hv | n Hn | l Hl Hlen].
    + reflexivity.
    + reflexivity.
    + cbn [Response_Serialize RespType Error RespError].
      rewrite put_string_app. cbn [app]. response_head.
      unfold deserializeErrorResponse.
      by rewrite (deserializeString_put_string _ [byte_of_Z 1] junk msg "error" Hmsg).
    + cbn [Response_Serialize RespType Data RespString].
      rewrite put_string_app. cbn [app]. response_head.
      unfold deserializeStringResponse.
      by rewrite (deserializeString_put_string _ [byte_of_Z 2] junk v "string" Hv).
    + cbn [Response_Serialize RespType Data RespInt].
      rewrite AppendVarint_app. cbn [app]. response_head.
      unfold deserializeIntResponse. cbn [drop]. rewrite drop_0.
      destruct (Varint_AppendVarint n junk Hn) as (k & Hk & Hvar).
      rewrite Hvar.
      destruct (Z.leb_spec k 0) as [Habs | _]; [lia | reflexivity].
    + cbn [Response_Serialize RespType Data RespArray].
      rewrite put_strings_app.
      pose proof (put_strings_app [] l) as E. cbn [app] in E.
      rewrite <- app_assoc. cbn [app].
      rewrite <- app_assoc, (app_assoc _ _ junk), <- E.
      response_head.
      unfold deserializeArrayResponse.
      by rewrite (deserializeStringSlice_put_strings _ [byte_of_Z 4] junk l Hl Hlen).
Qed.

Lemma decoders_ignore_trailing_bytes_witness :
  DeserializeCommand
    (Command_Serialize (mkCommand "k" (2 * Second) CmdSet ["v"])
       ++ ["x"; "y"]%byte)
  = Ok (mkCommand "k" (2 * Second) CmdSet ["v"]).
Proof.
  apply (decoders_ignore_trailing_bytes ["x"; "y"]%byte).
  split; cbn; unfold representable, maxInt64, Second;
    repeat constructor; cbn; try lia; try discriminate.
Defined.

Lemma seconds_near_on_the_wire (d : Duration) :
  0 <= d <= maxInt64 - Second ->
  0 <= Seconds_uint64 d <= maxInt64
  /\ d / Second <= Seconds_uint64 d <= d / Second + 1
  /\ wrap64 (wrap64 (Seconds_uint64 d) * Second) = Seconds_uint64 d * Second.
Proof.
  unfold Seconds_uint64, maxInt64, wrapU64. intros Hd.
  pose proof (Seconds_near d) as Hn.
  change (2 ^ 63) with 9223372036854775808 in Hn. unfold Second in *.
  specialize (Hn ltac:(lia)).
  assert (Hq : 0 <= d / 1000000000 <= 9223372035)
    by (Z.to_euclidean_division_equations; lia).
  rewrite (Z.mod_small (float64.to_int64 (Seconds d))) by lia.
  split; [lia |]. split; [exact Hn |].
  rewrite (wrap64_small (float64.to_int64 (Seconds d)))
    by (unfold is_int64, minInt64, maxInt64; lia).
  apply wrap64_small. unfold is_int64, minInt64, maxInt64. lia.
Qed.

Lemma seconds_on_the_wire (d : Duration) :
  0 <= d < 2 ^ 24 * Second ->
  0 <= Seconds_uint64 d <= maxInt64
  /\ wrap64 (wrap64 (Seconds_uint64 d) * Second) = d - d mod Second.
Proof.
  unfold Seconds_uint64, maxInt64, wrapU64. intros Hd.
  rewrite Seconds_floor by exact Hd.
  change (2 ^ 24) with 16777216 in Hd. unfold Second in *.
  assert (Hq : 0 <= d / 1000000000 < 16777216)
    by (Z.to_euclidean_division_equations; lia).
  rewrite (Z.mod_small (d / 1000000000)) by lia.
  split; [lia |].
  rewrite (wrap64_small (d / 1000000000))
    by (unfold is_int64, minInt64, maxInt64; lia).
  replace (d / 1000000000 * 1000000000) with (d - d mod 1000000000)
    by (Z.to_euclidean_division_equations; lia).
  apply wrap64_small. unfold is_int64, minInt64, maxInt64.
  Z.to_euclidean_division_equations; lia.
Qed.



(** The second more does occur: one nanosecond short of a year arrives as
    the full year. *)
Example a_long_ttl_arrives_rounded_up :
  DeserializeCommand
    (Command_Serialize (mkCommand "k" 31535999999999999 CmdExpire []))
  = Ok (mkCommand "k" (31536000 * Second) CmdExpire []).
Proof. vm_compute. reflexivity. Qed.

(** X22.  Neither decoder checks the type byte.  A response whose first byte is
    none of Error, Str, Int, Array decodes, whatever follows, to a response
    of that type with no payload; a command with an opcode byte outside the
    handler table decodes like any other, and it is the dispatcher that
    answers the unknown-command error, leaving the server as it is. *)
Theorem type_bytes_are_not_validated_by_the_decoders :
  (forall (b : byte) (body : list byte),
      ~ 1 <= Z_of_byte b <= 4 ->
      DeserializeResponse (b :: body) = Ok (mkResponse a_nil "" (Z_of_byte b)))
  /\ (forall (c : Command) (s : Server) (now : Time),
        WellFormedCommand c -> 26 <= CmdType c ->
        exists c',
          DeserializeCommand (Command_Serialize c) = Ok c'
          /\ executeCommand s now c'
             = (s, reply_error
                     ("unknown command: " ++ strconv.FormatInt (CmdType c)))).
Proof.
  split.
  - intros b body Hb. unfold DeserializeResponse. cbn [RespType].
    pose proof (Z_of_byte_range b) as Hr.
    destruct (Z_of_byte b) as [| p | p]; [reflexivity | | lia].
    do 3 (try (destruct p as [p | p |]; try reflexivity; try lia)).
  - intros c s now Hwf Hbig. exists c. split.
    + by apply DeserializeCommand_Serialize.
    + apply unknown_dispatch. unfold known. lia.
Qed.

Lemma type_bytes_are_not_validated_by_the_decoders_witness :
  DeserializeResponse ["c"; "d"]%byte = Ok (mkResponse a_nil "" 99).
Proof.
  apply (proj1 type_bytes_are_not_validated_by_the_decoders "c"%byte ["d"%byte]).
  cbn. lia.
Defined.

End codec_more.

(** ** Frames on a byte stream *)

Section framing_more.
Import time binary protocol wire framing.

Lemma PutUint32_length (v : Z) : length (PutUint32 v) = 4%nat.
Proof. reflexivity. Qed.

Lemma Uint32_PutUint32 (v : Z) : 0 <= v < 2 ^ 32 -> Uint32 (PutUint32 v) = v.
Proof.
  intros Hv. unfold Uint32, PutUint32.
  rewrite !Z_of_byte_of_Z, !Z.shiftr_div_pow2, !Z.shiftl_mul_pow2 by lia.
  rewrite (lor_disjoint (v mod 256) _ 8)
    by (try apply Z.mod_pos_bound; lia).
  rewrite (lor_disjoint _ _ 16)
    by (Z.to_euclidean_division_equations; lia).
  rewrite (lor_disjoint _ _ 24)
    by (Z.to_euclidean_division_equations; lia).
  Z.to_euclidean_division_equations; lia.
Qed.

Lemma ReadFull_app (a rest : list byte) :
  ReadFull (a ++ rest)%list (length a) = (Ok a, rest).
Proof.
  unfold ReadFull. rewrite length_app.
  destruct (Nat.leb_spec (length a) (length a + length rest)) as [_ | H];
    [| lia].
  by rewrite take_app_length, drop_app_length.
Qed.

Lemma writeFrame_ok (w data : list byte) :
  Z.of_nat (length data) <= maxUint32Value ->
  writeFrame w data
  = ((w ++ PutUint32 (Z.of_nat (length data)) ++ data)%list, None).
Proof.
  intros Hlen. unfold writeFrame, maxUint32Value in *.
  destruct (Z.ltb_spec 4294967295 (Z.of_nat (length data))) as [H | _]; [lia |].
  unfold wrapU32. rewrite Z.mod_small by lia. by rewrite <- app_assoc.
Qed.

Lemma readFrame_frame (what : string) (data rest : list byte) :
  Z.of_nat (length data) <= maxPayload ->
  readFrame what (PutUint32 (Z.of_nat (length data)) ++ data ++ rest)%list
  = (Ok data, rest).
Proof.
  intros Hlen. unfold readFrame, maxPayload in *.
  change protocolHeaderSize with (length (PutUint32 (Z.of_nat (length data)))).
  rewrite ReadFull_app, Uint32_PutUint32 by lia.
  destruct (Z.ltb_spec (1024 * 1024) (Z.of_nat (length data))) as [H | _];
    [lia |].
  rewrite Nat2Z.id. apply ReadFull_app.
Qed.

(** The bytes [WriteCommand] puts on the stream for a command. *)
Lemma WriteCommand_frame (w : Writer) (cmd : Command) :
  Z.of_nat (length (Command_Serialize cmd)) <= maxPayload ->
  WriteCommand w cmd
  = ((w ++ PutUint32 (Z.of_nat (length (Command_Serialize cmd)))
        ++ Command_Serialize cmd)%list, None).
Proof.
  intros Hlen. unfold WriteCommand. apply writeFrame_ok.
  unfold maxPayload, maxUint32Value in *. lia.
Qed.

Lemma ReadCommand_frame (cmd : Command) (rest : list byte) :
  WellFormedCommand cmd ->
  Z.of_nat (length (Command_Serialize cmd)) <= maxPayload ->
  ReadCommand (PutUint32 (Z.of_nat (length (Command_Serialize cmd)))
                 ++ Command_Serialize cmd ++ rest)%list
  = (Ok cmd, rest).
Proof.
  intros Hwf Hlen. unfold ReadCommand.
  rewrite readFrame_frame by exact Hlen.
  by rewrite DeserializeCommand_Serialize.
Qed.

(** X23.  Commands written one after the other on a stream are read back one
    after the other, each as it was written, and the bytes that follow the
    last frame are left on the stream: for well-formed commands whose
    encoding is at most 1 MiB, writing never fails and reading as many
    commands as were written returns them in order. *)
Theorem command_frames_read_back_in_order
    (cmds : list Command) (w : Writer) (rest : list byte) :
  Forall WellFormedCommand cmds ->
  Forall (fun cmd => Z.of_nat (length (Command_Serialize cmd)) <= maxPayload) cmds ->
  exists frames : list byte,
    WriteCommands w cmds = ((w ++ frames)%list, None)
    /\ ReadCommands (length cmds) (frames ++ rest)%list = (Ok cmds, rest).
Proof.
  revert w. induction cmds as [| cmd cmds IH]; intros w Hwf Hlen.
  - exists []. cbn. by rewrite app_nil_r.
  - apply Forall_cons in Hwf as [Hwf Hwfs].
    apply Forall_cons in Hlen as [Hlen Hlens].
    destruct (IH (w ++ PutUint32 (Z.of_nat (length (Command_Serialize cmd)))
                    ++ Command_Serialize cmd)%list Hwfs Hlens)
      as (frames & Hw & Hr).
    exists ((PutUint32 (Z.of_nat (length (Command_Serialize cmd)))
               ++ Command_Serialize cmd) ++ frames)%list.
    split.
    + unfold WriteCommands in *. cbn [fold_left].
      rewrite WriteCommand_frame by exact Hlen.
      refine (eq_trans Hw _). by rewrite <- !app_assoc.
    + cbn [length ReadCommands]. rewrite <- !app_assoc.
      rewrite ReadCommand_frame by assumption.
      by rewrite Hr.
Qed.

Lemma command_frames_read_back_in_order_witness :
  exists frames : list byte,
    WriteCommands [] [mkCommand "k" 0 CmdSet ["v"]; mkCommand "k" 0 CmdGet []]
    = (([] ++ frames)%list, None)
    /\ ReadCommands 2 (frames ++ ["z"%byte])%list
       = (Ok [mkCommand "k" 0 CmdSet ["v"]; mkCommand "k" 0 CmdGet []],
          ["z"%byte]).
Proof.
  apply (command_frames_read_back_in_order
           [mkCommand "k" 0 CmdSet ["v"]; mkCommand "k" 0 CmdGet []]
           [] ["z"%byte]).
  - repeat constructor; cbn; unfold representable, maxInt64, Second;
      cbn; try lia; try discriminate.
  - repeat constructor; vm_compute; discriminate.
Defined.

(** X24.  A response written on a stream is read back as it was written, and
    the bytes after its frame are left on the stream: the frame is the
    length of the encoding, as four bytes in big-endian order, and then the
    encoding. *)
Theorem response_frame_round_trip
    (r : Response) (w : Writer) (rest : list byte) :
  WellFormedResponse r ->
  Z.of_nat (length (Response_Serialize r)) <= maxPayload ->
  let frame := (PutUint32 (Z.of_nat (length (Response_Serialize r)))
                  ++ Response_Serialize r)%list in
  WriteResponse w r = ((w ++ frame)%list, None)
  /\ ReadResponse (frame ++ rest)%list = (Ok r, rest)
  /\ length frame = (4 + length (Response_Serialize r))%nat.
Proof.
  intros Hwf Hlen. cbn zeta. split; [| split].
  - unfold WriteResponse. apply writeFrame_ok.
    unfold maxPayload, maxUint32Value in *. lia.
  - unfold ReadResponse. rewrite <- app_assoc.
    rewrite readFrame_frame by exact Hlen.
    by rewrite DeserializeResponse_Serialize.
  - by rewrite length_app.
Qed.

Lemma response_frame_round_trip_witness :
  ReadResponse ((WriteResponse [] (mkResponse (a_int64 (-7)) "" RespInt)).1
                  ++ ["z"%byte])%list
  = (Ok (mkResponse (a_int64 (-7)) "" RespInt), ["z"%byte]).
Proof.
  destruct (response_frame_round_trip
              (mkResponse (a_int64 (-7)) "" RespInt) [] ["z"%byte])
    as (Hw & Hr & _).
  - constructor. unfold is_int64, minInt64, maxInt64. lia.
  - vm_compute. discriminate.
  - rewrite Hw. cbn [fst app]. exact Hr.
Defined.

Lemma readFrame_too_large (what : string) (data rest : list byte) :
  maxPayload < Z.of_nat (length data) <= maxUint32Value ->
  readFrame what (PutUint32 (Z.of_nat (length data)) ++ data ++ rest)%list
  = (Err (what ++ " too large: "
            ++ strconv.FormatInt (Z.of_nat (length data)) ++ " bytes"),
     (data ++ rest)%list).
Proof.
  intros Hlen. unfold readFrame, maxPayload, maxUint32Value in *.
  change protocolHeaderSize with (length (PutUint32 (Z.of_nat (length data)))).
  rewrite ReadFull_app, Uint32_PutUint32 by lia.
  destruct (Z.ltb_spec (1024 * 1024) (Z.of_nat (length data))) as [_ | H];
    [reflexivity | lia].
Qed.

(** X25.  The writer and the reader do not agree on the largest frame.  A
    command whose encoding is larger than 1 MiB (and fits the 32-bit
    length) is written without error, but the reader refuses its frame
    after the four length bytes, leaving the encoding unread on the
    stream; only an encoding beyond the 32-bit length is refused by the
    writer, which then writes nothing. *)
Theorem writer_accepts_frames_the_reader_refuses
    (cmd : Command) (w : Writer) (rest : list byte) :
  let payload := Command_Serialize cmd in
  let size := Z.of_nat (length payload) in
  (maxPayload < size <= maxUint32Value ->
   WriteCommand w cmd = ((w ++ PutUint32 size ++ payload)%list, None)
   /\ ReadCommand (PutUint32 size ++ payload ++ rest)%list
      = (Err ("command too large: " ++ strconv.FormatInt size ++ " bytes"),
         (payload ++ rest)%list))
  /\ (maxUint32Value < size -> WriteCommand w cmd = (w, Some "data too large")).
Proof.
  cbn zeta. split.
  - intros Hlen. split.
    + unfold WriteCommand. apply writeFrame_ok. lia.
    + unfold ReadCommand. by rewrite readFrame_too_large.
  - intros Hlen. unfold WriteCommand, writeFrame.
    destruct (Z.ltb_spec maxUint32Value
                (Z.of_nat (length (Command_Serialize cmd)))) as [_ | H];
      [reflexivity | lia].
Qed.

Lemma Command_Serialize_size (key : string) :
  let n := Z.of_nat (length (list_byte_of_string key)) in
  n < Z.of_nat (length (Command_Serialize (mkCommand key 0 CmdGet []))) <= n + 24.
Proof.
  cbn zeta. rewrite Command_Serialize_app. cbn [CmdType Key Args TTL].
  unfold put_string.
  rewrite !length_app.
  pose proof (AppendUvarint_length (Z.of_nat (length (list_byte_of_string key)))).
  cbn [length]. change (length (put_strings [] [])) with 1%nat.
  change (length (AppendUvarint [] (Seconds_uint64 0))) with 1%nat.
  lia.
Qed.

Lemma writer_accepts_frames_the_reader_refuses_witness :
  let cmd := mkCommand
               (string_of_list_byte (replicate (Z.to_nat 2000000) "x"%byte))
               0 CmdGet [] in
  (WriteCommand [] cmd).2 = None.
Proof.
  cbn zeta.
  destruct (writer_accepts_frames_the_reader_refuses
              (mkCommand
                 (string_of_list_byte (replicate (Z.to_nat 2000000) "x"%byte))
                 0 CmdGet []) [] []) as [H _].
  destruct H as [Hw _]; [| by rewrite Hw].
  pose proof (Command_Serialize_size
                (string_of_list_byte (replicate (Z.to_nat 2000000) "x"%byte)))
    as Hs.
  cbn zeta in Hs.
  rewrite list_byte_of_string_of_list_byte, length_replicate in Hs.
  rewrite Z2Nat.id in Hs by lia.
  unfold maxPayload, maxUint32Value. lia.
Defined.

Lemma ReadFull_short (r : Reader) (n : nat) :
  (length r < n)%nat ->
  ReadFull r n
  = (Err (match r with [] => "EOF" | _ => "unexpected EOF" end), []).
Proof.
  intros Hlen. unfold ReadFull.
  destruct (Nat.leb_spec n (length r)) as [H | _]; [lia |].
  by destruct r.
Qed.

(** X26.  A frame cut short never yields a message.  Reading a strict prefix of
    a frame answers the end-of-stream error and consumes the prefix: [EOF]
    when the stream ends before the frame or right after the four length
    bytes, [unexpected EOF] when it ends inside the length or inside the
    payload.  The decoder is not called. *)
Theorem truncated_frames_end_in_eof (data : list byte) (n : nat) :
  Z.of_nat (length data) <= maxPayload ->
  let frame := (PutUint32 (Z.of_nat (length data)) ++ data)%list in
  (n < length frame)%nat ->
  exists e : string,
    ReadCommand (take n frame) = (Err e, [])
    /\ ReadResponse (take n frame) = (Err e, [])
    /\ (e = "EOF" \/ e = "unexpected EOF")
    /\ (e = "EOF" <-> n = 0%nat \/ n = 4%nat).
Proof.
  intros Hlen. cbn zeta. rewrite length_app, PutUint32_length. intros Hn.
  assert (Hframe :
    exists e : string,
      (forall what, readFrame what
                      (take n (PutUint32 (Z.of_nat (length data)) ++ data)%list)
                    = (Err e, []))
      /\ (e = "EOF" \/ e = "unexpected EOF")
      /\ (e = "EOF" <-> n = 0%nat \/ n = 4%nat)).
  { destruct (Nat.lt_ge_cases n 4) as [Hsmall | Hbig].
    - rewrite take_app_le by (rewrite PutUint32_length; lia).
      unfold PutUint32.
      destruct n as [| [| [| [| n]]]]; try lia; cbn [take];
        (eexists; split; [intros what; reflexivity |]);
        (split; [auto |]); split; (try discriminate); (try lia); auto;
        intros [H | H]; discriminate H.
    - rewrite take_app_ge by (rewrite PutUint32_length; lia).
      rewrite PutUint32_length.
      assert (Hshort : (length (take (n - 4) data) < length data)%nat)
        by (rewrite length_take; lia).
      exists (match take (n - 4) data with [] => "EOF" | _ => "unexpected EOF" end).
      split; [| split].
      + intros what. unfold readFrame.
        change protocolHeaderSize
          with (length (PutUint32 (Z.of_nat (length data)))).
        rewrite ReadFull_app.
        unfold maxPayload in *. rewrite Uint32_PutUint32 by lia.
        destruct (Z.ltb_spec (1024 * 1024) (Z.of_nat (length data)))
          as [H | _]; [lia |].
        rewrite Nat2Z.id. by apply ReadFull_short.
      + destruct (take (n - 4) data); auto.
      + destruct (take (n - 4) data) as [| b l] eqn:Ht.
        * split; [intros _ | reflexivity].
          right. apply (f_equal length) in Ht. rewrite length_take in Ht.
          cbn [length] in Ht. lia.
        * split; [discriminate |].
          intros [H | H]; [lia |]. subst n. discriminate Ht. }
  destruct Hframe as (e & Hread & He & Hiff).
  exists e. unfold ReadCommand, ReadResponse. rewrite !Hread. auto.
Qed.

Lemma truncated_frames_end_in_eof_witness :
  ReadCommand (take 6 (PutUint32 3 ++ ["a"; "b"; "c"]%byte)%list)
  = (Err "unexpected EOF", []).
Proof.
  destruct (truncated_frames_end_in_eof ["a"; "b"; "c"]%byte 6)
    as (e & Hc & _ & [-> | ->] & Hiff).
  - unfold maxPayload. cbn. lia.
  - cbn. lia.
  - destruct (proj1 Hiff eq_refl) as [H | H]; discriminate H.
  - exact Hc.
Defined.

End framing_more.

(** ** The text form of commands *)

Section text_more.
Import time protocol text.

Variable Fields : string -> list string.
Variable TrimSpace : string -> string.
Variable ToUpper : string -> string.

(** X27.  The text form of SET reads a TTL only from a line of five tokens or
    more, and then from the fourth: [SET key value 60] sets no TTL at all,
    while [SET key value 60 x] sets 60 seconds.  A fourth token that is no
    integer is passed over, and the product with one second wraps in
    int64. *)
Theorem text_set_needs_a_fifth_token_for_its_ttl
    (line name key val t : string) (more : list string) :
  ToUpper name = "SET" ->
  (Fields (TrimSpace line) = [name; key; val]
   \/ Fields (TrimSpace line) = [name; key; val; t] ->
   ParseTextCommand Fields TrimSpace ToUpper line
   = Ok (mkCommand key 0 CmdSet [val]))
  /\ (Fields (TrimSpace line) = name :: key :: val :: t :: more ->
      more <> [] ->
      ParseTextCommand Fields TrimSpace ToUpper line
      = Ok (mkCommand key
              (match strconv.ParseInt t with
               | Some n => wrap64 (n * Second)
               | None => 0
               end) CmdSet [val])).
Proof.
  intros Hset. unfold ParseTextCommand. split.
  - intros [-> | ->]; rewrite Hset; reflexivity.
  - intros -> Hmore. rewrite Hset. cbn [String.eqb Ascii.eqb].
    destruct more as [| x more]; [contradiction |].
    change (parseSetCommand (name :: key :: val :: t :: x :: more))
      with (match Atoi t with
            | Some ttl => Ok (mkCommand key (wrap64 (ttl * Second)) CmdSet [val])
            | None => Ok (mkCommand key 0 CmdSet [val])
            end).
    unfold Atoi. by destruct (strconv.ParseInt t).
Qed.

(** X28.  Whatever the tokenizer, a line that parses gives one of the seven
    opcodes GET, SET, DEL, EXISTS, INCR, DECR, PING; the five one-key
    commands take exactly two tokens and carry no argument and no TTL, SET
    carries exactly one argument, and PING carries nothing, whatever
    follows it on the line. *)
Theorem text_lines_give_seven_opcodes (line : string) (cmd : Command) :
  ParseTextCommand Fields TrimSpace ToUpper line = Ok cmd ->
  let parts := Fields (TrimSpace line) in
  (CmdType cmd = CmdPing /\ cmd = mkCommand "" 0 CmdPing [])
  \/ (CmdType cmd = CmdSet /\ (3 <= length parts)%nat
      /\ Key cmd = nth 1 parts "" /\ Args cmd = [nth 2 parts ""])
  \/ ((CmdType cmd = CmdGet \/ CmdType cmd = CmdDel \/ CmdType cmd = CmdExists
       \/ CmdType cmd = CmdIncr \/ CmdType cmd = CmdDecr)
      /\ length parts = 2%nat
      /\ cmd = mkCommand (nth 1 parts "") 0 (CmdType cmd) []).
Proof.
  cbn zeta. unfold ParseTextCommand.
  destruct (Fields (TrimSpace line)) as [| part0 rest] eqn:Hparts;
    [discriminate |].
  assert (Hkey : forall name t,
            parseKeyCommand name t (part0 :: rest) = Ok cmd ->
            length (part0 :: rest) = 2%nat
            /\ cmd = mkCommand (nth 1 (part0 :: rest) "") 0 t []).
  { intros name t. unfold parseKeyCommand, exactArgsForGet.
    destruct (Nat.eqb_spec (length (part0 :: rest)) 2) as [H2 | _];
      cbn [negb]; [| discriminate].
    intros [= <-]. auto. }
  repeat match goal with
         | |- context [String.eqb ?a ?b] => destruct (String.eqb a b)
         end;
    try discriminate.
  - intros H%Hkey. destruct H as [H2 ->]. right. right. cbn [CmdType]. auto.
  - intros H. right. left. unfold parseSetCommand, minArgsForSet in H.
    destruct (Nat.ltb_spec (length (part0 :: rest)) 3) as [| H3];
      [discriminate |].
    destruct (maxArgsForSet <? length (part0 :: rest))%nat;
      [destruct (Atoi _) |]; injection H as <-; cbn [CmdType Key Args]; auto.
  - intros H%Hkey. destruct H as [H2 ->]. right. right. cbn [CmdType].
    split; [auto 6 | auto].
  - intros H%Hkey. destruct H as [H2 ->]. right. right. cbn [CmdType].
    split; [auto 6 | auto].
  - intros H%Hkey. destruct H as [H2 ->]. right. right. cbn [CmdType].
    split; [auto 6 | auto].
  - intros H%Hkey. destruct H as [H2 ->]. right. right. cbn [CmdType].
    split; [auto 6 | auto].
  - intros [= <-]. left. auto.
Qed.

End text_more.

Lemma text_set_needs_a_fifth_token_for_its_ttl_witness :
  let Fields := fun _ : string => ["set"; "k"; "v"; "60"] in
  text.ParseTextCommand Fields id (fun _ => "SET") "set k v 60"
  = Ok (protocol.mkCommand "k" 0 protocol.CmdSet ["v"]).
Proof.
  cbn zeta.
  apply (proj1 (text_set_needs_a_fifth_token_for_its_ttl
                  (fun _ => ["set"; "k"; "v"; "60"]) id (fun _ => "SET")
                  "set k v 60" "set" "k" "v" "60" [] eq_refl)).
  by right.
Defined.

Lemma text_lines_give_seven_opcodes_witness :
  let cmd := protocol.mkCommand "" 0 protocol.CmdPing [] in
  let parts := ["ping"; "now"] in
  (protocol.CmdType cmd = protocol.CmdPing /\ cmd = cmd)
  \/ (protocol.CmdType cmd = protocol.CmdSet /\ (3 <= length parts)%nat
      /\ protocol.Key cmd = nth 1 parts "" /\ protocol.Args cmd = [nth 2 parts ""])
  \/ ((protocol.CmdType cmd = protocol.CmdGet
       \/ protocol.CmdType cmd = protocol.CmdDel
       \/ protocol.CmdType cmd = protocol.CmdExists
       \/ protocol.CmdType cmd = protocol.CmdIncr
       \/ protocol.CmdType cmd = protocol.CmdDecr)
      /\ length parts = 2%nat
      /\ cmd = protocol.mkCommand (nth 1 parts "") 0 (protocol.CmdType cmd) []).
Proof.
  exact (text_lines_give_seven_opcodes
           (fun _ => ["ping"; "now"]) id (fun _ => "PING") "ping now"
           (protocol.mkCommand "" 0 protocol.CmdPing []) eq_refl).
Defined.

(** ** The ring and its servers *)

Section ring_more.
Import hash routing membership.

Lemma owned_New (virtualNodes : Z) : owned (New virtualNodes).
Proof.
  unfold owned, New. cbn [ring nodes]. split.
  - intros h node. by rewrite lookup_empty.
  - intros node b. by rewrite lookup_empty.
Qed.

Lemma owned_AddNode (c : ConsistentHash) (node : string) :
  owned c -> owned (AddNode c node).
Proof.
  intros [Hring Htrue]. unfold AddNode.
  destruct (has_node c node) eqn:Hhas; [by split |].
  destruct (fold_add_virtual node (seqZ 0 (virtualNodes c))
              (ring c, sortedHashes c)) as [_ Hr].
  cbn zeta in Hr. cbn [fst snd] in Hr.
  unfold owned, has_node, virtual_hashes. cbn [ring nodes virtualNodes]. split.
  - intros h n. rewrite Hr.
    destruct (decide (h ∈ _)) as [Hin | Hnin].
    + intros [= <-]. by rewrite lookup_insert_eq.
    + intros Hn. destruct (Hring h n Hn) as [Hm Hv]. split; [| exact Hv].
      destruct (decide (node = n)) as [-> | Hne].
      * by rewrite lookup_insert_eq.
      * rewrite lookup_insert_ne by exact Hne. exact Hm.
  - intros n b. destruct (decide (node = n)) as [-> | Hne].
    + rewrite lookup_insert_eq. by intros [= <-].
    + rewrite lookup_insert_ne by exact Hne. apply Htrue.
Qed.

Lemma owned_RemoveNode (c : ConsistentHash) (node : string) :
  owned c -> owned (RemoveNode c node).
Proof.
  intros [Hring Htrue]. unfold RemoveNode.
  destruct (has_node c node) eqn:Hhas; cbn [negb]; [| by split].
  unfold owned, has_node, virtual_hashes. cbn [ring nodes virtualNodes]. split.
  - intros h n. rewrite fold_del_virtual.
    destruct (decide (h ∈ _)) as [Hin | Hnin]; [discriminate |].
    intros Hn. destruct (Hring h n Hn) as [Hm Hv]. split; [| exact Hv].
    assert (Hne : node <> n) by (intros ->; contradiction).
    rewrite lookup_delete_ne by exact Hne. exact Hm.
  - intros n b Hn. apply lookup_delete_Some in Hn as [_ Hn]. by eapply Htrue.
Qed.

Lemma reachable_owned (c : ConsistentHash) : reachable c -> owned c.
Proof.
  induction 1; auto using owned_New, owned_AddNode, owned_RemoveNode.
Qed.

Lemma has_node_RemoveNode (c : ConsistentHash) (node : string) :
  has_node (RemoveNode c node) node = false.
Proof.
  unfold RemoveNode. destruct (has_node c node) eqn:Hhas; cbn [negb];
    [| exact Hhas].
  unfold has_node. cbn [nodes]. by rewrite lookup_delete_eq.
Qed.

(** What a lookup answers on a ring that is sorted and in step with its
    map, and whose positions belong to current servers. *)
Lemma GetNode_member (c : ConsistentHash) (key : string) :
  consistent c -> owned c ->
  exists node : string,
    GetNode c key = Some node
    /\ (ring c = ∅ -> node = "")
    /\ (ring c <> ∅ -> has_node c node = true).
Proof.
  intros Hcons [Hring _]. exists (lookup c key).
  split; [by apply GetNode_lookup |].
  pose proof Hcons as [Hsorted Hiff].
  pose proof (consistent_empty c Hcons) as Hempty.
  unfold lookup. split.
  - intros Hnone.
    assert (Hnil : sortedHashes c = [])
      by (apply Hempty; rewrite Hnone; apply map_size_empty).
    by rewrite Hnil.
  - intros Hsome.
    assert (Hne : sortedHashes c <> []).
    { intros Hnil. apply Hsome. apply map_size_empty_iff. by apply Hempty. }
    destruct (first_position_is_Some _ (hashKey key) Hne) as [p Hp].
    rewrite Hp.
    destruct (first_position_owner _ _ _ Hsorted Hp) as [Hin _].
    apply Hiff in Hin as [n Hn]. rewrite Hn. cbn.
    by destruct (Hring p n Hn).
Qed.

(** X29.  On every ring built from a new one by adding and removing servers, a
    lookup returns, without running out of range: the empty string when
    the ring has no position, and otherwise a server that is currently in
    the ring and is listed by [GetNodes].  So after a server is removed no
    key is routed to it any more. *)
Theorem lookups_answer_current_servers
    (c : ConsistentHash) (key S : string) :
  reachable c ->
  (exists node : string,
      GetNode c key = Some node
      /\ (ring c = ∅ -> node = "")
      /\ (ring c <> ∅ -> has_node c node = true /\ node ∈ GetNodes c))
  /\ (ring (RemoveNode c S) <> ∅ -> GetNode (RemoveNode c S) key <> Some S).
Proof.
  intros Hr. split.
  - destruct (GetNode_member c key (reachable_consistent c Hr)
                (reachable_owned c Hr)) as (node & Hget & Hnil & Hmem).
    exists node. split; [exact Hget |]. split; [exact Hnil |].
    intros Hne. specialize (Hmem Hne). split; [exact Hmem |].
    unfold has_node in Hmem. unfold GetNodes.
    destruct (nodes c !! node) as [b |] eqn:Hb; [| discriminate].
    apply list_elem_of_fmap. exists (node, b).
    split; [reflexivity |]. by apply elem_of_map_to_list.
  - intros Hne Hget.
    assert (Hr' : reachable (RemoveNode c S)) by (by constructor).
    destruct (GetNode_member (RemoveNode c S) key
                (reachable_consistent _ Hr') (reachable_owned _ Hr'))
      as (node & Hget' & _ & Hmem).
    rewrite Hget in Hget'. injection Hget' as <-.
    specialize (Hmem Hne). rewrite has_node_RemoveNode in Hmem. discriminate.
Qed.

Lemma lookups_answer_current_servers_witness :
  exists node : string,
    GetNode (AddNode (New 3) "node1:8080") "user:42" = Some node
    /\ (ring (AddNode (New 3) "node1:8080") = ∅ -> node = "")
    /\ (ring (AddNode (New 3) "node1:8080") <> ∅ ->
        has_node (AddNode (New 3) "node1:8080") node = true
        /\ node ∈ GetNodes (AddNode (New 3) "node1:8080")).
Proof.
  apply (lookups_answer_current_servers
           (AddNode (New 3) "node1:8080") "user:42" "").
  repeat constructor.
Defined.

Lemma has_node_AddNode (c : ConsistentHash) (node : string) :
  has_node (AddNode c node) node = true.
Proof.
  unfold AddNode. destruct (has_node c node) eqn:Hhas; [exact Hhas |].
  unfold has_node. cbn [nodes]. by rewrite lookup_insert_eq.
Qed.

Lemma filter_all (P : Z -> Prop) `{!forall x, Decision (P x)} (l : list Z) :
  (forall x, x ∈ l -> P x) -> filter P l = l.
Proof.
  induction l as [| x l IH]; intros Hall; [reflexivity |].
  rewrite filter_cons, decide_True by (apply Hall; by left).
  f_equal. apply IH. intros y Hy. apply Hall. by right.
Qed.

Lemma filter_none (P : Z -> Prop) `{!forall x, Decision (P x)} (l : list Z) :
  (forall x, x ∈ l -> ~ P x) -> filter P l = [].
Proof.
  induction l as [| x l IH]; intros Hnone; [reflexivity |].
  rewrite filter_cons, decide_False by (apply Hnone; by left).
  apply IH. intros y Hy. apply Hnone. by right.
Qed.

(** X30.  Adding a server twice, or removing it twice, is the same as doing it
    once; and removing a server that was just added gives back the ring as
    it was, sorted array included, provided none of the new server's
    positions was already on the ring.  (A position shared with another
    server is overwritten by [AddNode] and deleted by [RemoveNode], so it
    would be lost to the other server.) *)
Theorem removing_a_fresh_server_restores_the_ring
    (c : ConsistentHash) (S : string) :
  AddNode (AddNode c S) S = AddNode c S
  /\ RemoveNode (RemoveNode c S) S = RemoveNode c S
  /\ (reachable c -> has_node c S = false ->
      (forall h, h ∈ virtual_hashes c S -> ring c !! h = None) ->
      RemoveNode (AddNode c S) S = c).
Proof.
  split; [| split].
  - unfold AddNode at 1. by rewrite has_node_AddNode.
  - unfold RemoveNode at 1. by rewrite has_node_RemoveNode.
  - intros Hr Hhas Hfresh.
    pose proof (reachable_consistent c Hr) as [Hsorted Hiff].
    pose proof (reachable_owned c Hr) as [_ Htrue].
    unfold RemoveNode. rewrite has_node_AddNode. cbn [negb].
    unfold AddNode. rewrite Hhas. cbn [ring sortedHashes nodes virtualNodes].
    destruct (fold_add_virtual S (seqZ 0 (virtualNodes c))
                (ring c, sortedHashes c)) as [Hl Hadd].
    cbn zeta in Hl, Hadd. cbn [fst snd] in Hl, Hadd.
    fold (virtual_hashes c S) in Hl, Hadd.
    assert (Hring :
      fold_left (del_virtual S) (seqZ 0 (virtualNodes c))
        (fold_left (add_virtual S) (seqZ 0 (virtualNodes c))
           (ring c, sortedHashes c)).1
      = ring c).
    { apply map_eq. intros h. rewrite fold_del_virtual.
      fold (virtual_hashes c S).
      destruct (decide (h ∈ virtual_hashes c S)) as [Hin | Hnin].
      - symmetry. by apply Hfresh.
      - rewrite Hadd. by rewrite decide_False. }
    rewrite Hring, Hl.
    assert (Hsort :
      filter (fun hash => is_Some (ring c !! hash))
        (sort.Slice (sortedHashes c ++ virtual_hashes c S))
      = sortedHashes c).
    { apply (StronglySorted_unique Z.le).
      - apply StronglySorted_filter. unfold sort.Slice.
        apply StronglySorted_merge_sort; apply _.
      - exact Hsorted.
      - unfold sort.Slice. rewrite merge_sort_Permutation, filter_app.
        rewrite (filter_all _ (sortedHashes c)) by (intros x Hx; by apply Hiff).
        rewrite (filter_none _ (virtual_hashes c S)).
        + by rewrite app_nil_r.
        + intros x Hx [v Hv]. rewrite (Hfresh x Hx) in Hv. discriminate. }
    rewrite Hsort.
    assert (Hnodes : delete S (<[S := true]> (nodes c)) = nodes c).
    { apply delete_insert_id. unfold has_node in Hhas.
      destruct (nodes c !! S) as [b |] eqn:Hb; [| reflexivity].
      rewrite (Htrue S b Hb) in Hhas. discriminate. }
    rewrite Hnodes. by destruct c.
Qed.

Lemma removing_a_fresh_server_restores_the_ring_witness :
  RemoveNode (AddNode (AddNode (New 3) "node1:8080") "node2:8080") "node2:8080"
  = AddNode (New 3) "node1:8080".
Proof.
  apply (removing_a_fresh_server_restores_the_ring
           (AddNode (New 3) "node1:8080") "node2:8080").
  - repeat constructor.
  - reflexivity.
  - intros h Hh. vm_compute in Hh.
    repeat (apply elem_of_cons in Hh as [-> | Hh]; [by vm_compute |]).
    by apply not_elem_of_nil in Hh.
Defined.

End ring_more.
